(** * nuwa: camera-pose utilities and the NuwaDB dataset record

    A shallow embedding of [nuwa/utils/pose_utils.py] and of the
    algorithmic parts of [nuwa/data/db.py]: [NuwaDB.normalize_cameras], and
    the masking loop and the camera-adjustment stage of
    [NuwaDB.calculate_object_mask].

    Numbers.  Camera geometry (poses, intrinsics, centres, norms) is carried
    out over the real numbers [R]: NumPy's floating-point entries are read as
    the reals they approximate.  Pixel coordinates of the mask propagation
    are the finite floating-point numbers NumPy computes, carried as the
    rationals [Q] they are: every conversion and every [+], [-], [*] of
    lines 127-136 returns its exact result rounded to the floating-point
    type of the result, and the roundings are collaborators (they depend on
    the dtype of the flow field and on NumPy's promotion rules).  Python's
    [int()] is truncation toward zero.

    Effects.  Python exceptions are values of [exn]; a method that mutates
    [self] is a function from the dataset to an outcome paired with the
    dataset it leaves behind.  Collaborators that live outside the two
    source files (segmentation, optical flow, connected components, Pillow's
    [reduce], scene carving, cropping, NumPy's rounding, the sparse
    reconstruction object) are the fields of the classes [Colmap] and
    [Vision]; [Image.open] and [os.path.abspath] are parameters of
    [calculate_object_mask].

    Layout.  [PoseUtils], [DB], [Rotations], [DBUp] and [DBMask] hold the
    definitions of the two source files; [Binary] and [BinarySpec] hold
    rounding to nearest in a binary format and its laws, [Samples] and
    [MoreSamples] concrete collaborators and datasets; the properties follow
    in [PoseUtilsSpec], [NormalizeSpec], [AdjustSpec] and [MaskingSpec], and
    further ones in [PoseUtilsMoreSpec], [NormalizeMoreSpec],
    [MaskingMoreSpec] and [WholeCallSpec]. *)

From Stdlib Require Import Reals Lra ZArith QArith Qminmax Qround Qpower.
From Stdlib Require Import List Ascii String DecimalString Lia Bool.
From Stdlib Require Lqa DecimalNat.
Import ListNotations.

(** Python exceptions raised by the modelled code. *)
Inductive exn : Type :=
| AssertionError
| AttributeError
| IndexError
| ValueError.

(** * pose_utils.py *)
Module PoseUtils.

Local Open Scope R_scope.

(** A row of a 4x4 array. *)
Record vec4 : Type := V4 { v0 : R; v1 : R; v2 : R; v3 : R }.

(** A camera-to-world pose: a 4x4 array, row major. *)
Record mat4 : Type := M4 { row0 : vec4; row1 : vec4; row2 : vec4; row3 : vec4 }.

Definition dot4 (a b : vec4) : R :=
  v0 a * v0 b + v1 a * v1 b + v2 a * v2 b + v3 a * v3 b.

Definition col0 (m : mat4) : vec4 := V4 (v0 (row0 m)) (v0 (row1 m)) (v0 (row2 m)) (v0 (row3 m)).
Definition col1 (m : mat4) : vec4 := V4 (v1 (row0 m)) (v1 (row1 m)) (v1 (row2 m)) (v1 (row3 m)).
Definition col2 (m : mat4) : vec4 := V4 (v2 (row0 m)) (v2 (row1 m)) (v2 (row2 m)) (v2 (row3 m)).
Definition col3 (m : mat4) : vec4 := V4 (v3 (row0 m)) (v3 (row1 m)) (v3 (row2 m)) (v3 (row3 m)).

Definition row_times (r : vec4) (m : mat4) : vec4 :=
  V4 (dot4 r (col0 m)) (dot4 r (col1 m)) (dot4 r (col2 m)) (dot4 r (col3 m)).

(** NumPy's [a @ b] on two 4x4 arrays. *)
Definition matmul (a b : mat4) : mat4 :=
  M4 (row_times (row0 a) b) (row_times (row1 a) b)
     (row_times (row2 a) b) (row_times (row3 a) b).

Infix "@@" := matmul (at level 40, left associativity).

(** The literal of [convert_camera_pose]: diag(1,-1,-1,1). *)
Definition flip_yz : mat4 :=
  M4 (V4 1 0 0 0)
     (V4 0 (-1) 0 0)
     (V4 0 0 (-1) 0)
     (V4 0 0 0 1).

(** The literal of [get_rot90_camera_matrices]. *)
Definition rot90 : mat4 :=
  M4 (V4 0 1 0 0)
     (V4 (-1) 0 0 0)
     (V4 0 0 1 0)
     (V4 0 0 0 1).

Definition accepted_types : list string := ["cv"; "gl"; "blender"]%string.

Definition accepted (t : string) : bool :=
  existsb (String.eqb t) accepted_types.

(** [if t == "blender": t = "gl"] *)
Definition unblender (t : string) : string :=
  if String.eqb t "blender" then "gl"%string else t.

(** [convert_camera_pose(pose, in_type, out_type)]; a failed [assert] is
    [inr AssertionError]. *)
Definition convert_camera_pose (pose : mat4) (in_type out_type : string)
  : mat4 + exn :=
  if negb (accepted in_type) then inr AssertionError
  else if negb (accepted out_type) then inr AssertionError
  else
    let in_type := unblender in_type in
    let out_type := unblender out_type in
    if String.eqb in_type out_type then inl pose
    else inl (pose @@ flip_yz).

(** The five values returned by [get_rot90_camera_matrices]. *)
Record rot90_result : Type := Rot90Result {
  new_pose_matrix : mat4;
  nfx : R;
  nfy : R;
  ncx : R;
  ncy : R
}.

(** [get_rot90_camera_matrices(pose, fx, fy, cx, cy, h)] *)
Definition get_rot90_camera_matrices (pose : mat4) (fx fy cx cy h : R)
  : rot90_result :=
  {| new_pose_matrix := pose @@ rot90;
     nfx := fy;
     nfy := fx;
     ncx := h - cy;
     ncy := cx |}.

(** One more application of [get_rot90_camera_matrices] to the outputs of a
    previous one, with the height of the image as it now stands. *)
Definition rot90_again (prev : rot90_result) (h : R) : rot90_result :=
  get_rot90_camera_matrices
    (new_pose_matrix prev) (nfx prev) (nfy prev) (ncx prev) (ncy prev) h.

End PoseUtils.

(** * db.py: the dataset record and camera normalisation *)
Module DB.

Import PoseUtils.
Local Open Scope R_scope.

(** A point or offset of world space: a length-3 array. *)
Record vec3 : Type := V3 { vx : R; vy : R; vz : R }.

Definition vsub (a b : vec3) : vec3 := V3 (vx a - vx b) (vy a - vy b) (vz a - vz b).
Definition vneg (a : vec3) : vec3 := V3 (- vx a) (- vy a) (- vz a).
Definition vscale (k : R) (a : vec3) : vec3 := V3 (vx a * k) (vy a * k) (vz a * k).

(** [np.linalg.norm(v, axis=-1)] on one row. *)
Definition norm3 (a : vec3) : R := sqrt (vx a * vx a + vy a * vy a + vz a * vz a).

(** A 3x3 intrinsic matrix, row major. *)
Record mat3 : Type := M3 { k_row0 : vec3; k_row1 : vec3; k_row2 : vec3 }.

(** Modelled from the spec: the camera class behind [frame.camera] (module
    [nuwa.data.frame]) is not among the sources; the fields are those of the
    data model (width, height, focal lengths, principal point, model tag) that
    [db.py] reads and writes. *)
Record Camera : Type := mkCamera {
  camera_param_model : string;
  w : Z;
  h : Z;
  fx : R;
  fy : R;
  cx : R;
  cy : R
}.

(** Modelled from the spec: the class [nuwa.data.frame.Frame] is not among
    the sources; the fields are those of the data model (image path, original
    path, optional mask path, pose, camera) that [db.py] reads and writes. *)
Record Frame : Type := mkFrame {
  image_path : string;
  org_path : string;
  mask_path : option string;
  pose : mat4;
  camera : Camera
}.

Definition with_pose (f : Frame) (p : mat4) : Frame :=
  {| image_path := image_path f; org_path := org_path f;
     mask_path := mask_path f; pose := p; camera := camera f |}.

(** [pose[:3, 3]]: the camera centre. *)
Definition center (p : mat4) : vec3 :=
  V3 (v3 (row0 p)) (v3 (row1 p)) (v3 (row2 p)).

Definition set_v3 (r : vec4) (x : R) : vec4 := V4 (v0 r) (v1 r) (v2 r) x.

(** Assignment to [pose[:3, 3]]. *)
Definition set_center (p : mat4) (c : vec3) : mat4 :=
  M4 (set_v3 (row0 p) (vx c)) (set_v3 (row1 p) (vy c)) (set_v3 (row2 p) (vz c))
     (row3 p).

Fixpoint Rmin_list (x : R) (xs : list R) : R :=
  match xs with
  | [] => x
  | y :: ys => Rmin x (Rmin_list y ys)
  end.

Fixpoint Rmax_list (x : R) (xs : list R) : R :=
  match xs with
  | [] => x
  | y :: ys => Rmax x (Rmax_list y ys)
  end.

(** [a.min()] and [a.max()] of a one-dimensional array; [None] on the empty
    array, where NumPy raises. *)
Definition np_min (l : list R) : option R :=
  match l with [] => None | x :: xs => Some (Rmin_list x xs) end.

Definition np_max (l : list R) : option R :=
  match l with [] => None | x :: xs => Some (Rmax_list x xs) end.

(** [camera_poses[:, :3, 3]] *)
Definition centers_of (poses : list mat4) : list vec3 := map center poses.

(** [camera_poses[:, :3, 3].min(0)] and [.max(0)]: the componentwise extremes
    (xm, ym, zm) and (xM, yM, zM). *)
Definition extremes (cs : list vec3) : option (vec3 * vec3) :=
  match np_min (map vx cs), np_min (map vy cs), np_min (map vz cs),
        np_max (map vx cs), np_max (map vy cs), np_max (map vz cs) with
  | Some xm, Some ym, Some zm, Some xM, Some yM, Some zM =>
      Some (V3 xm ym zm, V3 xM yM zM)
  | _, _, _, _, _, _ => None
  end.

Definition offset_of (positive_z : bool) (lo hi : vec3) : vec3 :=
  if positive_z
  then V3 ((vx lo + vx hi) / 2) ((vy lo + vy hi) / 2) (vz lo)
  else V3 ((vx lo + vx hi) / 2) ((vy lo + vy hi) / 2) ((vz lo + vz hi) / 2).

(** [camera_poses[:, :3, 3] -= offset] *)
Definition translate_poses (offset : vec3) (poses : list mat4) : list mat4 :=
  map (fun p => set_center p (vsub (center p) offset)) poses.

(** [camera_poses[:, :3, 3] *= scale] *)
Definition scale_poses (scale : R) (poses : list mat4) : list mat4 :=
  map (fun p => set_center p (vscale scale (center p))) poses.

(** [np.linalg.norm(camera_poses[:, :3, 3], axis=-1).max()] *)
Definition max_center_norm (poses : list mat4) : option R :=
  np_max (map norm3 (centers_of poses)).

(** [for i, f in enumerate(self.frames): f.pose = camera_poses[i]] *)
Fixpoint write_poses (fs : list Frame) (poses : list mat4) : list Frame :=
  match fs, poses with
  | f :: fs', p :: poses' => with_pose f p :: write_poses fs' poses'
  | _, _ => fs
  end.

(** What [normalize_cameras] writes into frame [f], for offset [off] and
    scale [k]. *)
Definition normalized_frame (off : vec3) (k : R) (f : Frame) : Frame :=
  with_pose f (set_center (pose f) (vscale k (vsub (center (pose f)) off))).

(** Two frames that differ in their pose at most. *)
Definition same_but_pose (f1 f : Frame) : Prop :=
  camera f1 = camera f /\ image_path f1 = image_path f /\
  org_path f1 = org_path f /\ mask_path f1 = mask_path f.

(** The sparse reconstruction object ([nuwa.data.colmap.Reconstruction]) and
    its two in-place world transforms, of which [db.py] only has the calls. *)
Class Colmap : Type := {
  Reconstruction : Type;
  world_translate : vec3 -> Reconstruction -> Reconstruction;
  world_scale : R -> Reconstruction -> Reconstruction
}.

Section Normalize.

Context {colmap : Colmap}.

(** [class NuwaDB]; [colmap_reconstruction] is [None] by default. *)
Record NuwaDB : Type := mkDB {
  source : string;
  frames : list Frame;
  colmap_reconstruction : option Reconstruction
}.

Definition with_state (db : NuwaDB) (fs : list Frame) (rc : option Reconstruction)
  : NuwaDB :=
  {| source := source db; frames := fs; colmap_reconstruction := rc |}.

(** [NuwaDB.normalize_cameras(positive_z, scale_factor)].  The outcome is the
    exception raised, if any, and the dataset as the call leaves it.  Indexing
    [camera_poses[:, :3, 3]] on the array built from no frames raises
    [IndexError]; calling a method on a [None] reconstruction raises
    [AttributeError]; the division is NumPy's and raises nothing. *)
Definition normalize_cameras (positive_z : bool) (scale_factor : R) (db : NuwaDB)
  : option exn * NuwaDB :=
  let camera_poses := map pose (frames db) in
  match extremes (centers_of camera_poses) with
  | None => (Some IndexError, db)
  | Some (lo, hi) =>
      let offset := offset_of positive_z lo hi in
      let camera_poses := translate_poses offset camera_poses in
      match colmap_reconstruction db with
      | None => (Some AttributeError, db)
      | Some rc =>
          let rc := world_translate (vneg offset) rc in
          match max_center_norm camera_poses with
          | None => (Some ValueError, with_state db (frames db) (Some rc))
          | Some m =>
              let scale := scale_factor / m in
              let camera_poses := scale_poses scale camera_poses in
              let rc := world_scale scale rc in
              (None, with_state db (write_poses (frames db) camera_poses) (Some rc))
          end
      end
  end.

(** The camera centres of a dataset. *)
Definition db_centers (db : NuwaDB) : list vec3 :=
  centers_of (map pose (frames db)).

(** The offset and the largest centred norm that [normalize_cameras] computes
    on its way. *)
Definition db_offset (positive_z : bool) (db : NuwaDB) : option vec3 :=
  match extremes (db_centers db) with
  | None => None
  | Some (lo, hi) => Some (offset_of positive_z lo hi)
  end.

Definition db_centered_max_norm (positive_z : bool) (db : NuwaDB) : option R :=
  match db_offset positive_z db with
  | None => None
  | Some offset => max_center_norm (translate_poses offset (map pose (frames db)))
  end.

(** Arithmetic mean of a coordinate list (the centroid's component). *)
Definition mean (l : list R) : R := fold_right Rplus 0 l / INR (List.length l).

(** Centre of the bounding interval of a coordinate list. *)
Definition midpoint (l : list R) : option R :=
  match np_min l, np_max l with
  | Some a, Some b => Some ((a + b) / 2)
  | _, _ => None
  end.

End Normalize.

(** ** Mask propagation: the data *)

(** A boolean 2-D array, a list of rows. *)
Definition mask : Type := list (list bool).

(** A [uint8] 2-D array. *)
Definition gray : Type := list (list Z).

(** [(xmin, ymin, xmax, ymax)] *)
Definition bbox : Type := (Z * Z * Z * Z)%type.

(** A displacement field: [flow[y][x] = (dx, dy)]. *)
Definition flow_field : Type := list (list (Q * Q)).

(** A row of the [stats] array of [cv2.connectedComponentsWithStats]; column
    4 is the area. *)
Record cc_stat : Type := mkStat {
  cc_left : Z; cc_top : Z; cc_width : Z; cc_height : Z; cc_area : Z
}.

(** A rounding to nearest of NumPy, as far as the properties below use it:
    it is monotone, and exact on the integers below [2 ** 24], which float32
    and every wider binary format hold. *)
Definition to_nearest (f : Q -> Q) : Prop :=
  (forall x y : Q, (x <= y)%Q -> (f x <= f y)%Q) /\
  (forall n : Z, (Z.abs n < 2 ^ 24)%Z -> (f (inject_Z n) == inject_Z n)%Q).

(** The model services and library routines that [calculate_object_mask]
    calls: rembg and SAM ([segment_img], [sam], [SAMAPI.segment_api]), RAFT
    ([raft_optical_flow_api]), Pillow's [Image.reduce] on a picture and on the
    [uint8] picture of a mask, OpenCV's component labelling (its [labels] and
    [stats]), the carving and cropping helpers of [nuwa.utils.seg_utils], the
    [intrinsic_matrix] of a camera and the [shape[:2]] of a picture.

    The last fields are NumPy's roundings on finite numbers.
    [astype_float32] is [.astype(np.float32)].  [round_array] rounds to the
    dtype of [fg_pixels + flow[ys, xs]] (float32 for a float32 flow field),
    which is also the type of its extremes and of their difference.
    [round_scalar] rounds to the type NumPy gives an operation between such
    a scalar and the Python float [shrink], after converting [shrink] to it:
    float64 under value-based casting, the type of the scalar under NumPy 2's
    promotion rules. *)
Class Vision : Type := {
  image : Type;
  shape : image -> Z * Z;
  segment_img : image -> mask;
  sam : image -> mask -> mask;
  reduce_img : Z -> image -> image;
  reduce_gray : Z -> gray -> gray;
  raft_optical_flow_api : image -> image -> flow_field;
  segment_api : image -> bbox -> mask;
  connectedComponentsWithStats : gray -> list (list Z) * list cc_stat;
  intrinsic_matrix : Camera -> mat3;
  scene_carving : list mask -> list mat3 -> list mat4 -> list mat4;
  crop_images :
    list image -> list mask -> list mat3 -> list image * list mat3 * list mask;
  astype_float32 : Q -> Q;
  round_array : Q -> Q;
  round_scalar : Q -> Q;
  astype_float32_nearest : to_nearest astype_float32;
  round_array_nearest : to_nearest round_array;
  round_scalar_nearest : to_nearest round_scalar
}.

(** [m.astype(np.uint8)] *)
Definition astype_uint8 (m : mask) : gray :=
  map (map (fun b : bool => if b then 1%Z else 0%Z)) m.

(** [a > 0] *)
Definition gt0 (g : gray) : mask := map (map (fun v => (0 <? v)%Z)) g.

(** [np.ones_like(m)] *)
Definition ones_like (m : mask) : mask := map (map (fun _ => true)) m.

(** The all-foreground mask of [rows] rows and [cols] columns. *)
Definition full_mask (rows cols : nat) : mask := repeat (repeat true cols) rows.

Fixpoint nonzero_row (y x : nat) (row : list bool) : list (nat * nat) :=
  match row with
  | [] => []
  | b :: row' => (if b then [(y, x)] else []) ++ nonzero_row y (S x) row'
  end.

Fixpoint nonzero_from (y : nat) (m : mask) : list (nat * nat) :=
  match m with
  | [] => []
  | row :: m' => nonzero_row y 0 row ++ nonzero_from (S y) m'
  end.

(** [ys, xs = m.nonzero()]: the (y, x) of the true entries, row by row. *)
Definition nonzero (m : mask) : list (nat * nat) := nonzero_from 0 m.

(** [flow[y, x]]; [None] where NumPy raises [IndexError]. *)
Definition flow_at (flow : flow_field) (y x : nat) : option (Q * Q) :=
  match nth_error flow y with
  | Some row => nth_error row x
  | None => None
  end.

Section Boxes.

Context {vision : Vision}.

(** [fg_pixels = [xs, ys].astype(np.float32) + flow[ys, xs]]: one (x, y) per
    foreground pixel. *)
Fixpoint warp (flow : flow_field) (px : list (nat * nat)) : option (list (Q * Q)) :=
  match px with
  | [] => Some []
  | (y, x) :: px' =>
      match flow_at flow y x, warp flow px' with
      | Some (dx, dy), Some rest =>
          Some ((round_array (astype_float32 (inject_Z (Z.of_nat x)) + dx),
                 round_array (astype_float32 (inject_Z (Z.of_nat y)) + dy))%Q :: rest)
      | _, _ => None
      end
  end.

Fixpoint Qmin_list (x : Q) (xs : list Q) : Q :=
  match xs with
  | [] => x
  | y :: ys => Qmin x (Qmin_list y ys)
  end.

Fixpoint Qmax_list (x : Q) (xs : list Q) : Q :=
  match xs with
  | [] => x
  | y :: ys => Qmax x (Qmax_list y ys)
  end.

(** [a.min(), a.max()] of a one-dimensional array; [None] where NumPy raises
    [ValueError] (the array is empty). *)
Definition Qmin_max (l : list Q) : option (Q * Q) :=
  match l with
  | [] => None
  | x :: xs => Some (Qmin_list x xs, Qmax_list x xs)
  end.

(** Python's [int(x)] on a float: truncation toward zero. *)
Definition py_int (q : Q) : Z := Z.quot (Qnum q) (Zpos (Qden q)).

(** Lines 130-138: from the warped pixels to the box handed to the
    segmentation service.  Each of [xmax - xmin], [w * shrink],
    [xmin - w * shrink] and [xmax + w * shrink] is rounded as NumPy rounds
    it. *)
Definition box_of_pixels (reduce_factor : Z) (shrink : Q) (fg_pixels : list (Q * Q))
  : bbox + exn :=
  match Qmin_max (map fst fg_pixels), Qmin_max (map snd fg_pixels) with
  | Some (xmin, xmax), Some (ymin, ymax) =>
      let w := round_array (xmax - xmin)%Q in
      let h := round_array (ymax - ymin)%Q in
      let shrink := round_scalar shrink in
      let xmin := py_int (round_scalar (xmin - round_scalar (w * shrink))) in
      let xmax := py_int (round_scalar (xmax + round_scalar (w * shrink))) in
      let ymin := py_int (round_scalar (ymin - round_scalar (h * shrink))) in
      let ymax := py_int (round_scalar (ymax + round_scalar (h * shrink))) in
      inl (xmin * reduce_factor, ymin * reduce_factor,
           xmax * reduce_factor, ymax * reduce_factor)%Z
  | _, _ => inr ValueError
  end.

(** Lines 126-138: the bounding-box step on the downsampled previous mask and
    the flow field. *)
Definition propagation_bbox (reduce_factor : Z) (shrink : Q)
    (ref_mask : mask) (flow : flow_field) : bbox + exn :=
  match warp flow (nonzero ref_mask) with
  | None => inr IndexError
  | Some fg_pixels => box_of_pixels reduce_factor shrink fg_pixels
  end.

Fixpoint argmax_from (best_i : nat) (best : Z) (i : nat) (l : list Z) : nat :=
  match l with
  | [] => best_i
  | x :: l' =>
      if (best <? x)%Z then argmax_from i x (S i) l'
      else argmax_from best_i best (S i) l'
  end.

(** [np.argmax(a)]: the first index of the maximum; [None] where NumPy raises
    [ValueError] (the array is empty). *)
Definition argmax (l : list Z) : option nat :=
  match l with
  | [] => None
  | x :: l' => Some (argmax_from 0 x 1 l')
  end.

(** Whether a mask has a true entry. *)
Definition has_foreground (m : mask) : bool := existsb (existsb (fun b => b)) m.

(** The zero displacement field on a grid. *)
Definition still_flow (rows cols : nat) : flow_field :=
  repeat (repeat (0, 0)%Q cols) rows.

(** The margin [w * shrink] of a full grid of [n] pixels under zero flow, as
    NumPy rounds it. *)
Definition still_margin (s : Q) (n : nat) : Q :=
  round_scalar (inject_Z (Z.of_nat n - 1) * round_scalar s).

(** The box computed for a full downsampled mask of [rows] by [cols] pixels
    under zero flow. *)
Definition still_box (r : Z) (s : Q) (rows cols : nat) : bbox :=
  let W := inject_Z (Z.of_nat cols - 1) in
  let H := inject_Z (Z.of_nat rows - 1) in
  (py_int (round_scalar (0 - still_margin s cols)) * r,
   py_int (round_scalar (0 - still_margin s rows)) * r,
   py_int (round_scalar (W + still_margin s cols)) * r,
   py_int (round_scalar (H + still_margin s rows)) * r)%Z.

End Boxes.

(** Whether a box lies within a picture of [rows] by [cols] pixels. *)
Definition within_image (rows cols : nat) (b : bbox) : bool :=
  let '(xmin, ymin, xmax, ymax) := b in
  ((0 <=? xmin) && (0 <=? ymin) &&
   (xmax <=? Z.of_nat cols) && (ymax <=? Z.of_nat rows))%Z.

(** [os.path.join(d, name)] for a relative [name]. *)
Definition path_join (d name : string) : string :=
  match d with
  | EmptyString => name
  | _ =>
      if String.eqb (substring (String.length d - 1) 1 d) "/"
      then (d ++ name)%string
      else (d ++ "/" ++ name)%string
  end.

Fixpoint zeros (n : nat) : string :=
  match n with
  | O => EmptyString
  | S n' => String "0"%char (zeros n')
  end.

(** The format [f"{i:06d}"]. *)
Definition fmt06d (i : nat) : string :=
  let digits := NilEmpty.string_of_uint (Nat.to_uint i) in
  (zeros (6 - String.length digits) ++ digits)%string.

(** [f"{i:06d}.png"] under a directory. *)
Definition numbered_png (dir : string) (i : nat) : string :=
  path_join dir (fmt06d i ++ ".png")%string.

Definition is_pinhole (f : Frame) : bool :=
  String.eqb (camera_param_model (camera f)) "PINHOLE".

(** Lines 182-185: the first four assignments of the update loop. *)
Definition update_pose_path_size (f : Frame) (p : mat4) (path : string) (w0 h0 : Z)
  : Frame :=
  {| image_path := path;
     org_path := org_path f;
     mask_path := mask_path f;
     pose := p;
     camera := {| camera_param_model := camera_param_model (camera f);
                  w := w0; h := h0;
                  fx := fx (camera f); fy := fy (camera f);
                  cx := cx (camera f); cy := cy (camera f) |} |}.

(** Lines 186-189: [fx, fy, cx, cy] from [ks[i]]. *)
Definition update_intrinsics (f : Frame) (k : mat3) : Frame :=
  {| image_path := image_path f;
     org_path := org_path f;
     mask_path := mask_path f;
     pose := pose f;
     camera := {| camera_param_model := camera_param_model (camera f);
                  w := w (camera f); h := h (camera f);
                  fx := vx (k_row0 k); fy := vy (k_row1 k);
                  cx := vz (k_row0 k); cy := vz (k_row1 k) |} |}.

(** Frame [f] at index [i] after a complete pass of the update loop. *)
Definition updated_frame (dir : string) (w0 h0 : Z) (p : mat4) (k : mat3)
    (i : nat) (f : Frame) : Frame :=
  update_intrinsics (update_pose_path_size f p (numbered_png dir i) w0 h0) k.

(** Lines 180-189: [for i in range(len(self.frames))], from index [i] on.
    The frames are returned as the loop leaves them, also when it raises. *)
Fixpoint update_info (dir : string) (w0 h0 : Z) (camera_poses : list mat4)
    (ks : list mat3) (i : nat) (fs : list Frame) : option exn * list Frame :=
  match fs with
  | [] => (None, [])
  | f :: fs' =>
      if negb (is_pinhole f) then (Some AssertionError, f :: fs')
      else
        match nth_error camera_poses i with
        | None => (Some IndexError, f :: fs')
        | Some p =>
            let f := update_pose_path_size f p (numbered_png dir i) w0 h0 in
            match nth_error ks i with
            | None => (Some IndexError, f :: fs')
            | Some k =>
                let f := update_intrinsics f k in
                let (r, fs'') := update_info dir w0 h0 camera_poses ks (S i) fs' in
                (r, f :: fs'')
            end
        end
  end.

Section Masking.

Context {colmap : Colmap} {vision : Vision}.

(** Lines 140-145: keep the largest non-background component, or fall back to
    all ones when [np.argmax] raises on an empty array. *)
Definition largest_component (m : mask) : mask :=
  let (labels, stats) := connectedComponentsWithStats (astype_uint8 m) in
  match argmax (map cc_area (skipn 1 stats)) with
  | Some k =>
      let maxcomp := (Z.of_nat k + 1)%Z in
      map (map (fun l => (l =? maxcomp)%Z)) labels
  | None => ones_like m
  end.

(** Line 123-124: the previous mask, downsampled. *)
Definition downsample_mask (reduce_factor : Z) (prev_mask : mask) : mask :=
  gt0 (reduce_gray reduce_factor (astype_uint8 prev_mask)).

(** Lines 119-145: the [else] branch of the masking loop for one frame.  The
    result is the box handed to [SAMAPI.segment_api] and the mask kept. *)
Definition propagate_frame (reduce_factor : Z) (shrink : Q)
    (prev_img img : image) (prev_mask : mask) : (bbox * mask) + exn :=
  let flow :=
    raft_optical_flow_api (reduce_img reduce_factor prev_img)
                          (reduce_img reduce_factor img) in
  let ref_mask := downsample_mask reduce_factor prev_mask in
  match propagation_bbox reduce_factor shrink ref_mask flow with
  | inr e => inr e
  | inl b => inl (b, largest_component (segment_api img b))
  end.

(** Frame [i] of a run was produced by the propagation step from frame
    [i - 1]: [b] is the box handed to the segmentation service. *)
Definition step_of_run (r : Z) (s : Q) (imgs : list image) (masks : list mask)
    (boxes : list bbox) (i : nat) : Prop :=
  exists prev_img img prev_mask b m,
    nth_error imgs (i - 1) = Some prev_img /\
    nth_error imgs i = Some img /\
    nth_error masks (i - 1) = Some prev_mask /\
    nth_error boxes (i - 1) = Some b /\
    nth_error masks i = Some m /\
    propagate_frame r s prev_img img prev_mask = inl (b, m).

(** Lines 110-148: [for i, frame in enumerate(self.frames)], from index [i]
    on.  [all] holds the picture of every frame ([Image.open] of its
    [image_path]), [masks] the list built so far and [boxes] the boxes handed
    to the segmentation service so far. *)
Fixpoint masking_loop (reduce_factor : Z) (shrink : Q) (all : list image)
    (i : nat) (todo : list image) (masks : list mask) (boxes : list bbox)
  : (list mask * list bbox) + exn :=
  match todo with
  | [] => inl (masks, boxes)
  | img :: todo' =>
      if Nat.eqb i 0 then
        let rembg_mask := segment_img img in
        let m := sam img rembg_mask in
        masking_loop reduce_factor shrink all (S i) todo' (masks ++ [m]) boxes
      else
        match nth_error all (i - 1), nth_error masks (i - 1) with
        | Some prev_img, Some prev_mask =>
            match propagate_frame reduce_factor shrink prev_img img prev_mask with
            | inr e => inr e
            | inl (b, m) =>
                masking_loop reduce_factor shrink all (S i) todo'
                             (masks ++ [m]) (boxes ++ [b])
            end
        | _, _ => inr IndexError
        end
  end.

(** The masking loop of [calculate_object_mask] over the pictures of the
    frames: the masks, and the boxes handed to the segmentation service. *)
Definition calculate_masks (reduce_factor : Z) (shrink : Q) (imgs : list image)
  : (list mask * list bbox) + exn :=
  masking_loop reduce_factor shrink imgs 0 imgs [] [].

(** Lines 165-189: the [if adjust_cameras:] stage, on the pictures and masks
    of the masking loop.  The outcome is the exception raised, if any, and
    the dataset as the stage leaves it (files written are not modelled). *)
Definition adjust_cameras_stage (masked_image_save_dir : string)
    (images : list image) (masks : list mask) (db : NuwaDB)
  : option exn * NuwaDB :=
  match normalize_cameras true 1 db with
  | (Some e, db1) => (Some e, db1)
  | (None, db1) =>
      let ks := map (fun f => intrinsic_matrix (camera f)) (frames db1) in
      let camera_poses := map pose (frames db1) in
      let camera_poses := scene_carving masks ks camera_poses in
      let '(images, ks, masks) := crop_images images masks ks in
      match images with
      | [] => (Some IndexError, db1)
      | img0 :: _ =>
          let (h0, w0) := shape img0 in
          let (r, fs) :=
            update_info masked_image_save_dir w0 h0 camera_poses ks 0 (frames db1) in
          (r, with_state db1 fs (colmap_reconstruction db1))
      end
  end.

End Masking.

End DB.

(** * pose_utils.py, continued: quaternions and rotation blocks *)
Module Rotations.

Import PoseUtils DB.
Local Open Scope R_scope.

(** [qvec2rotmat(qvec)]; [qvec[0]] .. [qvec[3]] are the four entries of a
    length-4 array. *)
Definition qvec2rotmat (qvec : vec4) : mat3 :=
  M3 (V3 (1 - 2 * v2 qvec ^ 2 - 2 * v3 qvec ^ 2)
         (2 * v1 qvec * v2 qvec - 2 * v0 qvec * v3 qvec)
         (2 * v3 qvec * v1 qvec + 2 * v0 qvec * v2 qvec))
     (V3 (2 * v1 qvec * v2 qvec + 2 * v0 qvec * v3 qvec)
         (1 - 2 * v1 qvec ^ 2 - 2 * v3 qvec ^ 2)
         (2 * v2 qvec * v3 qvec - 2 * v0 qvec * v1 qvec))
     (V3 (2 * v3 qvec * v1 qvec - 2 * v0 qvec * v2 qvec)
         (2 * v2 qvec * v3 qvec + 2 * v0 qvec * v1 qvec)
         (1 - 2 * v1 qvec ^ 2 - 2 * v2 qvec ^ 2)).

(** The transpose, the product, the identity and the determinant of 3x3
    arrays, in which the properties of rotations are stated. *)
Definition transpose3 (m : mat3) : mat3 :=
  M3 (V3 (vx (k_row0 m)) (vx (k_row1 m)) (vx (k_row2 m)))
     (V3 (vy (k_row0 m)) (vy (k_row1 m)) (vy (k_row2 m)))
     (V3 (vz (k_row0 m)) (vz (k_row1 m)) (vz (k_row2 m))).

Definition dot3 (a b : vec3) : R := vx a * vx b + vy a * vy b + vz a * vz b.

Definition row_times3 (r : vec3) (m : mat3) : vec3 :=
  let t := transpose3 m in
  V3 (dot3 r (k_row0 t)) (dot3 r (k_row1 t)) (dot3 r (k_row2 t)).

Definition matmul3 (a b : mat3) : mat3 :=
  M3 (row_times3 (k_row0 a) b) (row_times3 (k_row1 a) b) (row_times3 (k_row2 a) b).

Definition identity3 : mat3 := M3 (V3 1 0 0) (V3 0 1 0) (V3 0 0 1).

Definition det3 (m : mat3) : R :=
  let '(M3 (V3 a b c) (V3 d e f) (V3 g h i)) := m in
  a * (e * i - f * h) - b * (d * i - f * g) + c * (d * h - e * g).

(** A proper rotation: orthonormal with determinant 1. *)
Definition is_rotation (m : mat3) : Prop :=
  matmul3 (transpose3 m) m = identity3 /\ det3 m = 1.

(** [pose[:3, :3]]: the rotation block of a pose. *)
Definition rotation_block (p : mat4) : mat3 :=
  M3 (V3 (v0 (row0 p)) (v1 (row0 p)) (v2 (row0 p)))
     (V3 (v0 (row1 p)) (v1 (row1 p)) (v2 (row1 p)))
     (V3 (v0 (row2 p)) (v1 (row2 p)) (v2 (row2 p))).

(** The squared length of a quaternion. *)
Definition qnorm2 (q : vec4) : R := v0 q ^ 2 + v1 q ^ 2 + v2 q ^ 2 + v3 q ^ 2.

(** The opposite of a length-4 array, entry by entry. *)
Definition qneg (q : vec4) : vec4 := V4 (- v0 q) (- v1 q) (- v2 q) (- v3 q).

(** The rotation matrix of a quaternion with the constant 1 of its diagonal
    replaced by the squared length of the quaternion. *)
Definition homogeneous_rotmat (q : vec4) : mat3 :=
  let n := qnorm2 q in
  M3 (V3 (n - 2 * v2 q ^ 2 - 2 * v3 q ^ 2)
         (2 * v1 q * v2 q - 2 * v0 q * v3 q)
         (2 * v3 q * v1 q + 2 * v0 q * v2 q))
     (V3 (2 * v1 q * v2 q + 2 * v0 q * v3 q)
         (n - 2 * v1 q ^ 2 - 2 * v3 q ^ 2)
         (2 * v2 q * v3 q - 2 * v0 q * v1 q))
     (V3 (2 * v3 q * v1 q - 2 * v0 q * v2 q)
         (2 * v2 q * v3 q + 2 * v0 q * v1 q)
         (n - 2 * v1 q ^ 2 - 2 * v2 q ^ 2)).

(** A rigid camera-to-world transform: a proper rotation block over the
    bottom row (0, 0, 0, 1). *)
Definition is_rigid (p : mat4) : Prop :=
  is_rotation (rotation_block p) /\ row3 p = V4 0 0 0 1.

End Rotations.

(** * db.py, continued: the up direction *)
Module DBUp.

Import PoseUtils DB.
Local Open Scope R_scope.

Definition vadd (a b : vec3) : vec3 := V3 (vx a + vx b) (vy a + vy b) (vz a + vz b).

(** [up / n] for a scalar [n]. *)
Definition vdiv (a : vec3) (n : R) : vec3 := V3 (vx a / n) (vy a / n) (vz a / n).

(** [-f.pose[:3, 1]]: the opposite of the second column of the rotation
    block. *)
Definition neg_y_axis (p : mat4) : vec3 :=
  V3 (- v1 (row0 p)) (- v1 (row1 p)) (- v1 (row2 p)).

(** Distance between two points. *)
Definition dist3 (a b : vec3) : R := norm3 (vsub a b).

Section GetUp.

Context {colmap : Colmap}.

(** Lines 29-31 of [get_up]: [up] after the loop over the frames. *)
Definition up_sum (db : NuwaDB) : vec3 :=
  fold_left (fun up f => vadd up (neg_y_axis (pose f))) (frames db) (V3 0 0 0).

(** [NuwaDB.get_up()] *)
Definition get_up (db : NuwaDB) : vec3 :=
  let up := up_sum db in
  vdiv up (norm3 up).

End GetUp.

End DBUp.

(** * db.py, continued: the whole of calculate_object_mask *)
Module DBMask.

Import PoseUtils DB.

(** A box whose bounds are in order. *)
Definition box_ordered (b : bbox) : Prop :=
  let '(xmin, ymin, xmax, ymax) := b in (xmin <= xmax)%Z /\ (ymin <= ymax)%Z.


(** Python's [int(s)] on a string of decimal digits. *)
Definition parse_index (s : string) : option nat :=
  option_map Nat.of_uint (NilEmpty.uint_of_string s).

Fixpoint has_separator (p : string) : bool :=
  match p with
  | EmptyString => false
  | String c rest => Ascii.eqb c "/" || has_separator rest
  end.

(** [os.path.basename(p)]: what follows the last "/". *)
Fixpoint basename (p : string) : string :=
  match p with
  | EmptyString => EmptyString
  | String c rest =>
      if has_separator rest then basename rest
      else if Ascii.eqb c "/" then rest
      else p
  end.

Definition with_org_path (f : Frame) (path : string) : Frame :=
  {| image_path := image_path f; org_path := path;
     mask_path := mask_path f; pose := pose f; camera := camera f |}.

Definition with_mask_path (f : Frame) (path : string) : Frame :=
  {| image_path := image_path f; org_path := org_path f;
     mask_path := Some path; pose := pose f; camera := camera f |}.

(** Lines 151-158: what the [copy_org] loop writes into a frame (the files it
    saves are not modelled). *)
Definition relocate_org (masked_image_save_dir : string) (f : Frame) : Frame :=
  with_org_path f (path_join masked_image_save_dir (basename (org_path f))).

(** Lines 191-194: [for i, mask in enumerate(masks)], from index [i] on;
    [self.frames[i]] raises [IndexError] when the frames run out. *)
Fixpoint set_mask_paths (mask_save_dir : string) (i : nat) (masks : list mask)
    (fs : list Frame) : option exn * list Frame :=
  match masks with
  | [] => (None, fs)
  | _ :: masks' =>
      match fs with
      | [] => (Some IndexError, [])
      | f :: fs' =>
          let f := with_mask_path f (numbered_png mask_save_dir i) in
          let (r, fs'') := set_mask_paths mask_save_dir (S i) masks' fs' in
          (r, f :: fs'')
      end
  end.

Section WholeCall.

Context {colmap : Colmap} {vision : Vision}.

(** [Image.open]: the picture stored under a path. *)
Variable Image_open : string -> image.

(** [os.path.abspath], in the working directory of the process. *)
Variable abspath : string -> string.

(** [NuwaDB.calculate_object_mask]: the masking loop, the [copy_org] loop,
    the camera-adjustment stage and the final loop over the masks.  Lines
    107-108 replace the two directories by their absolute paths before any
    path is built from them; files written are not modelled.  The outcome is
    the list of masks returned or the exception raised, and the dataset as
    the call leaves it. *)
Definition calculate_object_mask (mask_save_dir masked_image_save_dir : string)
    (reduce_factor : Z) (shrink : Q) (adjust_cameras copy_org : bool) (db : NuwaDB)
  : (list mask + exn) * NuwaDB :=
  let mask_save_dir := abspath mask_save_dir in
  let masked_image_save_dir := abspath masked_image_save_dir in
  let images := map (fun f => Image_open (image_path f)) (frames db) in
  match calculate_masks reduce_factor shrink images with
  | inr e => (inr e, db)
  | inl (masks, _) =>
      let db :=
        if copy_org
        then with_state db (map (relocate_org masked_image_save_dir) (frames db))
                        (colmap_reconstruction db)
        else db in
      let '(r, masks, db) :=
        if adjust_cameras then
          match adjust_cameras_stage masked_image_save_dir images masks db with
          | (Some e, db') => (Some e, masks, db')
          | (None, db') =>
              let ks :=
                map (fun f => intrinsic_matrix (camera f))
                    (frames (snd (normalize_cameras true 1 db))) in
              let '(_, _, masks') := crop_images images masks ks in
              (None, masks', db')
          end
        else (None, masks, db) in
      match r with
      | Some e => (inr e, db)
      | None =>
          let (r', fs) := set_mask_paths mask_save_dir 0 masks (frames db) in
          let db := with_state db fs (colmap_reconstruction db) in
          match r' with
          | Some e => (inr e, db)
          | None => (inl masks, db)
          end
      end
  end.

End WholeCall.

End DBMask.

(** * Rounding to nearest in a binary floating-point format

    The roundings that the sample scenes below take for NumPy's: an
    executable definition over the rationals, and the proof that it is
    monotone and exact on small integers. *)
Module Binary.

(** [2 ** k] for an integer exponent. *)
Definition pow2 (k : Z) : Q := ((2 # 1) ^ k)%Q.

(** [floor(log2(q))] for a positive [q]. *)
Definition ilog2 (q : Q) : Z :=
  let k := (Z.log2 (Qnum q) - Z.log2 (Zpos (Qden q)))%Z in
  if Qle_bool (pow2 k) q then k else (k - 1)%Z.

(** The nearest integer, ties to the even one. *)
Definition rne (q : Q) : Z :=
  let f := Qfloor q in
  match (q - inject_Z f ?= 1 # 2)%Q with
  | Lt => f
  | Gt => (f + 1)%Z
  | Eq => if Z.even f then f else (f + 1)%Z
  end.

(** A positive number rounded to [p] significant bits. *)
Definition round_pos (p : Z) (q : Q) : Q :=
  let e := (ilog2 q - (p - 1))%Z in
  (inject_Z (rne (q / pow2 e)) * pow2 e)%Q.

(** Rounding to the nearest binary floating-point number with a significand
    of [p] bits, ties to even.  The exponent range of the format is not
    bounded: no overflow to infinity, no subnormal numbers. *)
Definition round_binary (p : Z) (q : Q) : Q :=
  match (q ?= 0)%Q with
  | Eq => 0%Q
  | Gt => round_pos p q
  | Lt => (- round_pos p (- q))%Q
  end.

(** IEEE 754 binary32 on numbers in its normal range. *)
Definition float32 : Q -> Q := round_binary 24.

End Binary.

Module BinarySpec.

Import DB Binary.

Lemma pow2_pos (k : Z) : (0 < pow2 k)%Q.
Proof. apply Qpower_0_lt. reflexivity. Qed.

Lemma pow2_add (a b : Z) : (pow2 (a + b) == pow2 a * pow2 b)%Q.
Proof. apply Qpower_plus. discriminate. Qed.

Lemma pow2_le (a b : Z) : (a <= b)%Z -> (pow2 a <= pow2 b)%Q.
Proof. intro H. apply Qpower_le_compat_l; [exact H | discriminate]. Qed.

Lemma pow2_lt_inv (a b : Z) : (pow2 a < pow2 b)%Q -> (a < b)%Z.
Proof. intro H. apply (Qpower_lt_compat_l_inv (2 # 1)); [exact H | reflexivity]. Qed.

Lemma pow2_inject (k : Z) : (0 <= k)%Z -> (inject_Z (2 ^ k) == pow2 k)%Q.
Proof. intro H. apply (Zpower_Qpower 2 k H). Qed.

Lemma pow2_split (a b : Z) : (pow2 a == pow2 (a - b) * pow2 b)%Q.
Proof. rewrite <- pow2_add. now replace (a - b + b)%Z with a by ring. Qed.

Lemma ilog2_spec (q : Q) :
  (0 < q)%Q -> (pow2 (ilog2 q) <= q)%Q /\ (q < pow2 (ilog2 q + 1))%Q.
Proof.
  intro Hq. destruct q as [a b].
  assert (Ha : (0 < a)%Z) by (unfold Qlt in Hq; simpl in Hq; lia).
  unfold ilog2. cbn [Qnum Qden].
  set (la := Z.log2 a). set (lb := Z.log2 (Zpos b)).
  destruct (Z.log2_spec a Ha) as [Ha1 Ha2]. fold la in Ha1, Ha2.
  destruct (Z.log2_spec (Zpos b) eq_refl) as [Hb1 Hb2]. fold lb in Hb1, Hb2.
  assert (Hla : (0 <= la)%Z) by apply Z.log2_nonneg.
  assert (Hlb : (0 <= lb)%Z) by apply Z.log2_nonneg.
  assert (HA1 : (pow2 la <= inject_Z a)%Q)
    by (rewrite <- pow2_inject by lia; now rewrite <- Zle_Qle).
  assert (HA2 : (inject_Z a < pow2 (la + 1))%Q).
  { rewrite <- pow2_inject by lia. rewrite <- Zlt_Qlt.
    now replace (la + 1)%Z with (Z.succ la) by lia. }
  assert (HB1 : (pow2 lb <= inject_Z (Zpos b))%Q)
    by (rewrite <- pow2_inject by lia; now rewrite <- Zle_Qle).
  assert (HB2 : (inject_Z (Zpos b) < pow2 (lb + 1))%Q).
  { rewrite <- pow2_inject by lia. rewrite <- Zlt_Qlt.
    now replace (lb + 1)%Z with (Z.succ lb) by lia. }
  assert (HB : (0 < inject_Z (Zpos b))%Q) by reflexivity.
  assert (Hhi : (a # b < pow2 (la - lb + 1))%Q).
  { rewrite (Qmake_Qdiv a b). apply Qlt_shift_div_r; [exact HB|].
    apply Qlt_le_trans with (pow2 (la + 1)); [exact HA2|].
    rewrite (pow2_split (la + 1) lb).
    replace (la + 1 - lb)%Z with (la - lb + 1)%Z by ring.
    apply Qmult_le_l; [apply pow2_pos | exact HB1]. }
  assert (Hlo : (pow2 (la - lb - 1) <= a # b)%Q).
  { rewrite (Qmake_Qdiv a b). apply Qle_shift_div_l; [exact HB|].
    apply Qle_trans with (pow2 la); [|exact HA1].
    rewrite (pow2_split la (lb + 1)).
    replace (la - (lb + 1))%Z with (la - lb - 1)%Z by ring.
    apply Qmult_le_l; [apply pow2_pos | apply Qlt_le_weak, HB2]. }
  destruct (Qle_bool (pow2 (la - lb)) (a # b)) eqn:E.
  - apply Qle_bool_iff in E. split; [exact E | exact Hhi].
  - split; [exact Hlo|].
    replace (la - lb - 1 + 1)%Z with (la - lb)%Z by ring.
    apply Qnot_le_lt. intro H. apply Qle_bool_iff in H. congruence.
Qed.

Lemma ilog2_unique (q : Q) (k : Z) :
  (pow2 k <= q)%Q -> (q < pow2 (k + 1))%Q -> ilog2 q = k.
Proof.
  intros Hlo Hhi.
  assert (Hq : (0 < q)%Q) by (apply Qlt_le_trans with (pow2 k); [apply pow2_pos | exact Hlo]).
  destruct (ilog2_spec q Hq) as [Hlo' Hhi'].
  assert (H1 : (ilog2 q < k + 1)%Z)
    by (apply pow2_lt_inv; eapply Qle_lt_trans; eassumption).
  assert (H2 : (k < ilog2 q + 1)%Z)
    by (apply pow2_lt_inv; eapply Qle_lt_trans; eassumption).
  lia.
Qed.

Lemma ilog2_mono (x y : Q) : (0 < x)%Q -> (x <= y)%Q -> (ilog2 x <= ilog2 y)%Z.
Proof.
  intros Hx Hxy.
  assert (Hy : (0 < y)%Q) by (eapply Qlt_le_trans; eassumption).
  destruct (ilog2_spec x Hx) as [Hlo _]. destruct (ilog2_spec y Hy) as [_ Hhi].
  assert (H : (ilog2 x < ilog2 y + 1)%Z).
  { apply pow2_lt_inv. eapply Qle_lt_trans; [exact Hlo|].
    eapply Qle_lt_trans; eassumption. }
  lia.
Qed.

(** ** The nearest integer *)

Lemma rne_proper (x y : Q) : (x == y)%Q -> rne x = rne y.
Proof.
  intro H. unfold rne. rewrite (Qfloor_comp x y H).
  now rewrite (Qcompare_comp (x - inject_Z (Qfloor y)) (y - inject_Z (Qfloor y))
                 ltac:(now rewrite H) (1 # 2) (1 # 2) ltac:(reflexivity)).
Qed.

Lemma rne_bounds (x : Q) : (Qfloor x <= rne x <= Qfloor x + 1)%Z.
Proof.
  unfold rne. destruct (Qcompare _ _); [destruct (Z.even _)| |]; lia.
Qed.

Lemma rne_inject (n : Z) : rne (inject_Z n) = n.
Proof.
  unfold rne. rewrite Qfloor_Z.
  assert (E : (inject_Z n - inject_Z n ?= 1 # 2)%Q = Lt).
  { apply Qlt_alt. setoid_replace (inject_Z n - inject_Z n)%Q with 0%Q by ring.
    reflexivity. }
  now rewrite E.
Qed.

Lemma floor_lt_int (x : Q) (n : Z) : (Qfloor x < n)%Z -> (x < inject_Z n)%Q.
Proof.
  intro H. apply Qlt_le_trans with (inject_Z (Qfloor x + 1)); [apply Qlt_floor|].
  rewrite <- Zle_Qle. lia.
Qed.

Lemma rne_le_int (x : Q) (n : Z) : (x <= inject_Z n)%Q -> (rne x <= n)%Z.
Proof.
  intro H. pose proof (Qfloor_resp_le _ _ H) as Hf. rewrite Qfloor_Z in Hf.
  destruct (Z.eq_dec (Qfloor x) n) as [E|Hne].
  - assert (Hx : (x == inject_Z n)%Q).
    { apply Qle_antisym; [exact H|]. rewrite <- E. apply Qfloor_le. }
    rewrite (rne_proper _ _ Hx), rne_inject. lia.
  - pose proof (rne_bounds x). lia.
Qed.

Lemma rne_ge_int (x : Q) (n : Z) : (inject_Z n <= x)%Q -> (n <= rne x)%Z.
Proof.
  intro H. pose proof (Qfloor_resp_le _ _ H) as Hf. rewrite Qfloor_Z in Hf.
  pose proof (rne_bounds x). lia.
Qed.

Lemma rne_mono (x y : Q) : (x <= y)%Q -> (rne x <= rne y)%Z.
Proof.
  intro H. pose proof (Qfloor_resp_le _ _ H) as Hf.
  destruct (Z.eq_dec (Qfloor x) (Qfloor y)) as [E|Hne].
  - unfold rne. rewrite E.
    destruct (Qcompare_spec (x - inject_Z (Qfloor y)) (1 # 2)) as [Ex|Ex|Ex];
      destruct (Qcompare_spec (y - inject_Z (Qfloor y)) (1 # 2)) as [Ey|Ey|Ey];
      try (destruct (Z.even (Qfloor y))); try lia; exfalso;
      revert H Ex Ey; generalize (inject_Z (Qfloor y)); intros; Lqa.lra.
  - pose proof (rne_bounds x). pose proof (rne_bounds y). lia.
Qed.

(** ** Rounding a positive number *)

Section Precision.

Variable p : Z.
Hypothesis p_pos : (1 <= p)%Z.

Lemma scaled_bounds (x : Q) :
  (0 < x)%Q ->
  let e := (ilog2 x - (p - 1))%Z in
  (pow2 (p - 1) <= x / pow2 e)%Q /\ (x / pow2 e < pow2 p)%Q.
Proof.
  intros Hx e. destruct (ilog2_spec x Hx) as [Hlo Hhi]. split.
  - apply Qle_shift_div_l; [apply pow2_pos|].
    rewrite <- pow2_add. unfold e.
    now replace (p - 1 + (ilog2 x - (p - 1)))%Z with (ilog2 x) by ring.
  - apply Qlt_shift_div_r; [apply pow2_pos|].
    rewrite <- pow2_add. unfold e.
    now replace (p + (ilog2 x - (p - 1)))%Z with (ilog2 x + 1)%Z by ring.
Qed.

Lemma round_pos_bounds (x : Q) :
  (0 < x)%Q ->
  (pow2 (ilog2 x) <= round_pos p x)%Q /\ (round_pos p x <= pow2 (ilog2 x + 1))%Q.
Proof.
  intro Hx. destruct (scaled_bounds x Hx) as [Hlo Hhi]. unfold round_pos.
  set (e := (ilog2 x - (p - 1))%Z) in *.
  rewrite <- (pow2_inject (p - 1)) in Hlo by lia.
  rewrite <- (pow2_inject p) in Hhi by lia.
  apply rne_ge_int in Hlo. apply Qlt_le_weak, rne_le_int in Hhi.
  split.
  - rewrite (pow2_split (ilog2 x) e).
    apply Qmult_le_compat_r; [|apply Qlt_le_weak, pow2_pos].
    replace (ilog2 x - e)%Z with (p - 1)%Z by (unfold e; ring).
    rewrite <- (pow2_inject (p - 1)) by lia. now rewrite <- Zle_Qle.
  - rewrite (pow2_split (ilog2 x + 1) e).
    apply Qmult_le_compat_r; [|apply Qlt_le_weak, pow2_pos].
    replace (ilog2 x + 1 - e)%Z with p by (unfold e; ring).
    rewrite <- (pow2_inject p) by lia. now rewrite <- Zle_Qle.
Qed.

Lemma round_pos_mono (x y : Q) :
  (0 < x)%Q -> (x <= y)%Q -> (round_pos p x <= round_pos p y)%Q.
Proof.
  intros Hx Hxy.
  assert (Hy : (0 < y)%Q) by (eapply Qlt_le_trans; eassumption).
  pose proof (ilog2_mono x y Hx Hxy) as Hlog.
  destruct (Z.eq_dec (ilog2 x) (ilog2 y)) as [E|Hne].
  - unfold round_pos. rewrite E.
    apply Qmult_le_compat_r; [|apply Qlt_le_weak, pow2_pos].
    rewrite <- Zle_Qle. apply rne_mono.
    apply Qmult_le_compat_r; [exact Hxy|].
    apply Qlt_le_weak, Qinv_lt_0_compat, pow2_pos.
  - destruct (round_pos_bounds x Hx) as [_ Hhi].
    destruct (round_pos_bounds y Hy) as [Hlo _].
    apply Qle_trans with (pow2 (ilog2 x + 1)); [exact Hhi|].
    apply Qle_trans with (pow2 (ilog2 y)); [|exact Hlo].
    apply pow2_le. lia.
Qed.

Lemma round_pos_nonneg (x : Q) : (0 < x)%Q -> (0 <= round_pos p x)%Q.
Proof.
  intro Hx. destruct (round_pos_bounds x Hx) as [Hlo _].
  apply Qle_trans with (pow2 (ilog2 x)); [apply Qlt_le_weak, pow2_pos | exact Hlo].
Qed.

(** A positive integer below [2 ** p] is a floating-point number. *)
Lemma round_pos_integer (n : Z) :
  (0 < n < 2 ^ p)%Z -> (round_pos p (inject_Z n) == inject_Z n)%Q.
Proof.
  intros [Hn Hlt].
  assert (Hq : (0 < inject_Z n)%Q) by (change 0%Q with (inject_Z 0); now rewrite <- Zlt_Qlt).
  destruct (ilog2_spec _ Hq) as [Hlo _].
  assert (Hlog : (ilog2 (inject_Z n) <= p - 1)%Z).
  { assert (H : (ilog2 (inject_Z n) < p)%Z); [|lia].
    apply pow2_lt_inv. eapply Qle_lt_trans; [exact Hlo|].
    rewrite <- pow2_inject by lia. now rewrite <- Zlt_Qlt. }
  unfold round_pos. set (e := (ilog2 (inject_Z n) - (p - 1))%Z).
  assert (He : (0 <= - e)%Z) by (unfold e; lia).
  assert (Hdiv : (inject_Z n / pow2 e == inject_Z (n * 2 ^ (- e)))%Q).
  { rewrite inject_Z_mult, pow2_inject by exact He.
    unfold pow2 at 2. rewrite Qpower_opp. fold (pow2 e). reflexivity. }
  rewrite (rne_proper _ _ Hdiv), rne_inject, <- Hdiv.
  field. apply Qnot_eq_sym, Qlt_not_eq, pow2_pos.
Qed.

Lemma round_binary_mono (x y : Q) :
  (x <= y)%Q -> (round_binary p x <= round_binary p y)%Q.
Proof.
  intro H. unfold round_binary.
  destruct (Qcompare_spec x 0) as [Ex|Ex|Ex];
    destruct (Qcompare_spec y 0) as [Ey|Ey|Ey].
  - apply Qle_refl.
  - exfalso. Lqa.lra.
  - now apply round_pos_nonneg.
  - apply (Qopp_le_compat 0). apply round_pos_nonneg. Lqa.lra.
  - apply Qopp_le_compat. apply round_pos_mono; Lqa.lra.
  - apply Qle_trans with 0%Q.
    + apply (Qopp_le_compat 0). apply round_pos_nonneg. Lqa.lra.
    + now apply round_pos_nonneg.
  - exfalso. Lqa.lra.
  - exfalso. Lqa.lra.
  - now apply round_pos_mono.
Qed.

Lemma round_binary_integer (n : Z) :
  (Z.abs n < 2 ^ p)%Z -> (round_binary p (inject_Z n) == inject_Z n)%Q.
Proof.
  intro Hn. unfold round_binary.
  destruct (Qcompare_spec (inject_Z n) 0) as [E|E|E].
  - now rewrite E.
  - change 0%Q with (inject_Z 0) in E. rewrite <- Zlt_Qlt in E.
    rewrite <- inject_Z_opp, round_pos_integer by lia.
    rewrite inject_Z_opp. ring.
  - change 0%Q with (inject_Z 0) in E. rewrite <- Zlt_Qlt in E.
    apply round_pos_integer. lia.
Qed.

End Precision.

(** Rounding to at least 24 significant bits is a rounding to nearest in the
    sense of [to_nearest]. *)
Lemma round_binary_nearest (p : Z) : (24 <= p)%Z -> to_nearest (round_binary p).
Proof.
  intro Hp. split.
  - apply round_binary_mono. lia.
  - intros n Hn. apply round_binary_integer; [lia|].
    apply Z.lt_le_trans with (2 ^ 24)%Z; [exact Hn|].
    apply Z.pow_le_mono_r; lia.
Qed.

Lemma float32_nearest : to_nearest float32.
Proof. apply round_binary_nearest. lia. Qed.

End BinarySpec.

(** * Concrete collaborators and datasets

    Instances of the collaborator interfaces and small datasets on which the
    definitions above are run. *)
Module Samples.

Import PoseUtils DB Binary BinarySpec.

Definition ceil_div (n k : nat) : nat := (n + k - 1) / k.

(** Mean of a block of pixel values, rounded to nearest. *)
Definition block_avg (vals : list Z) : Z :=
  let n := Z.of_nat (List.length vals) in
  ((fold_right Z.add 0 vals + n / 2) / n)%Z.

(** Pillow's [Image.reduce(factor)] on a [uint8] picture: every output pixel
    is the mean of a factor-by-factor block (a smaller block at the right and
    bottom borders); the output size is rounded up. *)
Definition pil_reduce (factor : Z) (g : gray) : gray :=
  let k := Z.to_nat factor in
  let rows := List.length g in
  let cols := List.length (hd [] g) in
  map (fun Y =>
         map (fun X =>
                block_avg
                  (flat_map (fun row => firstn k (skipn (X * k) row))
                            (firstn k (skipn (Y * k) g))))
             (seq 0 (ceil_div cols k)))
      (seq 0 (ceil_div rows k)).

(** A picture known by its size only: (rows, columns). *)
Definition sized_image : Type := (nat * nat)%type.

Definition count_true (m : list (list Z)) : Z :=
  fold_right Z.add 0%Z (map (fold_right Z.add 0%Z) m).

(** Labelling of a 0/1 picture whose foreground, if any, is one connected
    region: the foreground is component 1. *)
Definition label_connected (g : gray) : list (list Z) * list cc_stat :=
  let area := count_true g in
  let rows := Z.of_nat (List.length g) in
  let cols := Z.of_nat (List.length (hd [] g)) in
  let background := mkStat 0 0 cols rows (rows * cols - area) in
  if (0 <? area)%Z
  then (g, [background; mkStat 0 0 cols rows area])
  else (g, [background]).

Definition pinhole_matrix (c : Camera) : mat3 :=
  M3 (V3 (fx c) 0 (cx c)) (V3 0 (fy c) (cy c)) (V3 0 0 1).

(** A scene in which every pixel moves by the same displacement [d], the
    first frame is segmented as [first], the box-prompted service answers
    [later], and carving and cropping change nothing.  The flow field is
    float32 and NumPy keeps float32 throughout (the promotion rules of
    NumPy 2). *)
Definition uniform_scene (d : Q * Q) (first later : sized_image -> mask) : Vision :=
  {| image := sized_image;
     shape := fun img => (Z.of_nat (fst img), Z.of_nat (snd img));
     segment_img := first;
     sam := fun _ m => m;
     reduce_img := fun k img =>
       (ceil_div (fst img) (Z.to_nat k), ceil_div (snd img) (Z.to_nat k));
     reduce_gray := pil_reduce;
     raft_optical_flow_api := fun a _ => repeat (repeat d (snd a)) (fst a);
     segment_api := fun img _ => later img;
     connectedComponentsWithStats := label_connected;
     intrinsic_matrix := pinhole_matrix;
     scene_carving := fun _ _ poses => poses;
     crop_images := fun images masks ks => (images, ks, masks);
     astype_float32 := float32;
     round_array := float32;
     round_scalar := float32;
     astype_float32_nearest := float32_nearest;
     round_array_nearest := float32_nearest;
     round_scalar_nearest := float32_nearest |}.

Definition whole_image (img : sized_image) : mask := full_mask (fst img) (snd img).

Definition nothing (img : sized_image) : mask :=
  repeat (repeat false (snd img)) (fst img).

(** Zero flow, the segmentation services answer the whole picture. *)
Definition still_scene : Vision := uniform_scene (0, 0)%Q whole_image whole_image.

(** Every pixel moves ten columns to the right. *)
Definition sliding_scene : Vision := uniform_scene (10, 0)%Q whole_image whole_image.

(** Zero flow; the first frame is all foreground, the box-prompted service
    finds nothing afterwards. *)
Definition fading_scene : Vision := uniform_scene (0, 0)%Q whole_image nothing.

(** Zero flow; nothing is found in the first frame. *)
Definition blank_scene : Vision := uniform_scene (0, 0)%Q nothing whole_image.

(** A reconstruction kept as its list of 3-D points. *)
Definition point_cloud : Colmap :=
  {| Reconstruction := list vec3;
     world_translate := fun t =>
       map (fun p => V3 (vx p + vx t) (vy p + vy t) (vz p + vz t))%R;
     world_scale := fun s => map (vscale s) |}.

Local Open Scope R_scope.

(** The identity rotation at centre (x, y, z). *)
Definition pose_at (x y z : R) : mat4 :=
  M4 (V4 1 0 0 x) (V4 0 1 0 y) (V4 0 0 1 z) (V4 0 0 0 1).

Definition frame_at (model path : string) (x y z : R) : Frame :=
  {| image_path := path; org_path := path; mask_path := None;
     pose := pose_at x y z;
     camera := mkCamera model 4 4 1 1 2 2 |}.

(** Three pinhole cameras, two of them at the origin. *)
Definition three_cameras : @NuwaDB point_cloud :=
  @mkDB point_cloud "colmap"
        [frame_at "PINHOLE" "/in/a.png" 0 0 0;
         frame_at "PINHOLE" "/in/b.png" 0 0 0;
         frame_at "PINHOLE" "/in/c.png" 2 0 0]
        (Some []).

(** One camera. *)
Definition one_camera : @NuwaDB point_cloud :=
  @mkDB point_cloud "colmap" [frame_at "PINHOLE" "/in/a.png" 1 2 3] (Some []).

(** Two cameras and no sparse reconstruction attached. *)
Definition no_reconstruction : @NuwaDB point_cloud :=
  @mkDB point_cloud ""
        [frame_at "PINHOLE" "/in/a.png" 0 0 0;
         frame_at "PINHOLE" "/in/b.png" 2 0 0]
        None.

(** Two cameras, the second one with a distortion model. *)
Definition mixed_models : @NuwaDB point_cloud :=
  @mkDB point_cloud "colmap"
        [frame_at "PINHOLE" "/in/a.png" 0 0 0;
         frame_at "OPENCV" "/in/b.png" 2 0 0]
        (Some []).

(** The pictures and masks of two frames. *)
Definition two_pictures : list sized_image := [(4, 4); (4, 4)]%nat.

Definition two_masks : list mask := [full_mask 4 4; full_mask 4 4].

(** The pictures of three frames. *)
Definition three_pictures : list sized_image := [(4, 4); (4, 4); (4, 4)]%nat.

End Samples.

(** * Further concrete data *)
Module MoreSamples.

Import DB Samples.

(** A dataset with no frame. *)
Definition no_frames : @NuwaDB point_cloud := @mkDB point_cloud "" [] (Some []).

(** A file system in which every path holds a 4x4 picture. *)
Definition four_by_four (path : string) : sized_image := (4, 4)%nat.

(** [os.path.abspath] in the working directory [cwd], on non-empty paths
    without ".", "..", a doubled or a trailing separator (which it would
    remove): an absolute path is kept, a relative one is joined to [cwd]. *)
Definition abspath_in (cwd p : string) : string :=
  match p with
  | String "/"%char _ => p
  | _ => path_join cwd p
  end.

End MoreSamples.

(** * Properties of pose_utils.py *)
Module PoseUtilsSpec.

Import PoseUtils.
Local Open Scope R_scope.

Lemma vec4_eq (a b : vec4) :
  v0 a = v0 b -> v1 a = v1 b -> v2 a = v2 b -> v3 a = v3 b -> a = b.
Proof.
  destruct a, b; simpl; intros; subst; reflexivity.
Qed.

Lemma mat4_eq (a b : mat4) :
  row0 a = row0 b -> row1 a = row1 b -> row2 a = row2 b -> row3 a = row3 b ->
  a = b.
Proof.
  destruct a, b; simpl; intros; subst; reflexivity.
Qed.

Ltac mat4_unfold :=
  cbv [matmul row_times dot4 col0 col1 col2 col3 flip_yz rot90
       v0 v1 v2 v3 row0 row1 row2 row3
       new_pose_matrix nfx nfy ncx ncy].

Ltac mat4_ring :=
  apply mat4_eq; apply vec4_eq; mat4_unfold; ring.

Lemma flip_yz_involutive (p : mat4) : p @@ flip_yz @@ flip_yz = p.
Proof. mat4_ring. Qed.

Lemma rot90_order_four (p : mat4) : p @@ rot90 @@ rot90 @@ rot90 @@ rot90 = p.
Proof. mat4_ring. Qed.

(** C6: the cv->gl->cv round trip is the identity on every pose; a
    conversion between accepted conventions that agree once "blender" is read
    as "gl" returns the pose unchanged; and cv->gl and gl->cv are the same
    right-multiplication by diag(1,-1,-1,1). *)
Theorem convert_camera_pose_round_trip :
  forall P : mat4,
    (exists Q : mat4,
        convert_camera_pose P "cv" "gl" = inl Q /\
        convert_camera_pose Q "gl" "cv" = inl P) /\
    (forall a b : string,
        accepted a = true -> accepted b = true ->
        unblender a = unblender b ->
        convert_camera_pose P a b = inl P) /\
    convert_camera_pose P "cv" "gl" = inl (P @@ flip_yz) /\
    convert_camera_pose P "gl" "cv" = inl (P @@ flip_yz) /\
    flip_yz = M4 (V4 1 0 0 0) (V4 0 (-1) 0 0) (V4 0 0 (-1) 0) (V4 0 0 0 1).
Proof.
  intro P. split; [|split; [|repeat split]].
  - exists (P @@ flip_yz). split; [reflexivity|].
    unfold convert_camera_pose; simpl.
    now rewrite flip_yz_involutive.
  - intros a b Ha Hb Hab.
    unfold convert_camera_pose.
    rewrite Ha, Hb; simpl.
    rewrite Hab, String.eqb_refl. reflexivity.
Qed.

(** C7: four successive applications of [get_rot90_camera_matrices], each
    fed the outputs of the previous one and the current image height (h, w,
    h, w for a w-by-h image), give back the original pose and intrinsics. *)
Theorem rot90_four_times :
  forall (pose : mat4) (fx fy cx cy w h : R),
    let r1 := get_rot90_camera_matrices pose fx fy cx cy h in
    let r2 := rot90_again r1 w in
    let r3 := rot90_again r2 h in
    let r4 := rot90_again r3 w in
    r4 = Rot90Result pose fx fy cx cy.
Proof.
  intros pose fx fy cx cy w h. cbv zeta.
  unfold rot90_again, get_rot90_camera_matrices; cbn [new_pose_matrix nfx nfy ncx ncy].
  rewrite rot90_order_four.
  f_equal; ring.
Qed.

(** C9: [get_rot90_camera_matrices] leaves the third column (viewing axis)
    and the fourth column (camera centre) of the pose as they were. *)
Theorem rot90_keeps_axis_and_center :
  forall (pose : mat4) (fx fy cx cy h : R),
    let p' := new_pose_matrix (get_rot90_camera_matrices pose fx fy cx cy h) in
    col2 p' = col2 pose /\ col3 p' = col3 pose.
Proof.
  intros pose fx fy cx cy h; cbv zeta.
  unfold get_rot90_camera_matrices.
  split; apply vec4_eq; mat4_unfold; ring.
Qed.

End PoseUtilsSpec.

(** * Properties of NuwaDB.normalize_cameras *)
Module NormalizeSpec.

Import PoseUtils DB.
Local Open Scope R_scope.

(** ** Extremes of a list of reals *)

Lemma Rmin_list_in (x : R) (xs : list R) : In (Rmin_list x xs) (x :: xs).
Proof.
  revert x; induction xs as [|y ys IH]; intro x.
  - now left.
  - cbn [Rmin_list]. unfold Rmin. destruct (Rle_dec x (Rmin_list y ys)).
    + now left.
    + right. apply IH.
Qed.

Lemma Rmin_list_le (x : R) (xs : list R) (e : R) :
  In e (x :: xs) -> Rmin_list x xs <= e.
Proof.
  revert x; induction xs as [|y ys IH]; intros x Hin; simpl.
  - destruct Hin as [<-|[]]. lra.
  - destruct Hin as [<-|Hin].
    + apply Rmin_l.
    + apply Rle_trans with (Rmin_list y ys); [apply Rmin_r | now apply IH].
Qed.

Lemma Rmax_list_in (x : R) (xs : list R) : In (Rmax_list x xs) (x :: xs).
Proof.
  revert x; induction xs as [|y ys IH]; intro x.
  - now left.
  - cbn [Rmax_list]. unfold Rmax. destruct (Rle_dec x (Rmax_list y ys)).
    + right. apply IH.
    + now left.
Qed.

Lemma Rmax_list_ge (x : R) (xs : list R) (e : R) :
  In e (x :: xs) -> e <= Rmax_list x xs.
Proof.
  revert x; induction xs as [|y ys IH]; intros x Hin; simpl.
  - destruct Hin as [<-|[]]. lra.
  - destruct Hin as [<-|Hin].
    + apply Rmax_l.
    + apply Rle_trans with (Rmax_list y ys); [now apply IH | apply Rmax_r].
Qed.

Lemma Rmin_list_unique (x : R) (xs : list R) (m : R) :
  In m (x :: xs) -> (forall e, In e (x :: xs) -> m <= e) -> Rmin_list x xs = m.
Proof.
  intros Hin Hle. apply Rle_antisym.
  - now apply Rmin_list_le.
  - apply Hle, Rmin_list_in.
Qed.

Lemma Rmax_list_unique (x : R) (xs : list R) (m : R) :
  In m (x :: xs) -> (forall e, In e (x :: xs) -> e <= m) -> Rmax_list x xs = m.
Proof.
  intros Hin Hle. apply Rle_antisym.
  - apply Hle, Rmax_list_in.
  - now apply Rmax_list_ge.
Qed.

(** A nondecreasing map commutes with the extremes. *)
Lemma Rmin_list_map (f : R -> R) (x : R) (xs : list R) :
  (forall a b, a <= b -> f a <= f b) ->
  Rmin_list (f x) (map f xs) = f (Rmin_list x xs).
Proof.
  intro Hf. apply Rmin_list_unique.
  - change (f x :: map f xs) with (map f (x :: xs)).
    apply in_map, Rmin_list_in.
  - intros e He. change (f x :: map f xs) with (map f (x :: xs)) in He.
    apply in_map_iff in He as (a & <- & Ha).
    apply Hf. now apply Rmin_list_le.
Qed.

Lemma Rmax_list_map (f : R -> R) (x : R) (xs : list R) :
  (forall a b, a <= b -> f a <= f b) ->
  Rmax_list (f x) (map f xs) = f (Rmax_list x xs).
Proof.
  intro Hf. apply Rmax_list_unique.
  - change (f x :: map f xs) with (map f (x :: xs)).
    apply in_map, Rmax_list_in.
  - intros e He. change (f x :: map f xs) with (map f (x :: xs)) in He.
    apply in_map_iff in He as (a & <- & Ha).
    apply Hf. now apply Rmax_list_ge.
Qed.

Lemma np_min_map (f : R -> R) (l : list R) (m : R) :
  (forall a b, a <= b -> f a <= f b) ->
  np_min l = Some m -> np_min (map f l) = Some (f m).
Proof.
  intros Hf. destruct l as [|x xs]; simpl; [discriminate|].
  intros [= <-]. now rewrite Rmin_list_map.
Qed.

Lemma np_max_map (f : R -> R) (l : list R) (m : R) :
  (forall a b, a <= b -> f a <= f b) ->
  np_max l = Some m -> np_max (map f l) = Some (f m).
Proof.
  intros Hf. destruct l as [|x xs]; simpl; [discriminate|].
  intros [= <-]. now rewrite Rmax_list_map.
Qed.

Lemma np_max_ge (l : list R) (m e : R) :
  np_max l = Some m -> In e l -> e <= m.
Proof.
  destruct l as [|x xs]; simpl; [discriminate|].
  intros [= <-] Hin. now apply Rmax_list_ge.
Qed.

Lemma np_max_in (l : list R) (m : R) : np_max l = Some m -> In m l.
Proof.
  destruct l as [|x xs]; simpl; [discriminate|].
  intros [= <-]. apply Rmax_list_in.
Qed.

Lemma np_min_in (l : list R) (m : R) : np_min l = Some m -> In m l.
Proof.
  destruct l as [|x xs]; simpl; [discriminate|].
  intros [= <-]. apply Rmin_list_in.
Qed.

Lemma np_min_le (l : list R) (m e : R) :
  np_min l = Some m -> In e l -> m <= e.
Proof.
  destruct l as [|x xs]; simpl; [discriminate|].
  intros [= <-] Hin. now apply Rmin_list_le.
Qed.

(** ** Vectors and poses *)

Lemma center_set_center (p : mat4) (c : vec3) : center (set_center p c) = c.
Proof. now destruct c. Qed.

Lemma set_center_twice (p : mat4) (c d : vec3) :
  set_center (set_center p c) d = set_center p d.
Proof. reflexivity. Qed.

Lemma norm3_nonneg (v : vec3) : 0 <= norm3 v.
Proof. apply sqrt_pos. Qed.

Lemma norm3_zero (v : vec3) : norm3 v = 0 -> v = V3 0 0 0.
Proof.
  destruct v as [x y z]; unfold norm3; simpl; intro H.
  apply sqrt_eq_0 in H; [|nra].
  assert (x = 0) by nra. assert (y = 0) by nra. assert (z = 0) by nra.
  now subst.
Qed.

Lemma norm3_vscale (k : R) (v : vec3) : 0 <= k -> norm3 (vscale k v) = k * norm3 v.
Proof.
  intro Hk. destruct v as [x y z]; unfold norm3, vscale; simpl.
  replace (x * k * (x * k) + y * k * (y * k) + z * k * (z * k))
    with (k * k * (x * x + y * y + z * z)) by ring.
  rewrite sqrt_mult_alt by nra.
  now rewrite sqrt_square.
Qed.

Lemma write_poses_map (g : mat4 -> mat4) (fs : list Frame) :
  write_poses fs (map g (map pose fs)) = map (fun f => with_pose f (g (pose f))) fs.
Proof.
  induction fs as [|f fs IH]; simpl; [reflexivity|]. now rewrite IH.
Qed.


Section WithReconstruction.

Context {colmap : Colmap}.

Lemma extremes_cons (c : vec3) (cs : list vec3) :
  exists lo hi,
    extremes (c :: cs) = Some (lo, hi) /\
    np_min (map vx (c :: cs)) = Some (vx lo) /\
    np_max (map vx (c :: cs)) = Some (vx hi) /\
    np_min (map vy (c :: cs)) = Some (vy lo) /\
    np_max (map vy (c :: cs)) = Some (vy hi) /\
    np_min (map vz (c :: cs)) = Some (vz lo) /\
    np_max (map vz (c :: cs)) = Some (vz hi).
Proof.
  unfold extremes; simpl. eexists; eexists. repeat split; reflexivity.
Qed.

(** With a reconstruction attached and at least one frame, the call runs to
    its end, whatever the centres are. *)
Lemma normalize_cameras_runs (positive_z : bool) (s : R) (db : NuwaDB)
    (rc : Reconstruction) :
  colmap_reconstruction db = Some rc ->
  frames db <> [] ->
  exists off m,
    db_offset positive_z db = Some off /\
    db_centered_max_norm positive_z db = Some m /\
    normalize_cameras positive_z s db =
      (None,
       with_state db (map (normalized_frame off (s / m)) (frames db))
                  (Some (world_scale (s / m) (world_translate (vneg off) rc)))).
Proof.
  intros Hrc Hfs.
  unfold normalize_cameras, db_centered_max_norm, db_offset, db_centers.
  destruct (frames db) as [|f fs] eqn:Efs; [congruence|].
  destruct (extremes_cons (center (pose f)) (centers_of (map pose fs)))
    as (lo & hi & Hext & _).
  change (centers_of (map pose (f :: fs)))
    with (center (pose f) :: centers_of (map pose fs)).
  rewrite Hext, Hrc.
  set (off := offset_of positive_z lo hi).
  exists off.
  destruct (max_center_norm (translate_poses off (map pose (f :: fs)))) as [m|] eqn:Em;
    [|discriminate Em].
  exists m. repeat split.
  unfold scale_poses, translate_poses. rewrite map_map, write_poses_map.
  reflexivity.
Qed.

Lemma db_centers_normalized (off : vec3) (k : R) (fs : list Frame) :
  centers_of (map pose (map (normalized_frame off k) fs)) =
  map (fun c => vscale k (vsub c off)) (centers_of (map pose fs)).
Proof.
  unfold centers_of. rewrite !map_map. apply map_ext. reflexivity.
Qed.

Lemma centered_norms (off : vec3) (fs : list Frame) :
  map norm3 (centers_of (translate_poses off (map pose fs))) =
  map (fun c => norm3 (vsub c off)) (centers_of (map pose fs)).
Proof.
  unfold centers_of, translate_poses. rewrite !map_map. apply map_ext. reflexivity.
Qed.

(** The offset is the centre of the bounding box in x and y. *)
Lemma db_offset_xy (positive_z : bool) (db : NuwaDB) (off : vec3) :
  db_offset positive_z db = Some off ->
  exists xm xM ym yM,
    np_min (map vx (db_centers db)) = Some xm /\
    np_max (map vx (db_centers db)) = Some xM /\
    np_min (map vy (db_centers db)) = Some ym /\
    np_max (map vy (db_centers db)) = Some yM /\
    vx off = (xm + xM) / 2 /\ vy off = (ym + yM) / 2.
Proof.
  unfold db_offset. destruct (db_centers db) as [|c cs]; [discriminate|].
  destruct (extremes_cons c cs) as (lo & hi & -> & Hx & HX & Hy & HY & _).
  intros [= <-]. exists (vx lo), (vx hi), (vy lo), (vy hi).
  rewrite Hx, HX, Hy, HY. repeat split; now destruct positive_z.
Qed.

(** If two centres differ, the largest centred norm is positive. *)
Lemma centered_max_norm_pos (positive_z : bool) (db : NuwaDB) (m : R) :
  db_centered_max_norm positive_z db = Some m ->
  (exists f g, In f (frames db) /\ In g (frames db) /\
               center (pose f) <> center (pose g)) ->
  0 < m.
Proof.
  unfold db_centered_max_norm. destruct (db_offset positive_z db) as [off|]; [|discriminate].
  unfold max_center_norm. rewrite centered_norms.
  intros Hm (f & g & Hf & Hg & Hne).
  assert (Hbound : forall f', In f' (frames db) -> norm3 (vsub (center (pose f')) off) <= m).
  { intros f' Hf'. apply (np_max_ge _ _ _ Hm).
    unfold centers_of. rewrite !map_map.
    apply (in_map (fun x => norm3 (vsub (center (pose x)) off))), Hf'. }
  destruct (Rle_lt_dec m 0) as [Hle|Hlt]; [|exact Hlt].
  exfalso. apply Hne.
  assert (Hz : forall f', In f' (frames db) -> center (pose f') = off).
  { intros f' Hf'. pose proof (Hbound f' Hf') as Hb.
    pose proof (norm3_nonneg (vsub (center (pose f')) off)) as Hn.
    assert (E : norm3 (vsub (center (pose f')) off) = 0) by lra.
    apply norm3_zero in E.
    destruct (center (pose f')) as [x y z], off as [a b c].
    unfold vsub in E; simpl in E. injection E as Ex Ey Ez.
    f_equal; lra. }
  now rewrite (Hz f Hf), (Hz g Hg).
Qed.

(** If all centres are one point, the largest centred norm is zero. *)
Lemma centered_max_norm_zero (positive_z : bool) (db : NuwaDB) (m : R) :
  db_centered_max_norm positive_z db = Some m ->
  (forall f g, In f (frames db) -> In g (frames db) ->
               center (pose f) = center (pose g)) ->
  m = 0.
Proof.
  unfold db_centered_max_norm.
  destruct (db_offset positive_z db) as [off|] eqn:Eoff; [|discriminate].
  unfold max_center_norm. rewrite centered_norms.
  intros Hm Hsame.
  apply np_max_in in Hm.
  unfold centers_of in Hm. rewrite !map_map in Hm.
  apply in_map_iff in Hm as (f & <- & Hf).
  assert (Hall : forall e, In e (db_centers db) -> e = center (pose f)).
  { intros e He. unfold db_centers, centers_of in He. rewrite map_map in He.
    apply in_map_iff in He as (g & <- & Hg). now apply Hsame. }
  unfold db_offset in Eoff.
  destruct (db_centers db) as [|c cs] eqn:Ecs; [discriminate|].
  destruct (extremes_cons c cs) as (lo & hi & Hext & Hx & HX & Hy & HY & Hz & HZ).
  rewrite Hext in Eoff. injection Eoff as <-.
  assert (Hcoord : forall (p : vec3 -> R) (v : R),
             In v (map p (c :: cs)) -> v = p (center (pose f))).
  { intros p v Hv. apply in_map_iff in Hv as (e & <- & He). now rewrite (Hall e He). }
  pose proof (Hcoord vx _ (np_min_in _ _ Hx)) as Ex.
  pose proof (Hcoord vx _ (np_max_in _ _ HX)) as EX.
  pose proof (Hcoord vy _ (np_min_in _ _ Hy)) as Ey.
  pose proof (Hcoord vy _ (np_max_in _ _ HY)) as EY.
  pose proof (Hcoord vz _ (np_min_in _ _ Hz)) as Ez.
  pose proof (Hcoord vz _ (np_max_in _ _ HZ)) as EZ.
  unfold norm3, vsub, offset_of.
  destruct positive_z; cbn [vx vy vz]; rewrite ?Ex, ?EX, ?Ey, ?EY, ?Ez, ?EZ;
    match goal with |- sqrt ?a = 0 => replace a with 0 by field end;
    apply sqrt_0.
Qed.


(** Without a reconstruction the call raises at [world_translate], before
    anything is written. *)
Lemma normalize_cameras_without_reconstruction (positive_z : bool) (s : R)
    (db : NuwaDB) :
  colmap_reconstruction db = None ->
  frames db <> [] ->
  normalize_cameras positive_z s db = (Some AttributeError, db).
Proof.
  intros Hrc Hfs. unfold normalize_cameras.
  destruct (frames db) as [|f fs]; [congruence|].
  destruct (extremes_cons (center (pose f)) (centers_of (map pose fs)))
    as (lo & hi & Hext & _).
  change (centers_of (map pose (f :: fs)))
    with (center (pose f) :: centers_of (map pose fs)).
  now rewrite Hext, Hrc.
Qed.

(** C2 (amended): with a reconstruction attached, a positive scale factor s
    and two camera centres that differ, [normalize_cameras] returns; the
    largest norm of the updated centres is exactly s, every updated centre
    lies within radius s, and the centre of the bounding box of the updated
    centres (the midpoint of the extremes, not the mean) has zero x and y. *)
Theorem normalize_cameras_scale_invariant :
  forall (positive_z : bool) (s : R) (db : NuwaDB) (rc : Reconstruction),
    colmap_reconstruction db = Some rc ->
    0 < s ->
    (exists f g, In f (frames db) /\ In g (frames db) /\
                 center (pose f) <> center (pose g)) ->
    exists db',
      normalize_cameras positive_z s db = (None, db') /\
      np_max (map norm3 (db_centers db')) = Some s /\
      (forall c, In c (db_centers db') -> norm3 c <= s) /\
      midpoint (map vx (db_centers db')) = Some 0 /\
      midpoint (map vy (db_centers db')) = Some 0.
Proof.
  intros positive_z s db rc Hrc Hs Hdiff.
  assert (Hfs : frames db <> []).
  { destruct Hdiff as (f & _ & Hf & _). intro E. now rewrite E in Hf. }
  destruct (normalize_cameras_runs positive_z s db rc Hrc Hfs)
    as (off & m & Hoff & Hm & Hrun).
  pose proof (centered_max_norm_pos positive_z db m Hm Hdiff) as Hmpos.
  set (k := s / m) in *.
  assert (Hk : 0 < k) by (apply Rdiv_lt_0_compat; assumption).
  eexists. split; [exact Hrun|].
  unfold db_centers; cbn [frames with_state].
  rewrite db_centers_normalized.
  fold (db_centers db).
  assert (Hmax : np_max (map norm3 (map (fun c => vscale k (vsub c off)) (db_centers db)))
                 = Some s).
  { unfold db_centered_max_norm in Hm. rewrite Hoff in Hm.
    unfold max_center_norm in Hm. rewrite centered_norms in Hm.
    fold (db_centers db) in Hm.
    rewrite map_map.
    rewrite (map_ext _ (fun c => k * norm3 (vsub c off)))
      by (intro c; apply norm3_vscale; lra).
    rewrite <- (map_map (fun c => norm3 (vsub c off)) (Rmult k)).
    rewrite (np_max_map (Rmult k) _ m); [|intros a b Hab; nra|exact Hm].
    f_equal. unfold k. field. lra. }
  assert (Hmid : forall p : vec3 -> R,
             (forall c, p (vscale k (vsub c off)) = (p c - p off) * k) ->
             forall lo hi,
               np_min (map p (db_centers db)) = Some lo ->
               np_max (map p (db_centers db)) = Some hi ->
               p off = (lo + hi) / 2 ->
               midpoint (map p (map (fun c => vscale k (vsub c off)) (db_centers db)))
               = Some 0).
  { intros p Hp lo hi Hlo Hhi Hoffp. unfold midpoint.
    rewrite map_map.
    rewrite (map_ext _ (fun c => (p c - p off) * k)) by exact Hp.
    rewrite <- (map_map p (fun x => (x - p off) * k)).
    rewrite (np_min_map (fun x => (x - p off) * k) _ lo); [|intros a b Hab; nra|exact Hlo].
    rewrite (np_max_map (fun x => (x - p off) * k) _ hi); [|intros a b Hab; nra|exact Hhi].
    f_equal. rewrite Hoffp. field. }
  destruct (db_offset_xy positive_z db off Hoff)
    as (xm & xM & ym & yM & Hxm & HxM & Hym & HyM & Hox & Hoy).
  repeat split.
  - exact Hmax.
  - intros c Hc. apply (np_max_ge _ _ _ Hmax). now apply in_map.
  - apply (Hmid vx (fun c => eq_refl) xm xM Hxm HxM Hox).
  - apply (Hmid vy (fun c => eq_refl) ym yM Hym HyM Hoy).
Qed.

(** C3 (amended): [normalize_cameras] has no guard for degenerate input.
    With a reconstruction attached, on a dataset of one frame or of frames
    whose centres are all one point, the largest centred norm (the divisor of
    the scale) is zero and the call still returns without raising. *)
Theorem normalize_cameras_degenerate_unguarded :
  forall (positive_z : bool) (s : R) (db : NuwaDB) (rc : Reconstruction),
    colmap_reconstruction db = Some rc ->
    frames db <> [] ->
    (List.length (frames db) = 1%nat \/
     forall f g, In f (frames db) -> In g (frames db) ->
                 center (pose f) = center (pose g)) ->
    db_centered_max_norm positive_z db = Some 0 /\
    fst (normalize_cameras positive_z s db) = None.
Proof.
  intros positive_z s db rc Hrc Hfs Hdeg.
  destruct (normalize_cameras_runs positive_z s db rc Hrc Hfs)
    as (off & m & Hoff & Hm & Hrun).
  assert (Hsame : forall f g, In f (frames db) -> In g (frames db) ->
                              center (pose f) = center (pose g)).
  { destruct Hdeg as [Hone|Hall]; [|exact Hall].
    destruct (frames db) as [|f0 [|f1 fs]]; simpl in Hone; try discriminate.
    intros f g [<-|[]] [<-|[]]. reflexivity. }
  rewrite (centered_max_norm_zero positive_z db m Hm Hsame) in Hm.
  split; [exact Hm|]. now rewrite Hrun.
Qed.

End WithReconstruction.


(** ** The sample datasets *)

Import Samples.

Ltac eval_extremes :=
  cbn [Rmin_list Rmax_list];
  unfold Rmin, Rmax;
  repeat match goal with
         | |- context [Rle_dec ?a ?b] =>
             lazymatch a with
             | context [Rle_dec _ _] => fail
             | _ =>
                 lazymatch b with
                 | context [Rle_dec _ _] => fail
                 | _ => destruct (Rle_dec a b); try lra
                 end
             end
         end.

Lemma sqrt_of_one (a : R) : a = 1 -> sqrt a = 1.
Proof. intros ->. apply sqrt_1. Qed.

Lemma three_cameras_offset : db_offset true three_cameras = Some (V3 1 0 0).
Proof.
  unfold db_offset, db_centers, extremes, three_cameras, offset_of; simpl.
  eval_extremes; f_equal; f_equal; lra.
Qed.

Lemma three_cameras_max_norm : db_centered_max_norm true three_cameras = Some 1.
Proof.
  unfold db_centered_max_norm. rewrite three_cameras_offset.
  unfold max_center_norm, three_cameras, norm3; simpl.
  rewrite !(sqrt_of_one ((0 - 1) * (0 - 1) + (0 - 0) * (0 - 0) + (0 - 0) * (0 - 0)))
    by ring.
  rewrite !(sqrt_of_one ((2 - 1) * (2 - 1) + (0 - 0) * (0 - 0) + (0 - 0) * (0 - 0)))
    by ring.
  eval_extremes; reflexivity.
Qed.

Lemma three_cameras_normalized :
  fst (normalize_cameras true 1 three_cameras) = None /\
  db_centers (snd (normalize_cameras true 1 three_cameras)) =
    [V3 (-1) 0 0; V3 (-1) 0 0; V3 1 0 0].
Proof.
  destruct (normalize_cameras_runs true 1 three_cameras [] eq_refl)
    as (off & m & Hoff & Hm & ->); [discriminate|].
  rewrite three_cameras_offset in Hoff. injection Hoff as <-.
  rewrite three_cameras_max_norm in Hm. injection Hm as <-.
  split; [reflexivity|].
  unfold db_centers; cbn [snd frames with_state]. rewrite db_centers_normalized.
  unfold vscale, vsub, center, pose_at; simpl. repeat (f_equal; try lra).
Qed.


Lemma three_cameras_differ :
  exists f g, In f (frames three_cameras) /\ In g (frames three_cameras) /\
              center (pose f) <> center (pose g).
Proof.
  exists (frame_at "PINHOLE" "/in/a.png" 0 0 0), (frame_at "PINHOLE" "/in/c.png" 2 0 0).
  repeat split; simpl; [tauto | tauto |].
  unfold center; simpl. intros [= H]. lra.
Qed.

(** C2, witness of the amended statement on [three_cameras], s = 1. *)
Lemma normalize_cameras_scale_invariant_witness :
  exists db',
    normalize_cameras true 1 three_cameras = (None, db') /\
    np_max (map norm3 (db_centers db')) = Some 1 /\
    (forall c, In c (db_centers db') -> norm3 c <= 1) /\
    midpoint (map vx (db_centers db')) = Some 0 /\
    midpoint (map vy (db_centers db')) = Some 0.
Proof.
  apply (normalize_cameras_scale_invariant true 1 three_cameras []).
  - reflexivity.
  - lra.
  - exact three_cameras_differ.
Defined.

(** C2, counterexample to the claim as stated: on [three_cameras], whose
    centres are (0,0,0), (0,0,0) and (2,0,0), [normalize_cameras] with
    scale factor 1 returns, and the centroid (arithmetic mean) of the updated
    centres has x = -1/3, not 0. *)
Lemma normalized_centroid_off_axis :
  (exists f g, In f (frames three_cameras) /\ In g (frames three_cameras) /\
               center (pose f) <> center (pose g)) /\
  fst (normalize_cameras true 1 three_cameras) = None /\
  mean (map vx (db_centers (snd (normalize_cameras true 1 three_cameras)))) = - (1 / 3) /\
  mean (map vx (db_centers (snd (normalize_cameras true 1 three_cameras)))) <> 0.
Proof.
  destruct three_cameras_normalized as [Hok Hcs].
  split; [exact three_cameras_differ|]. split; [exact Hok|].
  rewrite Hcs. unfold mean; simpl. split; lra.
Qed.

(** C3, witness of the amended statement on [one_camera]. *)
Lemma normalize_cameras_degenerate_unguarded_witness :
  db_centered_max_norm true one_camera = Some 0 /\
  fst (normalize_cameras true 1 one_camera) = None.
Proof.
  apply (normalize_cameras_degenerate_unguarded true 1 one_camera []).
  - reflexivity.
  - discriminate.
  - left. reflexivity.
Defined.

(** C3, counterexample to the claim as stated: on the single-frame dataset
    [one_camera] the divisor of the scale is zero and [normalize_cameras]
    returns without raising anything. *)
Lemma single_camera_not_rejected :
  List.length (frames one_camera) = 1%nat /\
  db_centered_max_norm true one_camera = Some 0 /\
  fst (normalize_cameras true 1 one_camera) = None.
Proof.
  split; [reflexivity|].
  destruct (normalize_cameras_runs true 1 one_camera [] eq_refl)
    as (off & m & Hoff & Hm & Hrun); [discriminate|].
  assert (Hsame : forall f g, In f (frames one_camera) -> In g (frames one_camera) ->
                              center (pose f) = center (pose g)).
  { intros f g [<-|[]] [<-|[]]. reflexivity. }
  rewrite (centered_max_norm_zero true one_camera m Hm Hsame) in Hm.
  split; [exact Hm|]. now rewrite Hrun.
Qed.

(** C8 (code defect): on [no_reconstruction], two frames and no sparse
    reconstruction attached, [normalize_cameras] with its default arguments
    raises [AttributeError] at [world_translate] and leaves every pose as it
    was. *)
Theorem normalize_cameras_needs_reconstruction :
  normalize_cameras true (11 / 10) no_reconstruction
  = (Some AttributeError, no_reconstruction).
Proof.
  apply normalize_cameras_without_reconstruction.
  - reflexivity.
  - discriminate.
Qed.

End NormalizeSpec.

(** * Properties of the camera-adjustment stage of calculate_object_mask *)
Module AdjustSpec.

Import PoseUtils DB.
Local Open Scope R_scope.

Lemma write_poses_length (fs : list Frame) (ps : list mat4) :
  List.length (write_poses fs ps) = List.length fs.
Proof.
  revert ps; induction fs as [|f fs IH]; intros [|p ps]; simpl; auto.
Qed.

Lemma same_but_pose_refl (f : Frame) : same_but_pose f f.
Proof. now repeat split. Qed.

Lemma write_poses_same (fs : list Frame) (ps : list mat4) :
  Forall2 same_but_pose (write_poses fs ps) fs.
Proof.
  revert ps; induction fs as [|f fs IH]; intros ps; [destruct ps; constructor|].
  destruct ps as [|p ps]; cbn [write_poses].
  - constructor; [apply same_but_pose_refl|]. specialize (IH []).
    now destruct fs.
  - constructor; [now repeat split | apply IH].
Qed.

Lemma same_but_pose_pinhole (l1 l : list Frame) :
  Forall2 same_but_pose l1 l ->
  Forall (fun x => is_pinhole x = true) l ->
  Forall (fun x => is_pinhole x = true) l1.
Proof.
  induction 1 as [|f1 f l1 l Hf _ IH]; intro Hl; [constructor|].
  inversion Hl; subst. constructor; [|now apply IH].
  unfold is_pinhole in *. destruct Hf as [-> _]. assumption.
Qed.

Lemma same_but_pose_fields (l1 l : list Frame) :
  Forall2 same_but_pose l1 l ->
  map camera l1 = map camera l /\ map image_path l1 = map image_path l.
Proof.
  induction 1 as [|f1 f l1 l (Hc & Hp & _) _ [IHc IHp]]; [now split|].
  simpl. now rewrite Hc, Hp, IHc, IHp.
Qed.

Section WithCollaborators.

Context {colmap : Colmap} {vision : Vision}.

(** [normalize_cameras] writes poses only. *)
Lemma normalize_cameras_frames (positive_z : bool) (s : R) (db db1 : NuwaDB)
    (r : option exn) :
  normalize_cameras positive_z s db = (r, db1) ->
  exists ps, frames db1 = write_poses (frames db) ps.
Proof.
  unfold normalize_cameras.
  destruct (extremes _) as [[lo hi]|].
  - destruct (colmap_reconstruction db) as [rc|].
    + destruct (max_center_norm _) as [m|]; intros [= _ <-]; cbn [frames with_state].
      * eexists; reflexivity.
      * exists []. now destruct (frames db).
    + intros [= _ <-]. exists []. now destruct (frames db).
  - intros [= _ <-]. exists []. now destruct (frames db).
Qed.

Lemma img_shape_split (l : list image) :
  l <> [] -> exists x xs, l = x :: xs.
Proof. destruct l as [|x xs]; [congruence | eauto]. Qed.

(** The update loop stops at the first frame that is not pinhole: the frames
    before it have been rewritten, that frame and the later ones are as they
    were. *)
Lemma update_info_stops (dir : string) (w0 h0 : Z) (poses : list mat4)
    (ks : list mat3) (pre : list Frame) (f : Frame) (post : list Frame) :
  forall i : nat,
    Forall (fun x => is_pinhole x = true) pre ->
    is_pinhole f = false ->
    (i + List.length pre <= List.length poses)%nat ->
    (i + List.length pre <= List.length ks)%nat ->
    exists pre',
      update_info dir w0 h0 poses ks i (pre ++ f :: post)
        = (Some AssertionError, pre' ++ f :: post) /\
      List.length pre' = List.length pre /\
      forall j fj, nth_error pre j = Some fj ->
        exists p k, nth_error poses (i + j) = Some p /\
                    nth_error ks (i + j) = Some k /\
                    nth_error pre' j = Some (updated_frame dir w0 h0 p k (i + j) fj).
Proof.
  induction pre as [|g pre IH]; intros i Hpin Hf Hps Hks.
  - exists []. simpl. rewrite Hf. simpl. repeat split.
    intros [|j] fj; discriminate.
  - inversion Hpin as [|? ? Hg Hpre]; subst.
    simpl in Hps, Hks.
    destruct (nth_error poses i) as [p|] eqn:Ep;
      [|apply nth_error_None in Ep; lia].
    destruct (nth_error ks i) as [k|] eqn:Ek;
      [|apply nth_error_None in Ek; lia].
    destruct (IH (S i) Hpre Hf) as (pre' & Hrun & Hlen & Hnth); [lia|lia|].
    exists (updated_frame dir w0 h0 p k i g :: pre').
    split; [|split].
    + cbn [app update_info]. rewrite Hg. cbn [negb]. rewrite Ep, Ek, Hrun.
      reflexivity.
    + simpl. now rewrite Hlen.
    + intros [|j] fj Hj.
      * injection Hj as <-. exists p, k. rewrite Nat.add_0_r. auto.
      * destruct (Hnth j fj Hj) as (p' & k' & ? & ? & ?).
        exists p', k'. rewrite <- plus_n_Sm. auto.
Qed.


(** C4 (amended): when some frame is not pinhole, the camera-adjustment
    stage (normalisation having succeeded, carving and cropping having
    returned enough poses, matrices and pictures) fails with the assertion
    error at the first such frame, and by then it has written: every frame
    carries the pose written by [normalize_cameras]; the frames before the
    first non-pinhole one carry their carved pose and their numbered image
    path; the first non-pinhole frame and the later ones keep their
    intrinsics and image path. *)
Theorem adjust_stage_stops_at_first_non_pinhole :
  forall (dir : string) (images : list image) (masks : list mask)
         (db db1 : NuwaDB) (pre : list Frame) (f : Frame) (post : list Frame)
         (images' : list image) (ks' : list mat3) (masks' : list mask),
    frames db = pre ++ f :: post ->
    Forall (fun x => is_pinhole x = true) pre ->
    is_pinhole f = false ->
    normalize_cameras true 1 db = (None, db1) ->
    let ks := map (fun x => intrinsic_matrix (camera x)) (frames db1) in
    let carved := scene_carving masks ks (map pose (frames db1)) in
    crop_images images masks ks = (images', ks', masks') ->
    images' <> [] ->
    (List.length pre <= List.length carved)%nat ->
    (List.length pre <= List.length ks')%nat ->
    exists fs2,
      adjust_cameras_stage dir images masks db
        = (Some AssertionError, with_state db1 fs2 (colmap_reconstruction db1)) /\
      List.length fs2 = List.length (frames db) /\
      skipn (List.length pre) fs2 = skipn (List.length pre) (frames db1) /\
      map camera (skipn (List.length pre) fs2) = map camera (f :: post) /\
      map image_path (skipn (List.length pre) fs2) = map image_path (f :: post) /\
      forall j fj, (j < List.length pre)%nat -> nth_error fs2 j = Some fj ->
        image_path fj = numbered_png dir j /\ nth_error carved j = Some (pose fj).
Proof.
  intros dir images masks db db1 pre f post images' ks' masks'
         Hfs Hpre Hf Hnorm ks carved Hcrop Himg Hcarved Hks.
  destruct (normalize_cameras_frames _ _ _ _ _ Hnorm) as (ps & Hfs1).
  pose proof (write_poses_same (frames db) ps) as Hsame.
  rewrite <- Hfs1, Hfs in Hsame.
  apply Forall2_app_inv_r in Hsame as (pre1 & rest1 & Hpre1 & Hrest1 & E1).
  inversion Hrest1 as [|f1 ? post1 ? Hf1 Hpost1]; subst rest1.
  assert (Hlen1 : List.length pre1 = List.length pre) by (eapply Forall2_length; eauto).
  assert (Hf1' : is_pinhole f1 = false).
  { unfold is_pinhole in *. destruct Hf1 as [-> _]. assumption. }
  destruct img_shape_split with (1 := Himg) as (img0 & imgs & ->).
  destruct (shape img0) as [h0 w0] eqn:Eshape.
  destruct (update_info_stops dir w0 h0 carved ks' pre1 f1 post1 0
              (same_but_pose_pinhole _ _ Hpre1 Hpre) Hf1')
    as (pre' & Hrun & Hlen' & Hnth); [simpl; lia | simpl; lia |].
  exists (pre' ++ f1 :: post1).
  assert (Hskip : skipn (List.length pre) (pre' ++ f1 :: post1) = f1 :: post1).
  { rewrite <- Hlen1, <- Hlen'. rewrite skipn_app, skipn_all, Nat.sub_diag. reflexivity. }
  split; [|split; [|split; [|split; [|split]]]].
  - unfold adjust_cameras_stage. rewrite Hnorm. fold ks. fold carved.
    rewrite Hcrop, Eshape, E1, Hrun. reflexivity.
  - rewrite Hfs, !length_app. simpl.
    rewrite Hlen', Hlen1. f_equal. f_equal.
    now apply Forall2_length in Hpost1.
  - rewrite Hskip, E1, <- Hlen1.
    rewrite skipn_app, skipn_all, Nat.sub_diag. reflexivity.
  - rewrite Hskip. apply (same_but_pose_fields (f1 :: post1) (f :: post)).
    now constructor.
  - rewrite Hskip. apply (same_but_pose_fields (f1 :: post1) (f :: post)).
    now constructor.
  - intros j fj Hj Hfj.
    rewrite nth_error_app1 in Hfj by lia.
    destruct (nth_error pre1 j) as [g|] eqn:Eg;
      [|apply nth_error_None in Eg; lia].
    destruct (Hnth j g Eg) as (p & k & Hp & Hk & Hj').
    rewrite Hj' in Hfj. injection Hfj as <-. simpl in Hp.
    split; [reflexivity | exact Hp].
Qed.

End WithCollaborators.


(** ** The sample dataset with a distorted camera *)

Import Samples NormalizeSpec.

Lemma mixed_models_normalized :
  exists db1,
    normalize_cameras true 1 mixed_models = (None, db1) /\
    List.length (frames db1) = 2%nat /\
    db_centers db1 = [V3 (-1) 0 0; V3 1 0 0].
Proof.
  destruct (normalize_cameras_runs true 1 mixed_models [] eq_refl)
    as (off & m & Hoff & Hm & Hrun); [discriminate|].
  assert (Eoff : db_offset true mixed_models = Some (V3 1 0 0)).
  { unfold db_offset, db_centers, extremes, mixed_models, offset_of; simpl.
    eval_extremes; f_equal; f_equal; lra. }
  rewrite Eoff in Hoff. injection Hoff as <-.
  assert (Em : db_centered_max_norm true mixed_models = Some 1).
  { unfold db_centered_max_norm. rewrite Eoff.
    unfold max_center_norm, mixed_models, norm3; simpl.
    rewrite !(sqrt_of_one ((0 - 1) * (0 - 1) + (0 - 0) * (0 - 0) + (0 - 0) * (0 - 0)))
      by ring.
    rewrite !(sqrt_of_one ((2 - 1) * (2 - 1) + (0 - 0) * (0 - 0) + (0 - 0) * (0 - 0)))
      by ring.
    eval_extremes; reflexivity. }
  rewrite Em in Hm. injection Hm as <-.
  eexists. split; [exact Hrun|]. split; [reflexivity|].
  unfold db_centers; cbn [frames with_state]. rewrite db_centers_normalized.
  unfold vscale, vsub, center, pose_at; simpl. repeat (f_equal; try lra).
Qed.

(** C4, counterexample to the claim as stated: on [mixed_models] (frame 0
    pinhole, frame 1 not) the stage fails with the assertion error, and the
    failed stage has changed the image path of frame 0 and the camera centres
    of both frames. *)
Lemma adjust_stage_leaves_partial_update :
  let r := @adjust_cameras_stage point_cloud still_scene
             "/out" two_pictures two_masks mixed_models in
  fst r = Some AssertionError /\
  map image_path (frames mixed_models) = ["/in/a.png"; "/in/b.png"]%string /\
  map image_path (frames (snd r)) = ["/out/000000.png"; "/in/b.png"]%string /\
  db_centers mixed_models = [V3 0 0 0; V3 2 0 0] /\
  db_centers (snd r) = [V3 (-1) 0 0; V3 1 0 0].
Proof.
  cbv zeta.
  destruct (normalize_cameras_runs true 1 mixed_models [] eq_refl)
    as (off & m & _ & _ & Hrun); [discriminate|].
  destruct mixed_models_normalized as (db1 & Hnorm & _ & Hcs).
  assert (Edb1 : db1 = snd (normalize_cameras true 1 mixed_models)) by now rewrite Hnorm.
  unfold adjust_cameras_stage. rewrite Hrun in *. cbn [snd] in Edb1. subst db1.
  unfold db_centers in Hcs. cbn [frames with_state] in Hcs.
  cbn. repeat split. exact Hcs.
Qed.


(** C4, witness of the amended statement on [mixed_models]. *)
Lemma adjust_stage_stops_at_first_non_pinhole_witness :
  let db1 := snd (normalize_cameras true 1 mixed_models) in
  let carved := map pose (frames db1) in
  exists fs2,
    @adjust_cameras_stage point_cloud still_scene
       "/out" two_pictures two_masks mixed_models
      = (Some AssertionError, with_state db1 fs2 (colmap_reconstruction db1)) /\
    List.length fs2 = 2%nat /\
    skipn 1 fs2 = skipn 1 (frames db1) /\
    map camera (skipn 1 fs2) = [mkCamera "OPENCV" 4 4 1 1 2 2] /\
    map image_path (skipn 1 fs2) = ["/in/b.png"%string] /\
    forall j fj, (j < 1)%nat -> nth_error fs2 j = Some fj ->
      image_path fj = numbered_png "/out" j /\ nth_error carved j = Some (pose fj).
Proof.
  destruct mixed_models_normalized as (db1 & Hnorm & Hlen & _).
  rewrite Hnorm. cbn [snd].
  apply (@adjust_stage_stops_at_first_non_pinhole point_cloud still_scene
           "/out" two_pictures two_masks mixed_models db1
           [frame_at "PINHOLE" "/in/a.png" 0 0 0]
           (frame_at "OPENCV" "/in/b.png" 2 0 0) []
           two_pictures
           (map (fun x => pinhole_matrix (camera x)) (frames db1))
           two_masks).
  - reflexivity.
  - repeat constructor.
  - reflexivity.
  - exact Hnorm.
  - reflexivity.
  - discriminate.
  - cbn. rewrite length_map, Hlen. lia.
  - cbn. rewrite length_map, Hlen. lia.
Defined.

End AdjustSpec.

(** * Properties of the masking loop of calculate_object_mask *)
Module MaskingSpec.

Import DB.

(** ** Foreground pixels *)

Lemma nonzero_row_in (y : nat) (row : list bool) :
  forall x0 y' x,
    In (y', x) (nonzero_row y x0 row) <->
    y' = y /\ (x0 <= x)%nat /\ nth_error row (x - x0) = Some true.
Proof.
  induction row as [|b row IH]; intros x0 y' x; cbn [nonzero_row].
  - split; [intros [] | intros (_ & _ & H)]. now destruct (x - x0)%nat.
  - rewrite in_app_iff, IH. split.
    + intros [Hb | (-> & Hle & Hnth)].
      * destruct b; [|contradiction]. destruct Hb as [[= <- <-]|[]].
        rewrite Nat.sub_diag. auto.
      * repeat split; [lia|].
        replace (x - x0)%nat with (S (x - S x0)) by lia. exact Hnth.
    + intros (-> & Hle & Hnth).
      destruct (Nat.eq_dec x x0) as [->|Hne].
      * rewrite Nat.sub_diag in Hnth. injection Hnth as ->. left. now left.
      * right. repeat split; [lia|].
        replace (x - x0)%nat with (S (x - S x0)) in Hnth by lia. exact Hnth.
Qed.

Lemma nonzero_from_in (m : mask) :
  forall y0 y x,
    In (y, x) (nonzero_from y0 m) <->
    (y0 <= y)%nat /\
    exists row, nth_error m (y - y0) = Some row /\ nth_error row x = Some true.
Proof.
  induction m as [|r m IH]; intros y0 y x; cbn [nonzero_from].
  - split; [intros [] | intros (_ & row & H & _)]. now destruct (y - y0)%nat.
  - rewrite in_app_iff, IH, nonzero_row_in. rewrite Nat.sub_0_r. split.
    + intros [(-> & _ & Hx) | (Hle & row & Hrow & Hx)].
      * split; [lia|]. exists r. rewrite Nat.sub_diag. auto.
      * split; [lia|]. exists row.
        replace (y - y0)%nat with (S (y - S y0)) by lia. auto.
    + intros (Hle & row & Hrow & Hx).
      destruct (Nat.eq_dec y y0) as [->|Hne].
      * rewrite Nat.sub_diag in Hrow. injection Hrow as ->. left. auto with arith.
      * right. split; [lia|]. exists row.
        replace (y - y0)%nat with (S (y - S y0)) in Hrow by lia. auto.
Qed.

Lemma nonzero_in (m : mask) (y x : nat) :
  In (y, x) (nonzero m) <->
  exists row, nth_error m y = Some row /\ nth_error row x = Some true.
Proof.
  unfold nonzero. rewrite nonzero_from_in, Nat.sub_0_r.
  split; [intros [_ H]; exact H | intro H; split; [lia | exact H]].
Qed.

Lemma nonzero_row_nil (y : nat) (row : list bool) :
  forall x0, nonzero_row y x0 row = [] <-> existsb (fun b => b) row = false.
Proof.
  induction row as [|b row IH]; intro x0; cbn [nonzero_row existsb]; [tauto|].
  destruct b; cbn [app orb]; [split; discriminate | apply IH].
Qed.

Lemma nonzero_from_nil (m : mask) :
  forall y0, nonzero_from y0 m = [] <-> has_foreground m = false.
Proof.
  unfold has_foreground.
  induction m as [|r m IH]; intro y0; cbn [nonzero_from existsb]; [tauto|].
  rewrite orb_false_iff, <- (IH (S y0)), <- (nonzero_row_nil y0 r 0).
  split.
  - intro H. apply app_eq_nil in H. exact H.
  - intros [-> ->]. reflexivity.
Qed.

(** The mask has a foreground pixel exactly when [nonzero] returns one. *)
Lemma nonzero_nil (m : mask) : nonzero m = [] <-> has_foreground m = false.
Proof. apply nonzero_from_nil. Qed.

Lemma nth_error_lt {A : Type} (l : list A) (n : nat) (a : A) :
  nth_error l n = Some a -> (n < List.length l)%nat.
Proof. intro H. apply nth_error_Some. congruence. Qed.

Lemma full_mask_in (rows cols y x : nat) :
  In (y, x) (nonzero (full_mask rows cols)) <-> (y < rows)%nat /\ (x < cols)%nat.
Proof.
  rewrite nonzero_in. unfold full_mask. split.
  - intros (row & Hrow & Hx).
    assert (Hy : (y < rows)%nat).
    { apply nth_error_lt in Hrow. now rewrite repeat_length in Hrow. }
    split; [exact Hy|].
    rewrite (nth_error_repeat _ Hy) in Hrow. injection Hrow as <-.
    apply nth_error_lt in Hx. now rewrite repeat_length in Hx.
  - intros [Hy Hx]. exists (repeat true cols).
    now rewrite !nth_error_repeat.
Qed.

Lemma ones_like_full (m : mask) (rows cols : nat) :
  List.length m = rows ->
  Forall (fun row => List.length row = cols) m ->
  ones_like m = full_mask rows cols.
Proof.
  intros <- Hall. unfold ones_like, full_mask.
  induction Hall as [|row m Hrow _ IH]; [reflexivity|].
  cbn [map List.length repeat]. rewrite IH. f_equal.
  rewrite <- Hrow. clear. induction row; simpl; congruence.
Qed.

(** ** Extremes of a list of rationals *)

Lemma Qmin_list_in (x : Q) (xs : list Q) : In (Qmin_list x xs) (x :: xs).
Proof.
  revert x; induction xs as [|y ys IH]; intro x.
  - now left.
  - cbn [Qmin_list]. unfold Qmin, GenericMinMax.gmin.
    destruct (Qcompare x (Qmin_list y ys)); try (now left); right; apply IH.
Qed.

Lemma Qmax_list_in (x : Q) (xs : list Q) : In (Qmax_list x xs) (x :: xs).
Proof.
  revert x; induction xs as [|y ys IH]; intro x.
  - now left.
  - cbn [Qmax_list]. unfold Qmax, GenericMinMax.gmax.
    destruct (Qcompare x (Qmax_list y ys)); try (now left); right; apply IH.
Qed.

Lemma Qmin_list_le (x : Q) (xs : list Q) (e : Q) :
  In e (x :: xs) -> (Qmin_list x xs <= e)%Q.
Proof.
  revert x; induction xs as [|y ys IH]; intros x Hin; cbn [Qmin_list].
  - destruct Hin as [<-|[]]. apply Qle_refl.
  - destruct Hin as [<-|Hin].
    + apply Q.le_min_l.
    + apply Qle_trans with (Qmin_list y ys); [apply Q.le_min_r | now apply IH].
Qed.

Lemma Qmax_list_ge (x : Q) (xs : list Q) (e : Q) :
  In e (x :: xs) -> (e <= Qmax_list x xs)%Q.
Proof.
  revert x; induction xs as [|y ys IH]; intros x Hin; cbn [Qmax_list].
  - destruct Hin as [<-|[]]. apply Qle_refl.
  - destruct Hin as [<-|Hin].
    + apply Q.le_max_l.
    + apply Qle_trans with (Qmax_list y ys); [now apply IH | apply Q.le_max_r].
Qed.

(** [int()] gives the same integer on equal rationals. *)
Lemma py_int_Qeq (p q : Q) : (p == q)%Q -> py_int p = py_int q.
Proof.
  destruct p as [a b], q as [c d]. unfold Qeq, py_int; simpl. intro H.
  rewrite <- (Z.quot_mul_cancel_r a (Zpos b) (Zpos d)) by discriminate.
  rewrite <- (Z.quot_mul_cancel_r c (Zpos d) (Zpos b)) by discriminate.
  rewrite H. f_equal. apply Z.mul_comm.
Qed.

(** ** The first index of the maximum *)

Lemma argmax_from_spec (l : list Z) :
  forall (pre : list Z) (bi : nat) (b : Z),
    nth_error pre bi = Some b ->
    (forall j a, nth_error pre j = Some a -> (a <= b)%Z) ->
    (forall j a, (j < bi)%nat -> nth_error pre j = Some a -> (a < b)%Z) ->
    let k := argmax_from bi b (List.length pre) l in
    exists a, nth_error (pre ++ l) k = Some a /\
      (forall j a', nth_error (pre ++ l) j = Some a' -> (a' <= a)%Z) /\
      (forall j a', (j < k)%nat -> nth_error (pre ++ l) j = Some a' -> (a' < a)%Z).
Proof.
  induction l as [|x l IH]; intros pre bi b Hb Hmax Hfirst; cbn [argmax_from].
  - rewrite app_nil_r. exists b. auto.
  - assert (Hbi : (bi < List.length pre)%nat) by (apply nth_error_Some; congruence).
    replace (pre ++ x :: l) with ((pre ++ [x]) ++ l) by (now rewrite <- app_assoc).
    replace (S (List.length pre)) with (List.length (pre ++ [x]))
      by (rewrite length_app; simpl; lia).
    assert (Hsplit : forall j a, nth_error (pre ++ [x]) j = Some a ->
               (j < List.length pre)%nat /\ nth_error pre j = Some a \/
               j = List.length pre /\ a = x).
    { intros j a Hj. destruct (Nat.lt_ge_cases j (List.length pre)) as [Hlt|Hge].
      - left. rewrite nth_error_app1 in Hj by exact Hlt. auto.
      - right. rewrite nth_error_app2 in Hj by exact Hge.
        destruct (j - List.length pre)%nat as [|n] eqn:E; simpl in Hj.
        + injection Hj as <-. split; [lia | reflexivity].
        + now destruct n. }
    destruct (Z.ltb_spec b x) as [Hlt|Hge].
    + apply IH.
      * rewrite nth_error_app2 by lia. now rewrite Nat.sub_diag.
      * intros j a Hj. destruct (Hsplit j a Hj) as [[_ Hp]|[_ ->]]; [|lia].
        specialize (Hmax j a Hp). lia.
      * intros j a Hj' Hj. destruct (Hsplit j a Hj) as [[_ Hp]|[-> _]]; [|lia].
        specialize (Hmax j a Hp). lia.
    + apply IH.
      * now rewrite nth_error_app1.
      * intros j a Hj. destruct (Hsplit j a Hj) as [[_ Hp]|[_ ->]]; [|lia].
        now apply (Hmax j a).
      * intros j a Hlt Hj. destruct (Hsplit j a Hj) as [[_ Hp]|[-> ->]]; [|lia].
        now apply (Hfirst j a).
Qed.


(** [np.argmax] returns the first index at which the largest value sits. *)
Lemma argmax_first_largest (l : list Z) (k : nat) :
  argmax l = Some k ->
  exists a, nth_error l k = Some a /\
    (forall j a', nth_error l j = Some a' -> (a' <= a)%Z) /\
    (forall j a', (j < k)%nat -> nth_error l j = Some a' -> (a' < a)%Z).
Proof.
  destruct l as [|x l]; [discriminate|]. intros [= <-].
  apply (argmax_from_spec l [x] 0 x).
  - reflexivity.
  - intros [|[|j]] a; simpl; try discriminate. intros [= <-]. lia.
  - intros j a Hj. lia.
Qed.

Lemma argmax_none (l : list Z) : argmax l = None <-> l = [].
Proof. destruct l; simpl; split; congruence. Qed.

Lemma nth_error_skipn_1 {A : Type} (l : list A) (j : nat) :
  nth_error (skipn 1 l) j = nth_error l (S j).
Proof. destruct l; [now destruct j | reflexivity]. Qed.

(** [int()] is monotone. *)
Lemma py_int_le (p q : Q) : (p <= q)%Q -> (py_int p <= py_int q)%Z.
Proof.
  destruct p as [a b], q as [c d]. unfold Qle, py_int; simpl. intro H.
  rewrite <- (Z.quot_mul_cancel_r a (Zpos b) (Zpos d)) by discriminate.
  rewrite <- (Z.quot_mul_cancel_r c (Zpos d) (Zpos b)) by discriminate.
  rewrite (Z.mul_comm (Zpos d) (Zpos b)).
  apply Z.quot_le_mono; [lia | exact H].
Qed.

#[export] Instance py_int_proper : Proper (Qeq ==> eq) py_int.
Proof. intros p q H. now apply py_int_Qeq. Qed.

(** ** Roundings to nearest *)

Lemma to_nearest_proper (f : Q -> Q) : to_nearest f -> Proper (Qeq ==> Qeq) f.
Proof.
  intros [Hmono _] x y E.
  apply Qle_antisym; apply Hmono; rewrite E; apply Qle_refl.
Qed.

Lemma to_nearest_zero (f : Q -> Q) : to_nearest f -> (f 0 == 0)%Q.
Proof. intros [_ Hint]. apply (Hint 0%Z). reflexivity. Qed.

Lemma to_nearest_nonneg (f : Q -> Q) (x : Q) :
  to_nearest f -> (0 <= x)%Q -> (0 <= f x)%Q.
Proof.
  intros Hf Hx. rewrite <- (to_nearest_zero f Hf). now apply (proj1 Hf).
Qed.

Lemma to_nearest_nonpos (f : Q -> Q) (x : Q) :
  to_nearest f -> (x <= 0)%Q -> (f x <= 0)%Q.
Proof.
  intros Hf Hx. rewrite <- (to_nearest_zero f Hf). now apply (proj1 Hf).
Qed.

Section WithVision.

Context {vision : Vision}.

#[export] Instance astype_float32_proper : Proper (Qeq ==> Qeq) astype_float32.
Proof. apply to_nearest_proper, astype_float32_nearest. Qed.

#[export] Instance round_array_proper : Proper (Qeq ==> Qeq) round_array.
Proof. apply to_nearest_proper, round_array_nearest. Qed.

#[export] Instance round_scalar_proper : Proper (Qeq ==> Qeq) round_scalar.
Proof. apply to_nearest_proper, round_scalar_nearest. Qed.

(** The margin [w * shrink] is not negative when neither factor is. *)
Lemma margin_nonneg (w s : Q) :
  (0 <= w)%Q -> (0 <= s)%Q -> (0 <= round_scalar (w * round_scalar s))%Q.
Proof.
  intros Hw Hs. apply to_nearest_nonneg; [apply round_scalar_nearest|].
  apply Qmult_le_0_compat; [exact Hw|].
  apply to_nearest_nonneg; [apply round_scalar_nearest | exact Hs].
Qed.

(** ** The bounding-box step *)

Lemma warp_length (flow : flow_field) (px : list (nat * nat)) (fg : list (Q * Q)) :
  warp flow px = Some fg -> List.length fg = List.length px.
Proof.
  revert fg; induction px as [|[y x] px IH]; intros fg; cbn [warp].
  - now intros [= <-].
  - destruct (flow_at flow y x) as [[dx dy]|]; [|discriminate].
    destruct (warp flow px) as [rest|]; [|discriminate].
    intros [= <-]. simpl. now rewrite (IH rest).
Qed.

Lemma box_of_pixels_defined (r : Z) (s : Q) (fg : list (Q * Q)) :
  fg <> [] -> exists b, box_of_pixels r s fg = inl b.
Proof.
  destruct fg as [|p fg]; [congruence|]. intros _.
  unfold box_of_pixels; simpl. eauto.
Qed.

Lemma box_of_pixels_error (r : Z) (s : Q) (fg : list (Q * Q)) (e : exn) :
  box_of_pixels r s fg = inr e -> fg = [] /\ e = ValueError.
Proof.
  destruct fg as [|p fg]; unfold box_of_pixels; simpl.
  - now intros [= <-].
  - discriminate.
Qed.

(** The step raises [ValueError] exactly when the downsampled previous mask
    has no foreground pixel. *)
Lemma propagation_bbox_value_error (r : Z) (s : Q) (ref_mask : mask)
    (flow : flow_field) :
  has_foreground ref_mask = false <->
  propagation_bbox r s ref_mask flow = inr ValueError.
Proof.
  rewrite <- nonzero_nil. unfold propagation_bbox. split.
  - intros ->. reflexivity.
  - destruct (warp flow (nonzero ref_mask)) as [fg|] eqn:Ew; [|discriminate].
    intro Hbox. apply box_of_pixels_error in Hbox as [-> _].
    apply warp_length in Ew. simpl in Ew.
    destruct (nonzero ref_mask); [reflexivity | discriminate].
Qed.


(** ** A still scene: zero flow under a full mask *)

Lemma warp_uniform (flow : flow_field) (d : Q * Q) (px : list (nat * nat)) :
  (forall y x, In (y, x) px -> flow_at flow y x = Some d) ->
  warp flow px =
  Some (map (fun p =>
               (round_array (astype_float32 (inject_Z (Z.of_nat (snd p))) + fst d),
                round_array (astype_float32 (inject_Z (Z.of_nat (fst p))) + snd d))%Q)
            px).
Proof.
  destruct d as [dx dy].
  induction px as [|[y x] px IH]; intro Hflow; [reflexivity|].
  cbn [warp map]. rewrite (Hflow y x) by now left.
  rewrite IH by (intros; apply Hflow; now right). reflexivity.
Qed.

Lemma still_flow_at (rows cols y x : nat) :
  (y < rows)%nat -> (x < cols)%nat -> flow_at (still_flow rows cols) y x = Some (0, 0)%Q.
Proof.
  intros Hy Hx. unfold flow_at, still_flow. now rewrite !nth_error_repeat.
Qed.

(** The extremes of a non-empty list whose entries lie between two of its
    own entries. *)
Lemma Qmin_max_between (l : list Q) (lo hi : Q) :
  (exists e, In e l /\ (e == lo)%Q) ->
  (exists e, In e l /\ (e == hi)%Q) ->
  (forall e, In e l -> (lo <= e)%Q /\ (e <= hi)%Q) ->
  exists mn mx, Qmin_max l = Some (mn, mx) /\ (mn == lo)%Q /\ (mx == hi)%Q.
Proof.
  intros (el & Hel & Elo) (eh & Heh & Ehi) Hall.
  destruct l as [|x xs]; [contradiction|].
  exists (Qmin_list x xs), (Qmax_list x xs). split; [reflexivity|]. split.
  - apply Qle_antisym.
    + rewrite <- Elo. now apply Qmin_list_le.
    + apply Hall, Qmin_list_in.
  - apply Qle_antisym.
    + apply Hall, Qmax_list_in.
    + rewrite <- Ehi. now apply Qmax_list_ge.
Qed.

(** A pixel index that does not move is warped to itself. *)
Lemma still_pixel (k : nat) :
  (Z.of_nat k < 2 ^ 24)%Z ->
  (round_array (astype_float32 (inject_Z (Z.of_nat k)) + 0) == inject_Z (Z.of_nat k))%Q.
Proof.
  intro Hk.
  rewrite (proj2 astype_float32_nearest) by lia.
  rewrite Qplus_0_r. apply (proj2 round_array_nearest). lia.
Qed.

Lemma still_coordinates (n : nat) (P : list (nat * nat)) (c : nat * nat -> nat) :
  (0 < n)%nat ->
  (Z.of_nat n <= 2 ^ 24)%Z ->
  (forall p, In p P -> (c p < n)%nat) ->
  (exists p, In p P /\ c p = 0%nat) ->
  (exists p, In p P /\ c p = (n - 1)%nat) ->
  exists mn mx,
    Qmin_max (map (fun p =>
                     round_array (astype_float32 (inject_Z (Z.of_nat (c p))) + 0)%Q) P)
    = Some (mn, mx) /\
    (mn == 0)%Q /\ (mx == inject_Z (Z.of_nat n - 1))%Q.
Proof.
  intros Hn Hmax Hlt (p0 & Hp0 & E0) (p1 & Hp1 & E1).
  set (g := fun p => round_array (astype_float32 (inject_Z (Z.of_nat (c p))) + 0)%Q).
  apply Qmin_max_between.
  - exists (g p0). split; [apply (in_map g), Hp0|].
    unfold g. rewrite still_pixel by (rewrite E0; lia). now rewrite E0.
  - exists (g p1). split; [apply (in_map g), Hp1|].
    unfold g. rewrite still_pixel by (rewrite E1; lia).
    rewrite E1. apply inject_Z_injective. lia.
  - intros e He. apply in_map_iff in He as (p & <- & Hp).
    specialize (Hlt p Hp). unfold g. rewrite still_pixel by lia.
    split; [change 0%Q with (inject_Z 0)|]; rewrite <- Zle_Qle; lia.
Qed.

(** Under zero flow and a full downsampled mask the step computes
    [still_box]. *)
Lemma propagation_bbox_still (r : Z) (s : Q) (rows cols : nat) :
  (0 < rows)%nat -> (0 < cols)%nat ->
  (Z.of_nat rows <= 2 ^ 24)%Z -> (Z.of_nat cols <= 2 ^ 24)%Z ->
  propagation_bbox r s (full_mask rows cols) (still_flow rows cols)
  = inl (still_box r s rows cols).
Proof.
  intros Hrows Hcols Hrmax Hcmax. unfold propagation_bbox.
  rewrite (warp_uniform _ (0, 0)%Q).
  2:{ intros y x Hin. apply full_mask_in in Hin as [Hy Hx]. now apply still_flow_at. }
  unfold box_of_pixels. rewrite !map_map. cbn [fst snd].
  set (P := nonzero (full_mask rows cols)).
  assert (Hfirst : In (0%nat, 0%nat) P) by (apply full_mask_in; lia).
  assert (Hlast : In ((rows - 1)%nat, (cols - 1)%nat) P) by (apply full_mask_in; lia).
  destruct (still_coordinates cols P snd Hcols Hcmax)
    as (xmin & xmax & -> & Exmin & Exmax).
  { intros [y x] Hp. apply full_mask_in in Hp. simpl. lia. }
  { now exists (0%nat, 0%nat). }
  { now exists ((rows - 1)%nat, (cols - 1)%nat). }
  destruct (still_coordinates rows P fst Hrows Hrmax)
    as (ymin & ymax & -> & Eymin & Eymax).
  { intros [y x] Hp. apply full_mask_in in Hp. simpl. lia. }
  { now exists (0%nat, 0%nat). }
  { now exists ((rows - 1)%nat, (cols - 1)%nat). }
  unfold still_box, still_margin. cbv zeta.
  assert (Hw : (round_array (xmax - xmin) == inject_Z (Z.of_nat cols - 1))%Q).
  { rewrite Exmin, Exmax.
    setoid_replace (inject_Z (Z.of_nat cols - 1) - 0)%Q
      with (inject_Z (Z.of_nat cols - 1)) by ring.
    apply (proj2 round_array_nearest). lia. }
  assert (Hh : (round_array (ymax - ymin) == inject_Z (Z.of_nat rows - 1))%Q).
  { rewrite Eymin, Eymax.
    setoid_replace (inject_Z (Z.of_nat rows - 1) - 0)%Q
      with (inject_Z (Z.of_nat rows - 1)) by ring.
    apply (proj2 round_array_nearest). lia. }
  rewrite Hw, Hh, Exmin, Exmax, Eymin, Eymax. reflexivity.
Qed.

Lemma py_int_small (q : Q) : (- (1) < q)%Q -> (q < 1)%Q -> py_int q = 0%Z.
Proof.
  destruct q as [a b]. unfold Qlt, py_int; simpl. intros Hlo Hhi.
  apply Z.quot_small_iff; [discriminate|]. lia.
Qed.

Lemma py_int_whole_plus_fraction (n : Z) (f : Q) :
  (0 <= n)%Z -> (0 <= f)%Q -> (f < 1)%Q -> py_int (inject_Z n + f) = n.
Proof.
  destruct f as [a b]. unfold Qle, Qlt, py_int, Qplus, inject_Z; simpl.
  intros Hn Hlo Hhi.
  rewrite Z.quot_div_nonneg by nia.
  rewrite Z.mul_1_r in *.
  rewrite Z.div_add_l by discriminate.
  rewrite Z.div_small by lia. lia.
Qed.

(** The two bounds of one axis of the still box: the lower one is not
    positive and the upper one not below the last pixel; where the rounded
    bounds stay within one pixel of them, they are 0 and the last pixel. *)
Lemma still_axis (s : Q) (n : nat) :
  (0 < n)%nat -> (Z.of_nat n <= 2 ^ 24)%Z -> (0 <= s)%Q ->
  let last := inject_Z (Z.of_nat n - 1) in
  let lo := round_scalar (0 - still_margin s n) in
  let hi := round_scalar (last + still_margin s n) in
  ((py_int lo <= 0)%Z /\ (Z.of_nat n - 1 <= py_int hi)%Z) /\
  ((- (1) < lo)%Q -> (hi < last + 1)%Q ->
   py_int lo = 0%Z /\ py_int hi = (Z.of_nat n - 1)%Z).
Proof.
  intros Hn Hmax Hs last lo hi.
  assert (Hlast : (0 <= last)%Q)
    by (unfold last; change 0%Q with (inject_Z 0); rewrite <- Zle_Qle; lia).
  assert (Hm : (0 <= still_margin s n)%Q) by (now apply margin_nonneg).
  assert (Hlo : (lo <= 0)%Q).
  { apply to_nearest_nonpos; [apply round_scalar_nearest|].
    revert Hm. generalize (still_margin s n). intros m Hm. Lqa.lra. }
  assert (Hhi : (last <= hi)%Q).
  { apply Qle_trans with (round_scalar last).
    - unfold last. rewrite (proj2 round_scalar_nearest) by lia. apply Qle_refl.
    - apply (proj1 round_scalar_nearest).
      revert Hm. generalize (still_margin s n). intros m Hm. Lqa.lra. }
  split.
  - split.
    + change 0%Z with (py_int 0). now apply py_int_le.
    + replace (Z.of_nat n - 1)%Z with (py_int last)
        by (unfold last, py_int; simpl; apply Z.quot_1_r).
      now apply py_int_le.
  - intros Hlo1 Hhi1. split.
    + apply py_int_small; [exact Hlo1|]. Lqa.lra.
    + assert (E : (hi == last + (hi - last))%Q) by ring.
      rewrite E. apply py_int_whole_plus_fraction; [lia | Lqa.lra | Lqa.lra].
Qed.

Lemma masking_loop_steps (r : Z) (s : Q) (all : list image) (todo : list image) :
  forall (i : nat) (masks : list mask) (boxes : list bbox)
         (done : list image) (ms : list mask) (bs : list bbox),
    masking_loop r s all i todo masks boxes = inl (ms, bs) ->
    all = done ++ todo ->
    List.length done = i ->
    List.length masks = i ->
    List.length boxes = (i - 1)%nat ->
    (exists ms' bs', ms = masks ++ ms' /\ bs = boxes ++ bs') /\
    List.length ms = List.length all /\
    forall j, (i <= j)%nat -> (0 < j)%nat -> (j < List.length all)%nat ->
              step_of_run r s all ms bs j.
Proof.
  induction todo as [|img todo IH];
    intros i masks boxes done ms bs Hrun Hall Hdone Hmasks Hboxes.
  - cbn [masking_loop] in Hrun. injection Hrun as <- <-.
    rewrite app_nil_r in Hall. subst all.
    split; [exists [], []; now rewrite !app_nil_r|].
    split; [lia|]. intros j ? ? ?. lia.
  - assert (Hall' : all = (done ++ [img]) ++ todo) by (now rewrite <- app_assoc).
    assert (Hdone' : List.length (done ++ [img]) = S i)
      by (rewrite length_app; simpl; lia).
    cbn [masking_loop] in Hrun.
    destruct (Nat.eqb_spec i 0) as [->|Hi].
    + destruct (IH 1%nat _ _ _ _ _ Hrun Hall' Hdone')
        as ((ms' & bs' & -> & ->) & Hlen & Hsteps).
      * rewrite length_app; simpl; lia.
      * simpl. lia.
      * split; [exists (sam img (segment_img img) :: ms'), bs';
                now rewrite <- app_assoc|].
        split; [exact Hlen|].
        intros j _ Hj Hlt. apply Hsteps; lia.
    + destruct (nth_error all (i - 1)) as [prev_img|] eqn:Eprev; [|discriminate].
      destruct (nth_error masks (i - 1)) as [prev_mask|] eqn:Epm; [|discriminate].
      destruct (propagate_frame r s prev_img img prev_mask) as [[b m]|e] eqn:Estep;
        [|discriminate].
      destruct (IH (S i) _ _ _ _ _ Hrun Hall' Hdone')
        as ((ms' & bs' & -> & ->) & Hlen & Hsteps).
      * rewrite length_app; simpl; lia.
      * rewrite length_app; simpl; lia.
      * split; [exists (m :: ms'), (b :: bs'); now rewrite <- !app_assoc|].
        split; [exact Hlen|].
        intros j Hle Hj Hlt.
        destruct (Nat.eq_dec j i) as [->|Hne]; [|apply Hsteps; lia].
        exists prev_img, img, prev_mask, b, m.
        repeat split; try assumption.
        -- rewrite Hall, nth_error_app2 by lia.
           now rewrite Hdone, Nat.sub_diag.
        -- rewrite <- app_assoc, nth_error_app1 by lia. exact Epm.
        -- rewrite <- app_assoc, nth_error_app2 by lia.
           now rewrite Hboxes, Nat.sub_diag.
        -- rewrite <- app_assoc, nth_error_app2 by lia.
           now rewrite Hmasks, Nat.sub_diag.
Qed.

(** Every frame after the first of a completed run comes from a propagation
    step, and the run yields one mask per frame. *)
Lemma calculate_masks_steps (r : Z) (s : Q) (imgs : list image)
    (masks : list mask) (boxes : list bbox) :
  calculate_masks r s imgs = inl (masks, boxes) ->
  List.length masks = List.length imgs /\
  forall i, (0 < i)%nat -> (i < List.length imgs)%nat ->
            step_of_run r s imgs masks boxes i.
Proof.
  intro Hrun.
  destruct (masking_loop_steps r s imgs imgs 0 [] [] [] masks boxes Hrun)
    as (_ & Hlen & Hsteps); try reflexivity.
  split; [exact Hlen|]. intros i Hi Hlt. apply Hsteps; lia.
Qed.

(** What [largest_component] keeps, by cases on the component statistics. *)
Lemma largest_component_cases (raw : mask) (labels : list (list Z))
    (stats : list cc_stat) :
  connectedComponentsWithStats (astype_uint8 raw) = (labels, stats) ->
  ((List.length stats <= 1)%nat /\ largest_component raw = ones_like raw) \/
  (exists (k : nat) (a : Z),
      (1 <= k)%nat /\
      nth_error (map cc_area stats) k = Some a /\
      (forall l a', (1 <= l)%nat -> nth_error (map cc_area stats) l = Some a' ->
                    (a' <= a)%Z) /\
      (forall l a', (1 <= l < k)%nat -> nth_error (map cc_area stats) l = Some a' ->
                    (a' < a)%Z) /\
      largest_component raw = map (map (fun l => (l =? Z.of_nat k)%Z)) labels).
Proof.
  intro Hcc. unfold largest_component. rewrite Hcc.
  destruct (argmax (map cc_area (skipn 1 stats))) as [k|] eqn:Earg.
  - right. apply argmax_first_largest in Earg as (a & Hk & Hmax & Hfirst).
    rewrite <- skipn_map in Hk, Hmax, Hfirst.
    exists (S k), a. split; [lia|]. split; [|split; [|split]].
    + now rewrite <- nth_error_skipn_1.
    + intros [|l] a' Hl Hnth; [lia|].
      apply (Hmax l). now rewrite nth_error_skipn_1.
    + intros [|l] a' Hl Hnth; [lia|].
      apply (Hfirst l); [lia|]. now rewrite nth_error_skipn_1.
    + replace (Z.of_nat (S k)) with (Z.of_nat k + 1)%Z by lia. reflexivity.
  - left. split; [|reflexivity].
    apply argmax_none in Earg. apply map_eq_nil in Earg.
    destruct stats as [|s0 [|s1 stats]]; simpl in *; try lia. discriminate.
Qed.

(** C5: in a completed run, for every frame i > 0 with box b handed to the
    segmentation service: if the labelling of the returned mask has no
    component besides the background, masks[i] is all ones (the full image
    when the returned mask has the image's shape); otherwise masks[i] is
    exactly the pixels labelled k, where k >= 1 is the first label among
    those of largest area. *)
Theorem masks_keep_largest_component :
  forall (r : Z) (s : Q) (imgs : list image) (masks : list mask)
         (boxes : list bbox) (i : nat) (img : image),
    calculate_masks r s imgs = inl (masks, boxes) ->
    (0 < i)%nat ->
    nth_error imgs i = Some img ->
    exists b labels stats,
      nth_error boxes (i - 1) = Some b /\
      connectedComponentsWithStats (astype_uint8 (segment_api img b)) = (labels, stats) /\
      (((List.length stats <= 1)%nat /\
        nth_error masks i = Some (ones_like (segment_api img b)) /\
        forall rows cols,
          List.length (segment_api img b) = rows ->
          Forall (fun row => List.length row = cols) (segment_api img b) ->
          nth_error masks i = Some (full_mask rows cols)) \/
       (exists (k : nat) (a : Z),
           (1 <= k)%nat /\
           nth_error (map cc_area stats) k = Some a /\
           (forall l a', (1 <= l)%nat -> nth_error (map cc_area stats) l = Some a' ->
                         (a' <= a)%Z) /\
           (forall l a', (1 <= l < k)%nat -> nth_error (map cc_area stats) l = Some a' ->
                         (a' < a)%Z) /\
           nth_error masks i = Some (map (map (fun l => (l =? Z.of_nat k)%Z)) labels))).
Proof.
  intros r s imgs masks boxes i img Hrun Hi Himg.
  destruct (calculate_masks_steps r s imgs masks boxes Hrun) as [_ Hsteps].
  destruct (Hsteps i Hi (nth_error_lt _ _ _ Himg))
    as (prev_img & img' & prev_mask & b & m & _ & Himg' & _ & Hb & Hm & Hstep).
  rewrite Himg in Himg'. injection Himg' as <-.
  unfold propagate_frame in Hstep.
  destruct (propagation_bbox _ _ _ _) as [b'|e]; [|discriminate].
  injection Hstep as -> <-.
  destruct (connectedComponentsWithStats (astype_uint8 (segment_api img b)))
    as [labels stats] eqn:Hcc.
  exists b, labels, stats. split; [exact Hb|]. split; [exact Hcc|].
  destruct (largest_component_cases (segment_api img b) labels stats Hcc)
    as [[Hlen Hones]|(k & a & H1 & H2 & H3 & H4 & H5)].
  - left. rewrite Hones in Hm. split; [exact Hlen|]. split; [exact Hm|].
    intros rows cols Hrows Hcols. now rewrite <- (ones_like_full _ _ _ Hrows Hcols).
  - right. exists k, a. rewrite H5 in Hm. auto.
Qed.

(** C10: the bounding-box step raises [ValueError] exactly when the
    downsampled previous mask has no foreground pixel, and then the frame's
    step raises it too instead of producing a mask; when there is a
    foreground pixel the array of warped pixels is not empty, its extremes
    exist and the step returns the box and the cleaned mask; so in a
    completed run the downsampled previous mask of every frame i > 0 had a
    foreground pixel. *)
Theorem bbox_step_needs_foreground :
  forall (r : Z) (s : Q) (prev_img img : image) (prev_mask : mask),
    let ref_mask := downsample_mask r prev_mask in
    let flow := raft_optical_flow_api (reduce_img r prev_img) (reduce_img r img) in
    (has_foreground ref_mask = false <->
     propagation_bbox r s ref_mask flow = inr ValueError) /\
    (has_foreground ref_mask = false ->
     propagate_frame r s prev_img img prev_mask = inr ValueError) /\
    (has_foreground ref_mask = true ->
     forall fg, warp flow (nonzero ref_mask) = Some fg ->
       fg <> [] /\
       Qmin_max (map fst fg) <> None /\ Qmin_max (map snd fg) <> None /\
       exists b, propagation_bbox r s ref_mask flow = inl b /\
                 propagate_frame r s prev_img img prev_mask
                 = inl (b, largest_component (segment_api img b))) /\
    (forall imgs masks boxes i pm,
        calculate_masks r s imgs = inl (masks, boxes) ->
        (0 < i < List.length imgs)%nat ->
        nth_error masks (i - 1) = Some pm ->
        has_foreground (downsample_mask r pm) = true).
Proof.
  intros r s prev_img img prev_mask ref_mask flow.
  split; [apply propagation_bbox_value_error|].
  split; [|split].
  - intro Hnone. unfold propagate_frame. fold ref_mask. fold flow.
    apply (propagation_bbox_value_error r s ref_mask flow) in Hnone.
    now rewrite Hnone.
  - intros Hsome fg Hwarp.
    assert (Hfg : fg <> []).
    { intros ->. apply warp_length in Hwarp. simpl in Hwarp.
      assert (E : nonzero ref_mask = []) by (destruct (nonzero ref_mask); [reflexivity|discriminate]).
      apply nonzero_nil in E. congruence. }
    split; [exact Hfg|].
    split; [destruct fg; [congruence | discriminate]|].
    split; [destruct fg; [congruence | discriminate]|].
    destruct (box_of_pixels_defined r s fg Hfg) as [b Hb].
    exists b. unfold propagate_frame. fold ref_mask. fold flow.
    unfold propagation_bbox. rewrite Hwarp, Hb. auto.
  - intros imgs masks boxes i pm Hrun [Hi Hlt] Hpm.
    destruct (calculate_masks_steps r s imgs masks boxes Hrun) as [_ Hsteps].
    destruct (Hsteps i Hi Hlt)
      as (pimg & img' & pm' & b & m & _ & _ & Hpm' & _ & _ & Hstep).
    rewrite Hpm in Hpm'. injection Hpm' as <-.
    destruct (has_foreground (downsample_mask r pm)) eqn:E; [reflexivity|].
    exfalso. unfold propagate_frame in Hstep.
    apply (propagation_bbox_value_error r s _
             (raft_optical_flow_api (reduce_img r pimg) (reduce_img r img'))) in E.
    rewrite E in Hstep. discriminate.
Qed.


(** One propagation step over a full previous mask under zero flow. *)
Lemma propagate_frame_still (r : Z) (s : Q) (prev_img img : image)
    (H W rows cols : nat) :
  (0 < rows)%nat -> (0 < cols)%nat ->
  (Z.of_nat rows <= 2 ^ 24)%Z -> (Z.of_nat cols <= 2 ^ 24)%Z ->
  downsample_mask r (full_mask H W) = full_mask rows cols ->
  raft_optical_flow_api (reduce_img r prev_img) (reduce_img r img)
    = still_flow rows cols ->
  propagate_frame r s prev_img img (full_mask H W)
  = inl (still_box r s rows cols,
         largest_component (segment_api img (still_box r s rows cols))).
Proof.
  intros Hrows Hcols Hrmax Hcmax Hdown Hflow. unfold propagate_frame.
  rewrite Hdown, Hflow, propagation_bbox_still by assumption. reflexivity.
Qed.

(** C1 (amended): the box handed to the segmentation service is the
    bounding box of the warped pixels, widened by the shrink fraction on each
    side, each bound truncated toward zero and multiplied by the reduce
    factor, with no clipping to the picture; every operation on the way is
    rounded as NumPy rounds it.  For three frames under zero flow whose
    previous masks are full, with a downsampled grid of [rows] by [cols]
    pixels (at most [2 ** 24] each way), the box handed over for frames 1 and
    2 is [still_box].  For a shrink fraction that is not negative, and a
    reduce factor that is not negative, that box contains
    (0, 0, (cols - 1) * r, (rows - 1) * r); it is this box when the rounded
    bounds stay within one downsampled pixel of 0 and of the last pixel. *)
Theorem still_scene_boxes :
  forall (r : Z) (s : Q) (H W rows cols : nat) (i0 i1 i2 : image),
    (0 < rows)%nat -> (0 < cols)%nat ->
    (Z.of_nat rows <= 2 ^ 24)%Z -> (Z.of_nat cols <= 2 ^ 24)%Z ->
    downsample_mask r (full_mask H W) = full_mask rows cols ->
    sam i0 (segment_img i0) = full_mask H W ->
    largest_component (segment_api i1 (still_box r s rows cols)) = full_mask H W ->
    raft_optical_flow_api (reduce_img r i0) (reduce_img r i1) = still_flow rows cols ->
    raft_optical_flow_api (reduce_img r i1) (reduce_img r i2) = still_flow rows cols ->
    (exists m2,
        calculate_masks r s [i0; i1; i2]
        = inl ([full_mask H W; full_mask H W; m2],
               [still_box r s rows cols; still_box r s rows cols])) /\
    ((0 <= s)%Q -> (0 <= r)%Z ->
     exists x0 y0 x1 y1,
       still_box r s rows cols = (x0, y0, x1, y1) /\
       (x0 <= 0)%Z /\ (y0 <= 0)%Z /\
       ((Z.of_nat cols - 1) * r <= x1)%Z /\ ((Z.of_nat rows - 1) * r <= y1)%Z) /\
    ((0 <= s)%Q ->
     (- (1) < round_scalar (0 - still_margin s cols))%Q ->
     (- (1) < round_scalar (0 - still_margin s rows))%Q ->
     (round_scalar (inject_Z (Z.of_nat cols - 1) + still_margin s cols)
      < inject_Z (Z.of_nat cols - 1) + 1)%Q ->
     (round_scalar (inject_Z (Z.of_nat rows - 1) + still_margin s rows)
      < inject_Z (Z.of_nat rows - 1) + 1)%Q ->
     still_box r s rows cols
     = (0, 0, (Z.of_nat cols - 1) * r, (Z.of_nat rows - 1) * r)%Z) /\
    (forall imgs masks boxes i,
        calculate_masks r s imgs = inl (masks, boxes) ->
        (0 < i < List.length imgs)%nat ->
        exists prev_img img prev_mask fg xmin xmax ymin ymax,
          nth_error imgs (i - 1) = Some prev_img /\
          nth_error imgs i = Some img /\
          nth_error masks (i - 1) = Some prev_mask /\
          warp (raft_optical_flow_api (reduce_img r prev_img) (reduce_img r img))
               (nonzero (downsample_mask r prev_mask)) = Some fg /\
          Qmin_max (map fst fg) = Some (xmin, xmax) /\
          Qmin_max (map snd fg) = Some (ymin, ymax) /\
          let mx := round_scalar (round_array (xmax - xmin) * round_scalar s) in
          let my := round_scalar (round_array (ymax - ymin) * round_scalar s) in
          nth_error boxes (i - 1)
          = Some (py_int (round_scalar (xmin - mx)) * r,
                  py_int (round_scalar (ymin - my)) * r,
                  py_int (round_scalar (xmax + mx)) * r,
                  py_int (round_scalar (ymax + my)) * r)%Z).
Proof.
  intros r s H W rows cols i0 i1 i2 Hrows Hcols Hrmax Hcmax Hdown Hm0 Hm1 Hf01 Hf12.
  split; [|split; [|split]].
  - eexists. unfold calculate_masks. cbn [masking_loop Nat.eqb app].
    rewrite Hm0. cbn [nth_error Nat.sub].
    rewrite (propagate_frame_still r s i0 i1 H W rows cols) by assumption.
    rewrite Hm1. cbn [masking_loop Nat.eqb app nth_error Nat.sub].
    rewrite (propagate_frame_still r s i1 i2 H W rows cols) by assumption.
    reflexivity.
  - intros Hs Hr.
    destruct (still_axis s cols Hcols Hcmax Hs) as [[Hx0 Hx1] _].
    destruct (still_axis s rows Hrows Hrmax Hs) as [[Hy0 Hy1] _].
    unfold still_box. cbv zeta. do 4 eexists. split; [reflexivity|].
    repeat split.
    + apply Z.mul_nonpos_nonneg; assumption.
    + apply Z.mul_nonpos_nonneg; assumption.
    + apply Z.mul_le_mono_nonneg_r; assumption.
    + apply Z.mul_le_mono_nonneg_r; assumption.
  - intros Hs Hxlo Hylo Hxhi Hyhi.
    destruct (still_axis s cols Hcols Hcmax Hs) as [_ Hx].
    destruct (still_axis s rows Hrows Hrmax Hs) as [_ Hy].
    destruct (Hx Hxlo Hxhi) as [Ex0 Ex1]. destruct (Hy Hylo Hyhi) as [Ey0 Ey1].
    unfold still_box. cbv zeta. now rewrite Ex0, Ex1, Ey0, Ey1.
  - intros imgs masks boxes i Hrun [Hi Hlt].
    destruct (calculate_masks_steps r s imgs masks boxes Hrun) as [_ Hsteps].
    destruct (Hsteps i Hi Hlt)
      as (prev_img & img & prev_mask & b & m & Hprev & Himg & Hpm & Hb & _ & Hstep).
    unfold propagate_frame, propagation_bbox in Hstep.
    destruct (warp _ _) as [fg|] eqn:Ewarp; [|discriminate].
    unfold box_of_pixels in Hstep.
    destruct (Qmin_max (map fst fg)) as [[xmin xmax]|] eqn:Ex; [|discriminate].
    destruct (Qmin_max (map snd fg)) as [[ymin ymax]|] eqn:Ey; [|discriminate].
    injection Hstep as <- _.
    exists prev_img, img, prev_mask, fg, xmin, xmax, ymin, ymax.
    repeat split; assumption.
Qed.

End WithVision.

(** ** Runs on the sample scenes *)

Import Samples.

(** C1, witness of the amended statement: three 4x4 pictures in
    [still_scene], reduce factor 2, shrink 1/50. *)
Lemma still_scene_boxes_witness :
  (exists m2,
      @calculate_masks still_scene 2 (1 # 50) three_pictures
      = inl ([full_mask 4 4; full_mask 4 4; m2],
             [@still_box still_scene 2 (1 # 50) 2 2;
              @still_box still_scene 2 (1 # 50) 2 2])) /\
  @still_box still_scene 2 (1 # 50) 2 2 = (0, 0, 2, 2)%Z.
Proof.
  destruct (@still_scene_boxes still_scene 2 (1 # 50) 4 4 2 2 (4, 4)%nat (4, 4)%nat (4, 4)%nat)
    as (Hrun & _ & Hbox & _); try (vm_compute; reflexivity); try lia.
  split; [exact Hrun|].
  apply Hbox; vm_compute; congruence.
Defined.

(** C1, counterexample to the claim as stated.  Three 4x4 pictures, reduce
    factor 2, shrink 1/50.  Under zero flow with full masks the box handed
    over for frames 1 and 2 is (0, 0, 2, 2), not the full picture (0, 0, 4, 4)
    (nor (0, 0, 3, 3), its last pixel).  When every pixel moves ten columns to
    the right the box handed over is (18, 0, 22, 2), which is not within the
    4x4 picture: nothing clips it. *)
Lemma box_is_neither_full_nor_clipped :
  @calculate_masks still_scene 2 (1 # 50) three_pictures
  = inl ([full_mask 4 4; full_mask 4 4; full_mask 4 4],
         [(0, 0, 2, 2); (0, 0, 2, 2)]%Z) /\
  (0, 0, 2, 2)%Z <> (0, 0, 4, 4)%Z /\
  (0, 0, 2, 2)%Z <> (0, 0, 3, 3)%Z /\
  @calculate_masks sliding_scene 2 (1 # 50) three_pictures
  = inl ([full_mask 4 4; full_mask 4 4; full_mask 4 4],
         [(18, 0, 22, 2); (18, 0, 22, 2)]%Z) /\
  within_image 4 4 (18, 0, 22, 2)%Z = false.
Proof.
  repeat split; try (vm_compute; reflexivity); discriminate.
Qed.

(** C5, witness: in [fading_scene] the box-prompted service finds nothing
    after the first frame, and the run still yields a mask for frame 1. *)
Lemma masks_keep_largest_component_witness :
  exists b labels stats,
    nth_error [(0, 0, 2, 2)%Z; (0, 0, 2, 2)%Z] (1 - 1) = Some b /\
    @connectedComponentsWithStats fading_scene
       (astype_uint8 (@segment_api fading_scene (4, 4)%nat b)) = (labels, stats) /\
    (((List.length stats <= 1)%nat /\
      nth_error [full_mask 4 4; full_mask 4 4; full_mask 4 4] 1
      = Some (ones_like (@segment_api fading_scene (4, 4)%nat b)) /\
      forall rows cols,
        List.length (@segment_api fading_scene (4, 4)%nat b) = rows ->
        Forall (fun row => List.length row = cols)
               (@segment_api fading_scene (4, 4)%nat b) ->
        nth_error [full_mask 4 4; full_mask 4 4; full_mask 4 4] 1
        = Some (full_mask rows cols)) \/
     (exists (k : nat) (a : Z),
         (1 <= k)%nat /\
         nth_error (map cc_area stats) k = Some a /\
         (forall l a', (1 <= l)%nat -> nth_error (map cc_area stats) l = Some a' ->
                       (a' <= a)%Z) /\
         (forall l a', (1 <= l < k)%nat -> nth_error (map cc_area stats) l = Some a' ->
                       (a' < a)%Z) /\
         nth_error [full_mask 4 4; full_mask 4 4; full_mask 4 4] 1
         = Some (map (map (fun l => (l =? Z.of_nat k)%Z)) labels))).
Proof.
  apply (@masks_keep_largest_component fading_scene 2 (1 # 50) three_pictures
           [full_mask 4 4; full_mask 4 4; full_mask 4 4]
           [(0, 0, 2, 2)%Z; (0, 0, 2, 2)%Z] 1 (4, 4)%nat).
  - vm_compute. reflexivity.
  - lia.
  - reflexivity.
Defined.

(** In [blank_scene] nothing is found in the first frame, and the run raises
    [ValueError] at frame 1. *)
Example blank_scene_raises :
  @calculate_masks blank_scene 2 (1 # 50) three_pictures = inr ValueError.
Proof. vm_compute. reflexivity. Qed.

(** Rounding can move a bound by a whole pixel.  On a full grid of 1 by 1025
    pixels under zero flow, with the shrink fraction (2 ** 20 - 1) / 2 ** 30,
    the exact margin 1024 * shrink is below 1, yet float32 rounds
    1024 + margin to 1025, and the box ends at column 1025, not 1024. *)
Example rounding_moves_a_bound :
  (inject_Z 1024 * (1048575 # 1073741824) < 1)%Q /\
  @propagation_bbox still_scene 1 (1048575 # 1073741824)
     (full_mask 1 1025) (still_flow 1 1025)
  = inl (0, 0, 1025, 0)%Z.
Proof. split; vm_compute; reflexivity. Qed.

(** The warped pixel itself is rounded: column 4 moved by 1 - 2 ** -23 lands
    on 5 in float32, and the box (no shrink, reduce factor 1) is the single
    pixel (5, 0). *)
Example rounding_of_a_warped_pixel :
  @propagation_bbox still_scene 1 0
     [[false; false; false; false; true]]
     [repeat (8388607 # 8388608, 0)%Q 5]
  = inl (5, 0, 5, 0)%Z.
Proof. vm_compute. reflexivity. Qed.

End MaskingSpec.

(** * Further properties of pose_utils.py *)
Module PoseUtilsMoreSpec.

Import PoseUtils DB Rotations PoseUtilsSpec.
Local Open Scope R_scope.

Lemma vec3_eq (a b : vec3) : vx a = vx b -> vy a = vy b -> vz a = vz b -> a = b.
Proof. destruct a, b; simpl; intros; subst; reflexivity. Qed.

Lemma mat3_eq (a b : mat3) :
  k_row0 a = k_row0 b -> k_row1 a = k_row1 b -> k_row2 a = k_row2 b -> a = b.
Proof. destruct a, b; simpl; intros; subst; reflexivity. Qed.

Ltac mat3_unfold :=
  cbv [matmul3 row_times3 dot3 transpose3 identity3 qvec2rotmat rotation_block
       det3 qneg k_row0 k_row1 k_row2 vx vy vz v0 v1 v2 v3 row0 row1 row2 row3
       matmul row_times dot4 col0 col1 col2 col3 flip_yz rot90].

Lemma qvec2rotmat_unit_homogeneous (q : vec4) :
  qnorm2 q = 1 -> qvec2rotmat q = homogeneous_rotmat q.
Proof.
  intro H. unfold homogeneous_rotmat. cbv zeta. rewrite H. reflexivity.
Qed.

Lemma homogeneous_rotmat_gram (q : vec4) :
  matmul3 (transpose3 (homogeneous_rotmat q)) (homogeneous_rotmat q)
  = M3 (V3 (qnorm2 q ^ 2) 0 0) (V3 0 (qnorm2 q ^ 2) 0) (V3 0 0 (qnorm2 q ^ 2)).
Proof.
  destruct q as [a b c d].
  apply mat3_eq; apply vec3_eq; unfold homogeneous_rotmat, qnorm2; mat3_unfold; ring.
Qed.

Lemma homogeneous_rotmat_gram_rows (q : vec4) :
  matmul3 (homogeneous_rotmat q) (transpose3 (homogeneous_rotmat q))
  = M3 (V3 (qnorm2 q ^ 2) 0 0) (V3 0 (qnorm2 q ^ 2) 0) (V3 0 0 (qnorm2 q ^ 2)).
Proof.
  destruct q as [a b c d].
  apply mat3_eq; apply vec3_eq; unfold homogeneous_rotmat, qnorm2; mat3_unfold; ring.
Qed.

Lemma homogeneous_rotmat_det (q : vec4) :
  det3 (homogeneous_rotmat q) = qnorm2 q ^ 3.
Proof.
  destruct q as [a b c d]. unfold homogeneous_rotmat, qnorm2; mat3_unfold; ring.
Qed.

(** X1: for a unit quaternion [qvec2rotmat] returns a proper rotation: its
    columns and its rows are orthonormal and its determinant is 1. *)
Theorem qvec2rotmat_unit_is_rotation :
  forall q : vec4,
    qnorm2 q = 1 ->
    is_rotation (qvec2rotmat q) /\
    matmul3 (qvec2rotmat q) (transpose3 (qvec2rotmat q)) = identity3.
Proof.
  intros q H. rewrite (qvec2rotmat_unit_homogeneous q H).
  unfold is_rotation.
  rewrite homogeneous_rotmat_gram, homogeneous_rotmat_gram_rows, homogeneous_rotmat_det.
  rewrite H. unfold identity3.
  repeat split; try ring; repeat f_equal; ring.
Qed.


(** X2: a quaternion and its opposite give the same matrix. *)
Theorem qvec2rotmat_opposite :
  forall q : vec4, qvec2rotmat (qneg q) = qvec2rotmat q.
Proof.
  intros [a b c d]. apply mat3_eq; apply vec3_eq; mat3_unfold; ring.
Qed.

Lemma accepted_cases (t : string) :
  accepted t = true <->
  t = "cv"%string \/ t = "gl"%string \/ t = "blender"%string.
Proof.
  unfold accepted, accepted_types. cbn [existsb].
  rewrite !orb_true_iff, !String.eqb_eq. intuition discriminate.
Qed.

Lemma unblender_cases (t : string) :
  accepted t = true -> unblender t = "cv"%string \/ unblender t = "gl"%string.
Proof.
  intro H. apply accepted_cases in H as [E|[E|E]]; rewrite E; cbv; auto.
Qed.

Lemma convert_accepted (P : mat4) (a b : string) :
  accepted a = true -> accepted b = true ->
  convert_camera_pose P a b
  = inl (if String.eqb (unblender a) (unblender b) then P else P @@ flip_yz).
Proof.
  intros Ha Hb. unfold convert_camera_pose. rewrite Ha, Hb. cbn [negb].
  now destruct (String.eqb (unblender a) (unblender b)).
Qed.

(** X3: [convert_camera_pose] returns a pose exactly when both conventions
    are among "cv", "gl" and "blender"; otherwise its assertion fails. *)
Theorem convert_camera_pose_accepts :
  forall (P : mat4) (a b : string),
    (accepted a = true <-> a = "cv"%string \/ a = "gl"%string \/ a = "blender"%string) /\
    (accepted a && accepted b = true ->
     exists Q, convert_camera_pose P a b = inl Q) /\
    (accepted a && accepted b = false ->
     convert_camera_pose P a b = inr AssertionError).
Proof.
  intros P a b. split; [apply accepted_cases|]. split.
  - intro H. apply andb_true_iff in H as [Ha Hb].
    rewrite (convert_accepted P a b Ha Hb). eauto.
  - intro H. unfold convert_camera_pose.
    destruct (accepted a); [|reflexivity].
    destruct (accepted b); [discriminate | reflexivity].
Qed.

(** X4: between accepted conventions, converting back undoes a conversion,
    and two conversions in a row are the direct one. *)
Theorem convert_camera_pose_composes :
  forall (P : mat4) (a b c : string),
    accepted a = true -> accepted b = true -> accepted c = true ->
    exists Q,
      convert_camera_pose P a b = inl Q /\
      convert_camera_pose Q b a = inl P /\
      convert_camera_pose Q b c = convert_camera_pose P a c.
Proof.
  intros P a b c Ha Hb Hc.
  eexists. split; [apply (convert_accepted P a b Ha Hb)|].
  rewrite !convert_accepted by assumption.
  destruct (unblender_cases a Ha) as [Ea|Ea],
           (unblender_cases b Hb) as [Eb|Eb],
           (unblender_cases c Hc) as [Ec|Ec];
    rewrite Ea, Eb, Ec;
    cbn [String.eqb Ascii.eqb Bool.eqb andb];
    rewrite ?flip_yz_involutive; split; reflexivity.
Qed.

(** X5: a conversion between "cv" and "gl" keeps the first column (x axis)
    and the fourth column (camera centre) of the pose and negates the second
    and third columns (y and z axes). *)
Theorem convert_camera_pose_columns :
  forall P : mat4,
    exists Q,
      convert_camera_pose P "cv" "gl" = inl Q /\
      convert_camera_pose P "gl" "cv" = inl Q /\
      col0 Q = col0 P /\ col1 Q = qneg (col1 P) /\
      col2 Q = qneg (col2 P) /\ col3 Q = col3 P.
Proof.
  intro P. exists (P @@ flip_yz).
  split; [reflexivity|]. split; [reflexivity|].
  repeat split; apply vec4_eq; mat3_unfold; ring.
Qed.

(** X6: two successive applications of [get_rot90_camera_matrices] (heights
    h, then w for a w-by-h picture) turn the picture by a half turn: the
    first two columns of the pose are negated, the focal lengths are back in
    place and the principal point is reflected to (w - cx, h - cy).  One
    application sends the second column, negated, to the first column and the
    first column to the second. *)
Theorem rot90_twice_is_half_turn :
  forall (pose : mat4) (fx fy cx cy w h : R),
    let r1 := get_rot90_camera_matrices pose fx fy cx cy h in
    let r2 := rot90_again r1 w in
    col0 (new_pose_matrix r1) = qneg (col1 pose) /\
    col1 (new_pose_matrix r1) = col0 pose /\
    col0 (new_pose_matrix r2) = qneg (col0 pose) /\
    col1 (new_pose_matrix r2) = qneg (col1 pose) /\
    nfx r2 = fx /\ nfy r2 = fy /\ ncx r2 = w - cx /\ ncy r2 = h - cy.
Proof.
  intros pose fx fy cx cy w h. cbv zeta.
  unfold rot90_again, get_rot90_camera_matrices;
    cbn [new_pose_matrix nfx nfy ncx ncy].
  repeat split; try (apply vec4_eq; mat3_unfold; ring).
Qed.

Lemma rotation_block_flip (P : mat4) :
  is_rigid P -> is_rigid (P @@ flip_yz).
Proof.
  destruct P as [[a b c t] [d e f u] [g h i v] [j k l m]].
  unfold is_rigid, is_rotation. mat3_unfold.
  intros [[Hgram Hdet] Hrow]. injection Hrow as -> -> -> ->.
  injection Hgram as G1 G2 G3 G4 G5 G6 G7 G8 G9.
  repeat split.
  - apply mat3_eq; apply vec3_eq; cbn [k_row0 k_row1 k_row2 vx vy vz]; lra.
  - lra.
  - apply vec4_eq; cbn [v0 v1 v2 v3]; ring.
Qed.

Lemma rotation_block_rot90 (P : mat4) :
  is_rigid P -> is_rigid (P @@ rot90).
Proof.
  destruct P as [[a b c t] [d e f u] [g h i v] [j k l m]].
  unfold is_rigid, is_rotation. mat3_unfold.
  intros [[Hgram Hdet] Hrow]. injection Hrow as -> -> -> ->.
  injection Hgram as G1 G2 G3 G4 G5 G6 G7 G8 G9.
  repeat split.
  - apply mat3_eq; apply vec3_eq; cbn [k_row0 k_row1 k_row2 vx vy vz]; lra.
  - lra.
  - apply vec4_eq; cbn [v0 v1 v2 v3]; ring.
Qed.

(** X7: a rigid pose (proper rotation block over the bottom row (0,0,0,1))
    stays rigid under [convert_camera_pose] and under
    [get_rot90_camera_matrices]: both multiply by a proper rotation, so
    orthonormality and handedness are kept. *)
Theorem pose_utilities_keep_rigid :
  forall (P : mat4) (a b : string) (fx fy cx cy h : R),
    is_rigid P ->
    (forall Q, convert_camera_pose P a b = inl Q -> is_rigid Q) /\
    is_rigid (new_pose_matrix (get_rot90_camera_matrices P fx fy cx cy h)).
Proof.
  intros P a b fx fy cx cy h HP. split.
  - intros Q HQ. unfold convert_camera_pose in HQ.
    destruct (negb (accepted a)); [discriminate|].
    destruct (negb (accepted b)); [discriminate|].
    destruct (String.eqb (unblender a) (unblender b)); injection HQ as <-.
    + exact HP.
    + now apply rotation_block_flip.
  - now apply rotation_block_rot90.
Qed.


(** ** Instances *)

Import Samples.

(** The unit quaternion (3/5, 4/5, 0, 0). *)
Lemma qvec2rotmat_unit_is_rotation_witness :
  is_rotation (qvec2rotmat (V4 (3 / 5) (4 / 5) 0 0)) /\
  matmul3 (qvec2rotmat (V4 (3 / 5) (4 / 5) 0 0))
          (transpose3 (qvec2rotmat (V4 (3 / 5) (4 / 5) 0 0))) = identity3.
Proof.
  apply (qvec2rotmat_unit_is_rotation (V4 (3 / 5) (4 / 5) 0 0)).
  unfold qnorm2; cbn [v0 v1 v2 v3]. field.
Defined.

(** From "cv" through "blender" to "gl". *)
Lemma convert_camera_pose_composes_witness :
  exists Q,
    convert_camera_pose (pose_at 1 2 3) "cv" "blender" = inl Q /\
    convert_camera_pose Q "blender" "cv" = inl (pose_at 1 2 3) /\
    convert_camera_pose Q "blender" "gl" = convert_camera_pose (pose_at 1 2 3) "cv" "gl".
Proof.
  apply (convert_camera_pose_composes (pose_at 1 2 3) "cv" "blender" "gl");
    reflexivity.
Defined.

Lemma pose_at_rigid (x y z : R) : is_rigid (pose_at x y z).
Proof.
  unfold is_rigid, is_rotation, pose_at. mat3_unfold.
  repeat split; try ring; repeat f_equal; ring.
Qed.

(** The identity rotation at (1, 2, 3). *)
Lemma pose_utilities_keep_rigid_witness :
  (forall Q, convert_camera_pose (pose_at 1 2 3) "cv" "gl" = inl Q -> is_rigid Q) /\
  is_rigid (new_pose_matrix (get_rot90_camera_matrices (pose_at 1 2 3) 1 1 2 2 4)).
Proof.
  apply (pose_utilities_keep_rigid (pose_at 1 2 3) "cv" "gl" 1 1 2 2 4).
  apply pose_at_rigid.
Defined.

End PoseUtilsMoreSpec.

(** * Further properties of NuwaDB.normalize_cameras and NuwaDB.get_up *)
Module NormalizeMoreSpec.

Import PoseUtils DB DBUp Rotations NormalizeSpec.
Local Open Scope R_scope.

Lemma norm3_vdiv (v : vec3) (n : R) : 0 < n -> norm3 (vdiv v n) = norm3 v / n.
Proof.
  intro Hn. destruct v as [x y z]. unfold norm3, vdiv; cbn [vx vy vz].
  replace (x / n * (x / n) + y / n * (y / n) + z / n * (z / n))
    with ((x * x + y * y + z * z) * (/ n * / n)) by (field; lra).
  rewrite sqrt_mult_alt by nra.
  rewrite sqrt_square by (left; now apply Rinv_0_lt_compat).
  reflexivity.
Qed.

Lemma norm3_pos (v : vec3) : v <> V3 0 0 0 -> 0 < norm3 v.
Proof.
  intro Hv. destruct (norm3_nonneg v) as [H|H]; [exact H|].
  exfalso. apply Hv. now apply norm3_zero.
Qed.

Section WithReconstruction.

Context {colmap : Colmap}.

(** X8: when the summed up vectors of the frames do not cancel, [get_up]
    returns a unit vector. *)
Theorem get_up_is_unit :
  forall db : NuwaDB, up_sum db <> V3 0 0 0 -> norm3 (get_up db) = 1.
Proof.
  intros db Hsum. unfold get_up. cbv zeta.
  pose proof (norm3_pos _ Hsum) as Hpos.
  rewrite norm3_vdiv by exact Hpos. field. lra.
Qed.

Lemma up_sum_frames (fs1 fs2 : list Frame) (source1 source2 : string)
    (rc1 rc2 : option Reconstruction) :
  map (fun f => neg_y_axis (pose f)) fs1 = map (fun f => neg_y_axis (pose f)) fs2 ->
  up_sum (mkDB source1 fs1 rc1) = up_sum (mkDB source2 fs2 rc2).
Proof.
  unfold up_sum; cbn [frames]. generalize (V3 0 0 0).
  revert fs2; induction fs1 as [|f fs1 IH]; intros [|g fs2] acc H; try discriminate.
  - reflexivity.
  - cbn [map] in H.
    assert (Hhd : neg_y_axis (pose f) = neg_y_axis (pose g)) by congruence.
    assert (Htl : map (fun f => neg_y_axis (pose f)) fs1
                  = map (fun f => neg_y_axis (pose f)) fs2) by congruence.
    cbn [fold_left]. rewrite Hhd. now apply IH.
Qed.

(** The frames that [normalize_cameras] leaves behind, in every outcome. *)
Lemma normalize_cameras_result (positive_z : bool) (s : R) (db : NuwaDB) :
  frames (snd (normalize_cameras positive_z s db)) = frames db \/
  exists off k,
    frames (snd (normalize_cameras positive_z s db))
    = map (normalized_frame off k) (frames db).
Proof.
  unfold normalize_cameras.
  destruct (extremes _) as [[lo hi]|]; [|now left].
  destruct (colmap_reconstruction db) as [rc|]; [|now left].
  destruct (max_center_norm _) as [m|]; [|now left].
  right. exists (offset_of positive_z lo hi), (s / m).
  cbn [snd frames with_state].
  unfold scale_poses, translate_poses. rewrite map_map, write_poses_map.
  reflexivity.
Qed.



(** X10: [get_up] is the same before and after [normalize_cameras]. *)
Theorem normalize_cameras_keeps_up :
  forall (positive_z : bool) (s : R) (db : NuwaDB),
    get_up (snd (normalize_cameras positive_z s db)) = get_up db.
Proof.
  intros positive_z s db.
  assert (E : up_sum (snd (normalize_cameras positive_z s db)) = up_sum db).
  { destruct (snd (normalize_cameras positive_z s db)) as [src fs rc] eqn:Edb.
    destruct db as [src0 fs0 rc0] eqn:Edb0.
    apply up_sum_frames.
    pose proof (normalize_cameras_result positive_z s db) as H.
    rewrite Edb0, Edb in H. cbn [frames] in H.
    destruct H as [->|(off & k & ->)]; [reflexivity|].
    rewrite map_map. apply map_ext. reflexivity. }
  unfold get_up. cbv zeta. now rewrite E.
Qed.

(** X11: the outcome of [normalize_cameras] is decided by the frame list and
    the reconstruction alone, never by the geometry: [IndexError] on a
    dataset with no frame, [AttributeError] on a dataset with frames and no
    reconstruction, no exception otherwise; and when it raises, the dataset
    is as it was. *)
Theorem normalize_cameras_outcome :
  forall (positive_z : bool) (s : R) (db : NuwaDB),
    fst (normalize_cameras positive_z s db)
    = match frames db, colmap_reconstruction db with
      | [], _ => Some IndexError
      | _ :: _, None => Some AttributeError
      | _ :: _, Some _ => None
      end /\
    (fst (normalize_cameras positive_z s db) <> None ->
     snd (normalize_cameras positive_z s db) = db).
Proof.
  intros positive_z s db.
  destruct (frames db) as [|f fs] eqn:Efs.
  - unfold normalize_cameras. rewrite Efs. cbn. auto.
  - assert (Hfs : frames db <> []) by (rewrite Efs; discriminate).
    destruct (colmap_reconstruction db) as [rc|] eqn:Erc.
    + destruct (normalize_cameras_runs positive_z s db rc Erc Hfs)
        as (off & m & _ & _ & ->).
      cbn [fst snd]. split; [reflexivity | congruence].
    + rewrite (normalize_cameras_without_reconstruction positive_z s db Erc Hfs).
      cbn [fst snd]. auto.
Qed.

(** X27: when every pose of a dataset is converted from "cv" to "gl", the
    up direction computed by [get_up] is the opposite one. *)
Theorem get_up_flips_with_convention :
  forall (db db' : NuwaDB),
    Forall2 (fun f' f => convert_camera_pose (pose f) "cv" "gl" = inl (pose f'))
            (frames db') (frames db) ->
    get_up db' = vneg (get_up db).
Proof.
  intros db db' Hconv.
  assert (Hsum : up_sum db' = vneg (up_sum db)).
  { unfold up_sum.
    assert (Hgen : forall acc, fold_left (fun up f => vadd up (neg_y_axis (pose f)))
                                         (frames db') (vneg acc)
                               = vneg (fold_left (fun up f => vadd up (neg_y_axis (pose f)))
                                                 (frames db) acc)).
    { induction Hconv as [|f' f fs' fs Hf _ IH]; intro acc; [reflexivity|].
      cbn [fold_left]. rewrite <- IH. f_equal.
      unfold convert_camera_pose in Hf. simpl in Hf. injection Hf as <-.
      destruct acc as [a b c], (pose f) as [[? y0 ? ?] [? y1 ? ?] [? y2 ? ?] ?].
      unfold vadd, vneg, neg_y_axis.
      cbv [matmul row_times dot4 col0 col1 col2 col3 flip_yz
           v0 v1 v2 v3 row0 row1 row2 row3 vx vy vz].
      f_equal; ring. }
    specialize (Hgen (V3 0 0 0)).
    replace (vneg (V3 0 0 0)) with (V3 0 0 0) in Hgen
      by (unfold vneg; cbn [vx vy vz]; f_equal; ring).
    exact Hgen. }
  unfold get_up. cbv zeta. rewrite Hsum.
  assert (Hnorm : norm3 (vneg (up_sum db)) = norm3 (up_sum db)).
  { destruct (up_sum db) as [a b c]. unfold norm3, vneg; cbn [vx vy vz].
    f_equal. ring. }
  rewrite Hnorm. destruct (up_sum db) as [a b c].
  unfold vdiv, vneg; cbn [vx vy vz].
  f_equal; unfold Rdiv; ring.
Qed.

(** The map that [normalize_cameras] applies to every centre. *)
Lemma normalized_extremes (off : vec3) (k : R) (cs : list vec3) (lo hi : vec3) :
  0 <= k ->
  extremes cs = Some (lo, hi) ->
  extremes (map (fun c => vscale k (vsub c off)) cs)
  = Some (vscale k (vsub lo off), vscale k (vsub hi off)).
Proof.
  intros Hk Hext. destruct cs as [|c cs]; [discriminate|].
  destruct (extremes_cons c cs) as (lo0 & hi0 & E0 & Hx & HX & Hy & HY & Hz & HZ).
  rewrite E0 in Hext. injection Hext as -> ->.
  cbn [map].
  destruct (extremes_cons (vscale k (vsub c off))
                          (map (fun c => vscale k (vsub c off)) cs))
    as (lo' & hi' & E' & Hx' & HX' & Hy' & HY' & Hz' & HZ').
  rewrite E'.
  assert (Hcoord : forall (p : vec3 -> R),
             (forall v, p (vscale k (vsub v off)) = (p v - p off) * k) ->
             forall a a' b b',
               np_min (map p (c :: cs)) = Some a ->
               np_max (map p (c :: cs)) = Some b ->
               np_min (map p (vscale k (vsub c off)
                               :: map (fun c => vscale k (vsub c off)) cs)) = Some a' ->
               np_max (map p (vscale k (vsub c off)
                               :: map (fun c => vscale k (vsub c off)) cs)) = Some b' ->
               a' = (a - p off) * k /\ b' = (b - p off) * k).
  { intros p Hp a a' b b' Ha Hb Ha' Hb'.
    change (vscale k (vsub c off) :: map (fun c => vscale k (vsub c off)) cs)
      with (map (fun c => vscale k (vsub c off)) (c :: cs)) in Ha', Hb'.
    rewrite map_map in Ha', Hb'.
    rewrite (map_ext _ (fun v => (p v - p off) * k) Hp) in Ha', Hb'.
    rewrite <- (map_map p (fun x => (x - p off) * k)) in Ha', Hb'.
    rewrite (np_min_map (fun x => (x - p off) * k) _ a) in Ha';
      [|intros u v Huv; nra|exact Ha].
    rewrite (np_max_map (fun x => (x - p off) * k) _ b) in Hb';
      [|intros u v Huv; nra|exact Hb].
    split; congruence. }
  destruct (Hcoord vx (fun v => eq_refl) _ _ _ _ Hx HX Hx' HX') as [Ex EX].
  destruct (Hcoord vy (fun v => eq_refl) _ _ _ _ Hy HY Hy' HY') as [Ey EY].
  destruct (Hcoord vz (fun v => eq_refl) _ _ _ _ Hz HZ Hz' HZ') as [Ez EZ].
  destruct lo' as [a1 a2 a3], hi' as [b1 b2 b3]. cbn [vx vy vz] in *.
  subst. reflexivity.
Qed.

Lemma normalized_max_norm (off : vec3) (s m : R) (cs : list vec3) :
  0 < s -> 0 < m ->
  np_max (map (fun c => norm3 (vsub c off)) cs) = Some m ->
  np_max (map norm3 (map (fun c => vscale (s / m) (vsub c off)) cs)) = Some s.
Proof.
  intros Hs Hm Hmax.
  assert (Hk : 0 < s / m) by (now apply Rdiv_lt_0_compat).
  rewrite map_map.
  rewrite (map_ext _ (fun c => s / m * norm3 (vsub c off)))
    by (intro c; apply norm3_vscale; lra).
  rewrite <- (map_map (fun c => norm3 (vsub c off)) (Rmult (s / m))).
  rewrite (np_max_map (Rmult (s / m)) _ m); [|intros a b Hab; nra|exact Hmax].
  f_equal. field. lra.
Qed.

(** The successful run of [normalize_cameras], with the extremes, the
    offset and the positive scale it uses. *)
Lemma normalize_cameras_shape (positive_z : bool) (s : R) (db : NuwaDB)
    (rc : Reconstruction) :
  colmap_reconstruction db = Some rc ->
  0 < s ->
  (exists f g, In f (frames db) /\ In g (frames db) /\
               center (pose f) <> center (pose g)) ->
  exists lo hi m,
    extremes (db_centers db) = Some (lo, hi) /\
    0 < m /\
    np_max (map (fun c => norm3 (vsub c (offset_of positive_z lo hi))) (db_centers db))
      = Some m /\
    normalize_cameras positive_z s db
    = (None,
       with_state db
         (map (normalized_frame (offset_of positive_z lo hi) (s / m)) (frames db))
         (Some (world_scale (s / m)
                  (world_translate (vneg (offset_of positive_z lo hi)) rc)))).
Proof.
  intros Hrc Hs Hdiff.
  assert (Hfs : frames db <> []).
  { destruct Hdiff as (f & _ & Hf & _). intro E. now rewrite E in Hf. }
  destruct (normalize_cameras_runs positive_z s db rc Hrc Hfs)
    as (off & m & Hoff & Hm & Hrun).
  pose proof (centered_max_norm_pos positive_z db m Hm Hdiff) as Hmpos.
  unfold db_centered_max_norm in Hm. rewrite Hoff in Hm.
  unfold max_center_norm in Hm. rewrite centered_norms in Hm.
  unfold db_offset in Hoff.
  destruct (extremes (db_centers db)) as [[lo hi]|] eqn:Eext; [|discriminate].
  injection Hoff as <-.
  exists lo, hi, m. repeat split; assumption.
Qed.

(** X12: after a successful [normalize_cameras] (reconstruction attached,
    positive scale factor, two centres that differ), with [positive_z] the
    lowest updated centre has z = 0, so that no camera lies below the plane
    z = 0; without [positive_z] the bounding interval of the updated z is
    centred on 0. *)
Theorem normalize_cameras_z_range :
  forall (positive_z : bool) (s : R) (db : NuwaDB) (rc : Reconstruction),
    colmap_reconstruction db = Some rc ->
    0 < s ->
    (exists f g, In f (frames db) /\ In g (frames db) /\
                 center (pose f) <> center (pose g)) ->
    let zs := map vz (db_centers (snd (normalize_cameras positive_z s db))) in
    (positive_z = true -> np_min zs = Some 0 /\ forall z, In z zs -> 0 <= z) /\
    (positive_z = false -> midpoint zs = Some 0).
Proof.
  intros positive_z s db rc Hrc Hs Hdiff. cbv zeta.
  destruct (normalize_cameras_shape positive_z s db rc Hrc Hs Hdiff)
    as (lo & hi & m & Hext & Hm & _ & ->).
  assert (Hk : 0 <= s / m) by (left; now apply Rdiv_lt_0_compat).
  unfold db_centers. cbn [snd frames with_state].
  rewrite db_centers_normalized. fold (db_centers db).
  pose proof (normalized_extremes (offset_of positive_z lo hi) (s / m) _ lo hi Hk Hext)
    as Hext'.
  set (cs' := map (fun c => vscale (s / m) (vsub c (offset_of positive_z lo hi)))
                  (db_centers db)) in *.
  unfold extremes in Hext'.
  destruct (np_min (map vx cs')) as [x1|]; [|discriminate].
  destruct (np_min (map vy cs')) as [y1|]; [|discriminate].
  destruct (np_min (map vz cs')) as [z1|] eqn:Ez1; [|discriminate].
  destruct (np_max (map vx cs')) as [x2|]; [|discriminate].
  destruct (np_max (map vy cs')) as [y2|]; [|discriminate].
  destruct (np_max (map vz cs')) as [z2|] eqn:Ez2; [|discriminate].
  injection Hext' as _ _ Hz1 _ _ Hz2.
  split; intros ->; cbn [offset_of vz] in Hz1, Hz2.
  - assert (E0 : z1 = 0) by (rewrite Hz1; ring).
    rewrite E0 in Ez1. split; [now f_equal|].
    intros z Hz. apply (np_min_le _ _ _ Ez1 Hz).
  - unfold midpoint. rewrite Ez1, Ez2. f_equal. rewrite Hz1, Hz2. field. lra.
Qed.


(** X13: a successful [normalize_cameras] is a similarity of the camera
    centres: there is one positive factor k by which the distance between
    any two centres is multiplied. *)
Theorem normalize_cameras_is_similarity :
  forall (positive_z : bool) (s : R) (db : NuwaDB) (rc : Reconstruction),
    colmap_reconstruction db = Some rc ->
    0 < s ->
    (exists f g, In f (frames db) /\ In g (frames db) /\
                 center (pose f) <> center (pose g)) ->
    exists k, 0 < k /\
      forall i j a b a' b',
        nth_error (db_centers db) i = Some a ->
        nth_error (db_centers db) j = Some b ->
        nth_error (db_centers (snd (normalize_cameras positive_z s db))) i = Some a' ->
        nth_error (db_centers (snd (normalize_cameras positive_z s db))) j = Some b' ->
        dist3 a' b' = k * dist3 a b.
Proof.
  intros positive_z s db rc Hrc Hs Hdiff.
  destruct (normalize_cameras_shape positive_z s db rc Hrc Hs Hdiff)
    as (lo & hi & m & _ & Hm & _ & ->).
  assert (Hk : 0 < s / m) by (now apply Rdiv_lt_0_compat).
  exists (s / m). split; [exact Hk|].
  unfold db_centers at 3 4. cbn [snd frames with_state].
  rewrite db_centers_normalized. fold (db_centers db).
  intros i j a b a' b' Ha Hb Ha' Hb'.
  rewrite nth_error_map, Ha in Ha'. rewrite nth_error_map, Hb in Hb'.
  cbn [option_map] in Ha', Hb'. injection Ha' as <-. injection Hb' as <-.
  unfold dist3. rewrite <- norm3_vscale by lra.
  f_equal. destruct a, b, (offset_of positive_z lo hi).
  unfold vsub, vscale; cbn [vx vy vz]. f_equal; ring.
Qed.

Lemma norm3_vsub_zero (c : vec3) : norm3 (vsub c (V3 0 0 0)) = norm3 c.
Proof.
  destruct c as [x y z]. unfold norm3, vsub; cbn [vx vy vz].
  f_equal. ring.
Qed.

(** X14: [normalize_cameras] is idempotent on the frames: run again with the
    same arguments on its own successful result, it returns and leaves every
    frame as it is. *)
Theorem normalize_cameras_idempotent :
  forall (positive_z : bool) (s : R) (db : NuwaDB) (rc : Reconstruction),
    colmap_reconstruction db = Some rc ->
    0 < s ->
    (exists f g, In f (frames db) /\ In g (frames db) /\
                 center (pose f) <> center (pose g)) ->
    let db' := snd (normalize_cameras positive_z s db) in
    fst (normalize_cameras positive_z s db') = None /\
    frames (snd (normalize_cameras positive_z s db')) = frames db'.
Proof.
  intros positive_z s db rc Hrc Hs Hdiff. cbv zeta.
  destruct (normalize_cameras_shape positive_z s db rc Hrc Hs Hdiff)
    as (lo & hi & m & Hext & Hm & Hmax & ->).
  cbn [snd].
  set (off := offset_of positive_z lo hi) in *.
  set (k := s / m) in *.
  assert (Hk : 0 < k) by (now apply Rdiv_lt_0_compat).
  set (db' := with_state db (map (normalized_frame off k) (frames db))
                (Some (world_scale k (world_translate (vneg off) rc)))).
  assert (Hfs : frames db <> []).
  { destruct Hdiff as (f & _ & Hf & _). intro E. now rewrite E in Hf. }
  assert (Hfs' : frames db' <> []).
  { unfold db'; cbn [frames with_state]. destruct (frames db); [congruence|discriminate]. }
  destruct (normalize_cameras_runs positive_z s db' _ eq_refl Hfs')
    as (off' & m' & Hoff' & Hm' & Hrun').
  assert (Hcs' : db_centers db' = map (fun c => vscale k (vsub c off)) (db_centers db)).
  { unfold db_centers, db'; cbn [frames with_state]. apply db_centers_normalized. }
  assert (Eoff' : off' = V3 0 0 0).
  { unfold db_offset in Hoff'. rewrite Hcs' in Hoff'.
    rewrite (normalized_extremes off k _ lo hi (Rlt_le _ _ Hk) Hext) in Hoff'.
    injection Hoff' as <-.
    unfold off, offset_of, vscale, vsub. destruct positive_z; cbn [vx vy vz];
      f_equal; field. }
  subst off'.
  assert (Em' : m' = s).
  { unfold db_centered_max_norm in Hm'. rewrite Hoff' in Hm'.
    unfold max_center_norm in Hm'. rewrite centered_norms in Hm'.
    fold (db_centers db') in Hm'.
    rewrite (map_ext _ norm3 norm3_vsub_zero) in Hm'.
    rewrite Hcs' in Hm'.
    unfold k in Hm'. rewrite (normalized_max_norm off s m _ Hs Hm Hmax) in Hm'.
    congruence. }
  subst m'. rewrite Hrun'. cbn [fst snd frames with_state].
  split; [reflexivity|].
  unfold db'; cbn [frames with_state]. rewrite map_map.
  apply map_ext. intro f.
  unfold normalized_frame, with_pose, set_center, set_v3, vscale, vsub, center;
    cbn [pose image_path org_path mask_path camera row0 row1 row2 row3
         v0 v1 v2 v3 vx vy vz].
  f_equal. f_equal; f_equal; field; lra.
Qed.

End WithReconstruction.


(** ** Instances *)

Import Samples MoreSamples.

Lemma three_cameras_up_sum : up_sum three_cameras = V3 0 (-3) 0.
Proof.
  unfold up_sum, three_cameras, vadd, neg_y_axis; simpl.
  f_equal; ring.
Qed.

Lemma get_up_is_unit_witness : norm3 (get_up three_cameras) = 1.
Proof.
  apply (get_up_is_unit three_cameras).
  rewrite three_cameras_up_sum. intros [= H]. lra.
Defined.

(** [three_cameras] with every pose converted from "cv" to "gl". *)
Lemma get_up_flips_with_convention_witness :
  get_up (@mkDB point_cloud "colmap"
            (map (fun f => with_pose f (pose f @@ flip_yz)) (frames three_cameras))
            (Some []))
  = vneg (get_up three_cameras).
Proof.
  apply (get_up_flips_with_convention three_cameras).
  repeat constructor.
Defined.

Lemma normalize_cameras_z_range_witness :
  (true = true ->
   np_min (map vz (db_centers (snd (normalize_cameras true 1 three_cameras)))) = Some 0 /\
   forall z, In z (map vz (db_centers (snd (normalize_cameras true 1 three_cameras)))) ->
             0 <= z) /\
  (true = false ->
   midpoint (map vz (db_centers (snd (normalize_cameras true 1 three_cameras))))
   = Some 0).
Proof.
  apply (normalize_cameras_z_range true 1 three_cameras []).
  - reflexivity.
  - lra.
  - exact three_cameras_differ.
Defined.

Lemma normalize_cameras_is_similarity_witness :
  exists k, 0 < k /\
    forall i j a b a' b',
      nth_error (db_centers three_cameras) i = Some a ->
      nth_error (db_centers three_cameras) j = Some b ->
      nth_error (db_centers (snd (normalize_cameras false 2 three_cameras))) i = Some a' ->
      nth_error (db_centers (snd (normalize_cameras false 2 three_cameras))) j = Some b' ->
      dist3 a' b' = k * dist3 a b.
Proof.
  apply (normalize_cameras_is_similarity false 2 three_cameras []).
  - reflexivity.
  - lra.
  - exact three_cameras_differ.
Defined.

Lemma normalize_cameras_idempotent_witness :
  fst (normalize_cameras true 1 (snd (normalize_cameras true 1 three_cameras))) = None /\
  frames (snd (normalize_cameras true 1 (snd (normalize_cameras true 1 three_cameras))))
  = frames (snd (normalize_cameras true 1 three_cameras)).
Proof.
  apply (normalize_cameras_idempotent true 1 three_cameras []).
  - reflexivity.
  - lra.
  - exact three_cameras_differ.
Defined.

End NormalizeMoreSpec.

(** * Further properties of the masking loop *)
Module MaskingMoreSpec.

Import DB DBMask MaskingSpec.

(** ** Truncation and the order of a box *)

Lemma Qmin_max_ordered (l : list Q) (mn mx : Q) :
  Qmin_max l = Some (mn, mx) -> (mn <= mx)%Q.
Proof.
  destruct l as [|x xs]; [discriminate|]. intros [= <- <-].
  apply Qle_trans with x.
  - apply Qmin_list_le. now left.
  - apply Qmax_list_ge. now left.
Qed.

Lemma box_of_pixels_ordered {vision : Vision} (r : Z) (s : Q)
    (fg : list (Q * Q)) (b : bbox) :
  (0 <= r)%Z -> (0 <= s)%Q ->
  box_of_pixels r s fg = inl b -> box_ordered b.
Proof.
  intros Hr Hs. unfold box_of_pixels.
  destruct (Qmin_max (map fst fg)) as [[xmin xmax]|] eqn:Ex; [|discriminate].
  destruct (Qmin_max (map snd fg)) as [[ymin ymax]|] eqn:Ey; [|discriminate].
  intros [= <-]. unfold box_ordered.
  apply Qmin_max_ordered in Ex, Ey.
  assert (Hgrow : forall lo hi : Q, (lo <= hi)%Q ->
             let m := round_scalar (round_array (hi - lo) * round_scalar s) in
             (round_scalar (lo - m) <= round_scalar (hi + m))%Q).
  { intros lo hi Hle m.
    assert (Hm : (0 <= m)%Q).
    { apply margin_nonneg; [|exact Hs].
      apply to_nearest_nonneg; [apply round_array_nearest | Lqa.lra]. }
    apply (proj1 round_scalar_nearest). revert Hm. generalize m. intros t Ht.
    Lqa.lra. }
  split; apply Z.mul_le_mono_nonneg_r; try exact Hr; apply py_int_le; now apply Hgrow.
Qed.

(** ** Where the flow field ends *)

Lemma warp_none {vision : Vision} (flow : flow_field) (px : list (nat * nat)) :
  warp flow px = None <-> exists y x, In (y, x) px /\ flow_at flow y x = None.
Proof.
  induction px as [|[y x] px IH]; cbn [warp].
  - split; [discriminate | intros (? & ? & [] & _)].
  - destruct (flow_at flow y x) as [[dx dy]|] eqn:Ef.
    + destruct (warp flow px) as [rest|].
      * split; [discriminate|]. intros (y' & x' & [[= <- <-]|Hin] & Hnone).
        -- congruence.
        -- assert (Hbad : Some rest = None) by (apply IH; eauto).
           discriminate Hbad.
      * split; [|reflexivity]. intros _.
        destruct (proj1 IH eq_refl) as (y' & x' & Hin & Hnone).
        exists y', x'. split; [now right | exact Hnone].
    + split; [|reflexivity]. intros _. exists y, x. split; [now left | exact Ef].
Qed.

Section WithVision.

Context {vision : Vision}.

(** ** The loop over the frames *)

Lemma masking_loop_extends (r : Z) (s : Q) (all : list image) (todo : list image) :
  forall (i : nat) (masks : list mask) (boxes : list bbox)
         (ms : list mask) (bs : list bbox),
    masking_loop r s all i todo masks boxes = inl (ms, bs) ->
    exists ms' bs',
      ms = masks ++ ms' /\ bs = boxes ++ bs' /\
      List.length ms' = List.length todo /\
      List.length bs' = (if Nat.eqb i 0 then List.length todo - 1 else List.length todo)%nat.
Proof.
  induction todo as [|img todo IH]; intros i masks boxes ms bs Hrun;
    cbn [masking_loop] in Hrun.
  - injection Hrun as <- <-. exists [], []. rewrite !app_nil_r.
    now destruct (Nat.eqb i 0).
  - destruct (Nat.eqb_spec i 0) as [->|Hi].
    + destruct (IH _ _ _ _ _ Hrun) as (ms' & bs' & -> & -> & Hms & Hbs).
      exists (sam img (segment_img img) :: ms'), bs'.
      rewrite <- app_assoc. cbn [Nat.eqb] in Hbs. simpl. repeat split; lia.
    + destruct (nth_error all (i - 1)) as [prev_img|]; [|discriminate].
      destruct (nth_error masks (i - 1)) as [prev_mask|]; [|discriminate].
      destruct (propagate_frame r s prev_img img prev_mask) as [[b m]|e];
        [|discriminate].
      destruct (IH _ _ _ _ _ Hrun) as (ms' & bs' & -> & -> & Hms & Hbs).
      exists (m :: ms'), (b :: bs'). rewrite <- !app_assoc.
      cbn [Nat.eqb] in Hbs. simpl. repeat split; lia.
Qed.

(** The loop over [todo1 ++ todo2] is the loop over [todo1] followed, when
    it succeeds, by the loop over [todo2]; the pictures before the end of
    [todo1] are all that the first part reads. *)
Lemma masking_loop_app (r : Z) (s : Q) (all1 all2 : list image)
    (todo1 todo2 : list image) :
  forall (i : nat) (masks : list mask) (boxes : list bbox),
    (forall j, (j < i + List.length todo1)%nat -> nth_error all1 j = nth_error all2 j) ->
    masking_loop r s all2 i (todo1 ++ todo2) masks boxes
    = match masking_loop r s all1 i todo1 masks boxes with
      | inr e => inr e
      | inl (ms1, bs1) =>
          masking_loop r s all2 (i + List.length todo1) todo2 ms1 bs1
      end.
Proof.
  induction todo1 as [|img todo1 IH]; intros i masks boxes Hagree.
  - cbn [app masking_loop List.length]. now rewrite Nat.add_0_r.
  - cbn [app masking_loop List.length] in *.
    destruct (Nat.eqb i 0).
    + rewrite IH by (intros j Hj; apply Hagree; lia).
      now rewrite <- plus_n_Sm.
    + rewrite <- (Hagree (i - 1)%nat) by lia.
      destruct (nth_error all1 (i - 1)) as [prev_img|]; [|reflexivity].
      destruct (nth_error masks (i - 1)) as [prev_mask|]; [|reflexivity].
      destruct (propagate_frame r s prev_img img prev_mask) as [[b m]|e];
        [|reflexivity].
      rewrite IH by (intros j Hj; apply Hagree; lia).
      now rewrite <- plus_n_Sm.
Qed.

Lemma calculate_masks_app (r : Z) (s : Q) (imgs more : list image) :
  calculate_masks r s (imgs ++ more)
  = match calculate_masks r s imgs with
    | inr e => inr e
    | inl (ms1, bs1) =>
        masking_loop r s (imgs ++ more) (List.length imgs) more ms1 bs1
    end.
Proof.
  unfold calculate_masks.
  rewrite (masking_loop_app r s imgs (imgs ++ more) imgs more 0 [] []).
  - reflexivity.
  - intros j Hj. symmetry. apply nth_error_app1. exact Hj.
Qed.

(** X15: a completed run yields one mask per frame and one box per frame
    after the first; the first mask is what [sam] makes of the rough mask of
    [segment_img]; on no frame at all the run returns no mask and no box. *)
Theorem calculate_masks_shape :
  forall (r : Z) (s : Q) (imgs : list image),
    calculate_masks r s [] = inl ([], []) /\
    forall masks boxes,
      calculate_masks r s imgs = inl (masks, boxes) ->
      List.length masks = List.length imgs /\
      List.length boxes = (List.length imgs - 1)%nat /\
      forall img0, nth_error imgs 0 = Some img0 ->
                   nth_error masks 0 = Some (sam img0 (segment_img img0)).
Proof.
  intros r s imgs. split; [reflexivity|].
  intros masks boxes Hrun.
  destruct (masking_loop_extends r s imgs imgs 0 [] [] masks boxes Hrun)
    as (ms' & bs' & -> & -> & Hms & Hbs).
  cbn [app Nat.eqb] in *. repeat split; try assumption.
  intros img0 H0. destruct imgs as [|i0 imgs]; [discriminate|].
  injection H0 as <-. unfold calculate_masks in Hrun.
  cbn [masking_loop Nat.eqb app] in Hrun.
  destruct (masking_loop_extends _ _ _ _ _ _ _ _ _ Hrun)
    as (ms2 & bs2 & E & _).
  rewrite E. reflexivity.
Qed.

(** X16: the masks and boxes of the first frames do not depend on the frames
    that follow: when the run over [imgs ++ more] completes, so does the run
    over [imgs], and its masks and boxes are the first ones of the longer
    run. *)
Theorem calculate_masks_prefix :
  forall (r : Z) (s : Q) (imgs more : list image) (ms : list mask) (bs : list bbox),
    calculate_masks r s (imgs ++ more) = inl (ms, bs) ->
    calculate_masks r s imgs
    = inl (firstn (List.length imgs) ms, firstn (List.length imgs - 1) bs).
Proof.
  intros r s imgs more ms bs Hrun.
  rewrite calculate_masks_app in Hrun.
  destruct (calculate_masks r s imgs) as [[ms1 bs1]|e] eqn:E1; [|discriminate].
  destruct (calculate_masks_shape r s imgs) as [_ Hshape].
  destruct (Hshape ms1 bs1 E1) as (Hlen1 & Hlen2 & _).
  destruct (masking_loop_extends _ _ _ _ _ _ _ _ _ Hrun)
    as (ms' & bs' & -> & -> & _).
  rewrite <- Hlen2, <- Hlen1.
  rewrite !firstn_app, !firstn_all, !Nat.sub_diag. cbn [firstn].
  now rewrite !app_nil_r.
Qed.

(** X17: a frame that makes the run raise makes every longer run raise the
    same exception: no later frame is processed and no mask is returned. *)
Theorem calculate_masks_failure_is_final :
  forall (r : Z) (s : Q) (imgs more : list image) (e : exn),
    calculate_masks r s imgs = inr e ->
    calculate_masks r s (imgs ++ more) = inr e.
Proof.
  intros r s imgs more e Hfail. rewrite calculate_masks_app. now rewrite Hfail.
Qed.

(** X18: with a non-negative reduce factor and a non-negative shrink
    fraction, no box handed to the segmentation service is inverted:
    xmin <= xmax and ymin <= ymax in every box of a completed run. *)
Theorem boxes_are_ordered :
  forall (r : Z) (s : Q) (imgs : list image) (masks : list mask) (boxes : list bbox),
    (0 <= r)%Z -> (0 <= s)%Q ->
    calculate_masks r s imgs = inl (masks, boxes) ->
    Forall box_ordered boxes.
Proof.
  intros r s imgs masks boxes Hr Hs Hrun.
  destruct (calculate_masks_steps r s imgs masks boxes Hrun) as [_ Hsteps].
  destruct (calculate_masks_shape r s imgs) as [_ Hshape].
  destruct (Hshape masks boxes Hrun) as (_ & Hlen & _).
  apply Forall_forall. intros b Hb.
  apply In_nth_error in Hb as [j Hj].
  assert (Hjlt : (j < List.length boxes)%nat) by (now apply nth_error_lt in Hj).
  destruct (Hsteps (S j)) as (pi & img & pm & b' & m & _ & _ & _ & Hb' & _ & Hstep);
    [lia | lia |].
  replace (S j - 1)%nat with j in Hb' by lia.
  rewrite Hj in Hb'. injection Hb' as <-.
  unfold propagate_frame, propagation_bbox in Hstep.
  destruct (warp _ _) as [fg|]; [|discriminate].
  destruct (box_of_pixels r s fg) as [b0|e] eqn:Ebox; [|discriminate].
  injection Hstep as <- _.
  now apply (box_of_pixels_ordered r s fg).
Qed.

(** X19: the bounding-box step raises [IndexError] exactly when some
    foreground pixel of the downsampled previous mask has no entry in the
    flow field; together with the empty-mask case these are its only
    exceptions. *)
Theorem bbox_step_errors :
  forall (r : Z) (s : Q) (ref_mask : mask) (flow : flow_field),
    (propagation_bbox r s ref_mask flow = inr IndexError <->
     exists y x, In (y, x) (nonzero ref_mask) /\ flow_at flow y x = None) /\
    (forall e, propagation_bbox r s ref_mask flow = inr e ->
               e = IndexError \/ e = ValueError).
Proof.
  intros r s ref_mask flow. unfold propagation_bbox. split.
  - rewrite <- warp_none.
    destruct (warp flow (nonzero ref_mask)) as [fg|]; [|tauto].
    split; [|discriminate].
    intro H. apply box_of_pixels_error in H as [_ H]. discriminate.
  - intros e. destruct (warp flow (nonzero ref_mask)) as [fg|].
    + intro H. apply box_of_pixels_error in H as [_ ->]. now right.
    + intros [= <-]. now left.
Qed.

End WithVision.


(** ** Instances *)

Import Samples.

Lemma calculate_masks_prefix_witness :
  @calculate_masks still_scene 2 (1 # 50) two_pictures
  = inl (firstn (List.length two_pictures)
                [full_mask 4 4; full_mask 4 4; full_mask 4 4],
         firstn (List.length two_pictures - 1) [(0, 0, 2, 2); (0, 0, 2, 2)]%Z).
Proof.
  apply (@calculate_masks_prefix still_scene 2 (1 # 50) two_pictures [(4, 4)%nat]).
  vm_compute. reflexivity.
Defined.

Lemma calculate_masks_failure_is_final_witness :
  @calculate_masks blank_scene 2 (1 # 50) (two_pictures ++ [(4, 4)%nat])
  = inr ValueError.
Proof.
  apply (@calculate_masks_failure_is_final blank_scene 2 (1 # 50) two_pictures).
  vm_compute. reflexivity.
Defined.

Lemma boxes_are_ordered_witness :
  Forall box_ordered [(18, 0, 22, 2); (18, 0, 22, 2)]%Z.
Proof.
  apply (@boxes_are_ordered sliding_scene 2 (1 # 50) three_pictures
           [full_mask 4 4; full_mask 4 4; full_mask 4 4]).
  - lia.
  - discriminate.
  - vm_compute. reflexivity.
Defined.

End MaskingMoreSpec.

(** * Further properties of the camera-adjustment stage and of the whole call *)
Module WholeCallSpec.

Import PoseUtils DB DBMask NormalizeSpec AdjustSpec MaskingSpec MaskingMoreSpec.

(** ** Numbered file names *)

Lemma append_assoc3 (a b c : string) : ((a ++ b) ++ c = a ++ (b ++ c))%string.
Proof. induction a as [|x a IH]; simpl; [reflexivity | now rewrite IH]. Qed.

Lemma append_length (a b : string) :
  String.length (a ++ b) = (String.length a + String.length b)%nat.
Proof. induction a as [|x a IH]; simpl; [reflexivity | now rewrite IH]. Qed.

Lemma append_cancel_l (d a b : string) : (d ++ a = d ++ b)%string -> a = b.
Proof. induction d as [|x d IH]; simpl; [auto | intros [= H]; auto]. Qed.

Lemma append_cancel_r (c : string) :
  forall a b : string, (a ++ c = b ++ c)%string -> a = b.
Proof.
  induction a as [|x a IH]; intros [|y b] H; simpl in H.
  - reflexivity.
  - apply (f_equal String.length) in H. simpl in H. rewrite append_length in H. lia.
  - apply (f_equal String.length) in H. simpl in H. rewrite append_length in H. lia.
  - injection H as -> H. f_equal. now apply IH.
Qed.

Lemma path_join_prefix (d : string) :
  exists p, forall name, path_join d name = (p ++ name)%string.
Proof.
  unfold path_join. destruct d as [|c d].
  - exists EmptyString. reflexivity.
  - destruct (String.eqb _ "/").
    + eexists. reflexivity.
    + exists (String c d ++ "/")%string. intro name. now rewrite append_assoc3.
Qed.

Lemma parse_index_zeros (k : nat) (s : string) :
  parse_index (zeros k ++ s) = parse_index s.
Proof.
  induction k as [|k IH]; [reflexivity|].
  unfold parse_index in *. cbn [zeros append NilEmpty.uint_of_string].
  rewrite <- IH.
  destruct (NilEmpty.uint_of_string (zeros k ++ s)) as [d|]; reflexivity.
Qed.

Lemma parse_index_fmt06d (i : nat) : parse_index (fmt06d i) = Some i.
Proof.
  unfold fmt06d. cbv zeta. rewrite parse_index_zeros.
  unfold parse_index. rewrite NilEmpty.usu. simpl.
  now rewrite DecimalNat.Unsigned.of_to.
Qed.

(** X20: the zero-padded number of a file name reads back as the index it
    was made from, whatever its size, and under one directory the numbered
    paths of two indices are equal exactly when the indices are. *)
Theorem numbered_png_injective :
  forall (dir : string) (i j : nat),
    parse_index (fmt06d i) = Some i /\
    (numbered_png dir i = numbered_png dir j <-> i = j).
Proof.
  intros dir i j. split; [apply parse_index_fmt06d|].
  split; [|now intros ->].
  unfold numbered_png. destruct (path_join_prefix dir) as [p Hp].
  rewrite !Hp. intro H. apply append_cancel_l, append_cancel_r in H.
  apply (f_equal parse_index) in H. rewrite !parse_index_fmt06d in H. congruence.
Qed.


(** ** The update loop on pinhole frames *)

Lemma Forall2_nth_error {A B : Type} (R : A -> B -> Prop) (l1 : list A) (l2 : list B) :
  Forall2 R l1 l2 ->
  forall j a, nth_error l1 j = Some a -> exists b, nth_error l2 j = Some b /\ R a b.
Proof.
  induction 1 as [|x y l1 l2 Hxy _ IH]; intros [|j] a Hj; try discriminate.
  - injection Hj as <-. exists y. auto.
  - apply (IH j a Hj).
Qed.

Lemma update_info_all (dir : string) (w0 h0 : Z) (poses : list mat4)
    (ks : list mat3) (fs : list Frame) :
  forall i : nat,
    Forall (fun x => is_pinhole x = true) fs ->
    (i + List.length fs <= List.length poses)%nat ->
    (i + List.length fs <= List.length ks)%nat ->
    exists fs',
      update_info dir w0 h0 poses ks i fs = (None, fs') /\
      List.length fs' = List.length fs /\
      forall j f, nth_error fs j = Some f ->
        exists p k, nth_error poses (i + j) = Some p /\
                    nth_error ks (i + j) = Some k /\
                    nth_error fs' j = Some (updated_frame dir w0 h0 p k (i + j) f).
Proof.
  induction fs as [|g fs IH]; intros i Hpin Hps Hks.
  - exists []. repeat split. intros [|j] f; discriminate.
  - inversion Hpin as [|? ? Hg Hrest]; subst. simpl in Hps, Hks.
    destruct (nth_error poses i) as [p|] eqn:Ep;
      [|apply nth_error_None in Ep; lia].
    destruct (nth_error ks i) as [k|] eqn:Ek;
      [|apply nth_error_None in Ek; lia].
    destruct (IH (S i) Hrest) as (fs' & Hrun & Hlen & Hnth); [lia|lia|].
    exists (updated_frame dir w0 h0 p k i g :: fs').
    split; [|split].
    + cbn [update_info]. rewrite Hg. cbn [negb]. rewrite Ep, Ek, Hrun. reflexivity.
    + simpl. now rewrite Hlen.
    + intros [|j] f Hj.
      * injection Hj as <-. exists p, k. rewrite Nat.add_0_r. auto.
      * destruct (Hnth j f Hj) as (p' & k' & ? & ? & ?).
        exists p', k'. rewrite <- plus_n_Sm. auto.
Qed.

Lemma set_mask_paths_all (dir : string) (masks : list mask) :
  forall (i : nat) (fs : list Frame),
    List.length masks = List.length fs ->
    exists fs',
      set_mask_paths dir i masks fs = (None, fs') /\
      List.length fs' = List.length fs /\
      forall j f, nth_error fs j = Some f ->
                  nth_error fs' j = Some (with_mask_path f (numbered_png dir (i + j))).
Proof.
  induction masks as [|m masks IH]; intros i [|f fs] Hlen; try discriminate.
  - exists []. repeat split. intros [|j] f; discriminate.
  - injection Hlen as Hlen.
    destruct (IH (S i) fs Hlen) as (fs' & Hrun & Hlen' & Hnth).
    exists (with_mask_path f (numbered_png dir i) :: fs').
    cbn [set_mask_paths]. rewrite Hrun. repeat split.
    + simpl. now rewrite Hlen'.
    + intros [|j] g Hj.
      * injection Hj as <-. now rewrite Nat.add_0_r.
      * rewrite <- plus_n_Sm. now apply Hnth.
Qed.

Section WithCollaborators.

Context {colmap : Colmap} {vision : Vision}.

(** The successful camera-adjustment stage. *)
Lemma adjust_stage_runs (dir : string) (images : list image) (masks : list mask)
    (db db1 : NuwaDB) (img0 : image) (rest : list image) (ks' : list mat3)
    (masks' : list mask) (h0 w0 : Z) :
  Forall (fun x => is_pinhole x = true) (frames db) ->
  normalize_cameras true 1 db = (None, db1) ->
  crop_images images masks
              (map (fun x => intrinsic_matrix (camera x)) (frames db1))
    = (img0 :: rest, ks', masks') ->
  shape img0 = (h0, w0) ->
  (List.length (frames db)
   <= List.length (scene_carving masks
                     (map (fun x => intrinsic_matrix (camera x)) (frames db1))
                     (map pose (frames db1))))%nat ->
  (List.length (frames db) <= List.length ks')%nat ->
  exists fs2,
    adjust_cameras_stage dir images masks db
      = (None, with_state db1 fs2 (colmap_reconstruction db1)) /\
    List.length fs2 = List.length (frames db) /\
    forall j f, nth_error (frames db) j = Some f ->
      exists f1 p k,
        nth_error (frames db1) j = Some f1 /\ same_but_pose f1 f /\
        nth_error (scene_carving masks
                     (map (fun x => intrinsic_matrix (camera x)) (frames db1))
                     (map pose (frames db1))) j = Some p /\
        nth_error ks' j = Some k /\
        nth_error fs2 j = Some (updated_frame dir w0 h0 p k j f1).
Proof.
  intros Hpin Hnorm Hcrop Hshape Hcarved Hks.
  destruct (normalize_cameras_frames _ _ _ _ _ Hnorm) as (ps & Hfs1).
  pose proof (write_poses_same (frames db) ps) as Hsame.
  rewrite <- Hfs1 in Hsame.
  assert (Hlen1 : List.length (frames db1) = List.length (frames db))
    by (eapply Forall2_length; eauto).
  destruct (update_info_all dir w0 h0
              (scene_carving masks
                 (map (fun x => intrinsic_matrix (camera x)) (frames db1))
                 (map pose (frames db1)))
              ks' (frames db1) 0
              (same_but_pose_pinhole _ _ Hsame Hpin))
    as (fs2 & Hrun & Hlen2 & Hnth); [simpl; lia | simpl; lia |].
  exists fs2. split; [|split].
  - unfold adjust_cameras_stage. rewrite Hnorm, Hcrop, Hshape, Hrun. reflexivity.
  - lia.
  - intros j f Hj.
    destruct (nth_error (frames db1) j) as [f1|] eqn:E1;
      [|apply nth_error_None in E1; apply nth_error_lt in Hj; lia].
    destruct (Forall2_nth_error _ _ _ Hsame j f1 E1) as (f' & Hf' & Hrel).
    rewrite Hj in Hf'. injection Hf' as <-.
    destruct (Hnth j f1 E1) as (p & k & Hp & Hk & Hf2). simpl in Hp, Hk, Hf2.
    exists f1, p, k. auto.
Qed.

(** X21: on a dataset whose frames are all pinhole (normalisation having
    succeeded, cropping having returned at least one picture, carving and
    cropping having returned a pose and a matrix per frame) the
    camera-adjustment stage returns without raising.  Frame j then has the
    image path numbered j, the j-th carved pose, the focal lengths and
    principal point of the j-th cropped matrix and, like every other frame,
    the width and height of the first cropped picture; its camera model,
    original path and mask path are kept. *)
Theorem adjust_stage_updates_every_frame :
  forall (dir : string) (images : list image) (masks : list mask)
         (db db1 : NuwaDB) (img0 : image) (rest : list image) (ks' : list mat3)
         (masks' : list mask) (h0 w0 : Z),
    Forall (fun x => is_pinhole x = true) (frames db) ->
    normalize_cameras true 1 db = (None, db1) ->
    let ks := map (fun x => intrinsic_matrix (camera x)) (frames db1) in
    let carved := scene_carving masks ks (map pose (frames db1)) in
    crop_images images masks ks = (img0 :: rest, ks', masks') ->
    shape img0 = (h0, w0) ->
    (List.length (frames db) <= List.length carved)%nat ->
    (List.length (frames db) <= List.length ks')%nat ->
    exists fs2,
      adjust_cameras_stage dir images masks db
        = (None, with_state db1 fs2 (colmap_reconstruction db1)) /\
      List.length fs2 = List.length (frames db) /\
      forall j f, nth_error (frames db) j = Some f ->
        exists f2 k,
          nth_error fs2 j = Some f2 /\
          nth_error ks' j = Some k /\
          image_path f2 = numbered_png dir j /\
          nth_error carved j = Some (pose f2) /\
          w (camera f2) = w0 /\ h (camera f2) = h0 /\
          fx (camera f2) = vx (k_row0 k) /\ fy (camera f2) = vy (k_row1 k) /\
          cx (camera f2) = vz (k_row0 k) /\ cy (camera f2) = vz (k_row1 k) /\
          camera_param_model (camera f2) = "PINHOLE"%string /\
          org_path f2 = org_path f /\ mask_path f2 = mask_path f.
Proof.
  intros dir images masks db db1 img0 rest ks' masks' h0 w0
         Hpin Hnorm ks carved Hcrop Hshape Hcarved Hks.
  destruct (adjust_stage_runs dir images masks db db1 img0 rest ks' masks' h0 w0
              Hpin Hnorm Hcrop Hshape Hcarved Hks)
    as (fs2 & Hrun & Hlen & Hnth).
  exists fs2. split; [exact Hrun|]. split; [exact Hlen|].
  intros j f Hj.
  destruct (Hnth j f Hj) as (f1 & p & k & _ & (Hcam & _ & Horg & Hmask) & Hp & Hk & Hf2).
  exists (updated_frame dir w0 h0 p k j f1), k.
  assert (Hmodel : camera_param_model (camera f) = "PINHOLE"%string).
  { rewrite Forall_forall in Hpin. apply String.eqb_eq.
    apply (Hpin f). eapply nth_error_In; eauto. }
  cbn. rewrite Hcam. repeat split; assumption.
Qed.

(** X22: the camera-adjustment stage passes on what [normalize_cameras]
    raises and leaves the dataset as it found it: [IndexError] on a dataset
    with no frame, [AttributeError] on a dataset with frames and no sparse
    reconstruction attached. *)
Theorem adjust_stage_needs_frames_and_reconstruction :
  forall (dir : string) (images : list image) (masks : list mask) (db : NuwaDB),
    (frames db = [] ->
     adjust_cameras_stage dir images masks db = (Some IndexError, db)) /\
    (frames db <> [] -> colmap_reconstruction db = None ->
     adjust_cameras_stage dir images masks db = (Some AttributeError, db)).
Proof.
  intros dir images masks db. split.
  - intro H. unfold adjust_cameras_stage, normalize_cameras. now rewrite H.
  - intros Hfs Hrc. unfold adjust_cameras_stage.
    now rewrite (normalize_cameras_without_reconstruction true 1 db Hrc Hfs).
Qed.


(** ** The whole call *)

Variable Image_open : string -> image.

Variable abspath : string -> string.

(** X23: when the masking loop raises, [calculate_object_mask] raises the
    same exception and leaves the dataset untouched.  When it completes and
    [adjust_cameras] is off, the call returns the masks of the loop; every
    frame gets the mask path numbered by its index under the absolute path
    of the mask directory, its original path is moved under the absolute
    path of the masked-image directory exactly when [copy_org] is on, and
    its pose, camera and image path are kept, as is the reconstruction. *)
Theorem calculate_object_mask_without_adjustment :
  forall (mask_dir image_dir : string) (r : Z) (s : Q)
         (adjust_cameras copy_org : bool) (db : NuwaDB),
    let images := map (fun f => Image_open (image_path f)) (frames db) in
    (forall e, calculate_masks r s images = inr e ->
       calculate_object_mask Image_open abspath mask_dir image_dir r s
                             adjust_cameras copy_org db
       = (inr e, db)) /\
    (forall masks boxes, calculate_masks r s images = inl (masks, boxes) ->
       exists fs',
         calculate_object_mask Image_open abspath mask_dir image_dir r s
                               false copy_org db
         = (inl masks, with_state db fs' (colmap_reconstruction db)) /\
         List.length fs' = List.length (frames db) /\
         forall j f, nth_error (frames db) j = Some f ->
           nth_error fs' j
           = Some (with_mask_path
                     (if copy_org then relocate_org (abspath image_dir) f else f)
                     (numbered_png (abspath mask_dir) j))).
Proof.
  intros mask_dir image_dir r s adjust_cameras copy_org db images. split.
  - intros e He. unfold calculate_object_mask. fold images. now rewrite He.
  - intros masks boxes Hrun.
    destruct (calculate_masks_shape r s images) as [_ Hshape].
    destruct (Hshape masks boxes Hrun) as (Hlen & _).
    unfold images in Hlen. rewrite length_map in Hlen.
    unfold calculate_object_mask. fold images. rewrite Hrun.
    destruct copy_org.
    + cbn [frames with_state colmap_reconstruction].
      destruct (set_mask_paths_all (abspath mask_dir) masks 0
                  (map (relocate_org (abspath image_dir)) (frames db)))
        as (fs' & Hset & Hlen' & Hnth); [now rewrite length_map|].
      rewrite Hset. exists fs'. split; [reflexivity|].
      split; [now rewrite Hlen', length_map|].
      intros j f Hj. apply (Hnth j). now rewrite nth_error_map, Hj.
    + destruct (set_mask_paths_all (abspath mask_dir) masks 0 (frames db) Hlen)
        as (fs' & Hset & Hlen' & Hnth).
      rewrite Hset. exists fs'. split; [reflexivity|].
      split; [exact Hlen'|]. intros j f Hj. now apply (Hnth j).
Qed.

(** X24: with [adjust_cameras] on (its default) and no sparse reconstruction
    attached (the default of the class), a call whose masking loop completes
    on at least one frame raises [AttributeError]: no mask path is set and
    no mask is returned; only the original paths have been moved under the
    absolute path of the masked-image directory, when [copy_org] is on. *)
Theorem calculate_object_mask_needs_reconstruction :
  forall (mask_dir image_dir : string) (r : Z) (s : Q) (copy_org : bool)
         (db : NuwaDB) (masks : list mask) (boxes : list bbox),
    colmap_reconstruction db = None ->
    frames db <> [] ->
    calculate_masks r s (map (fun f => Image_open (image_path f)) (frames db))
      = inl (masks, boxes) ->
    calculate_object_mask Image_open abspath mask_dir image_dir r s true copy_org db
    = (inr AttributeError,
       if copy_org
       then with_state db (map (relocate_org (abspath image_dir)) (frames db)) None
       else db).
Proof.
  intros mask_dir image_dir r s copy_org db masks boxes Hrc Hfs Hrun.
  unfold calculate_object_mask. rewrite Hrun, Hrc.
  destruct copy_org.
  - unfold adjust_cameras_stage.
    rewrite normalize_cameras_without_reconstruction; [reflexivity|reflexivity|].
    cbn [frames with_state]. destruct (frames db); [congruence | discriminate].
  - unfold adjust_cameras_stage.
    now rewrite (normalize_cameras_without_reconstruction true 1 db Hrc Hfs).
Qed.

(** X25: on a dataset with no frame the call returns the empty list of masks
    when [adjust_cameras] is off and raises [IndexError] (from
    [normalize_cameras]) when it is on; the dataset is left as it was. *)
Theorem calculate_object_mask_no_frames :
  forall (mask_dir image_dir : string) (r : Z) (s : Q) (copy_org : bool)
         (db : NuwaDB),
    frames db = [] ->
    calculate_object_mask Image_open abspath mask_dir image_dir r s false copy_org db
      = (inl [], db) /\
    calculate_object_mask Image_open abspath mask_dir image_dir r s true copy_org db
      = (inr IndexError, db).
Proof.
  intros mask_dir image_dir r s copy_org db Hfs.
  unfold calculate_object_mask, adjust_cameras_stage, normalize_cameras.
  rewrite Hfs. cbn [map calculate_masks masking_loop].
  destruct db as [src fs rc]. cbn [frames] in Hfs. subst fs.
  destruct copy_org; split; reflexivity.
Qed.


(** X26: a complete call with [adjust_cameras] on.  When every frame is
    pinhole, the masking loop and the normalisation succeed and carving and
    cropping return one pose, one matrix and one mask per frame (and at
    least one picture), the call returns the cropped masks, and frame j
    ends with the image path and the mask path numbered j under the absolute
    paths of their two directories, the j-th carved pose, and the width and
    height of the first cropped picture, the same for all frames. *)
Theorem calculate_object_mask_with_adjustment :
  forall (mask_dir image_dir : string) (r : Z) (s : Q) (copy_org : bool)
         (db db1 : NuwaDB) (masks : list mask) (boxes : list bbox)
         (img0 : image) (rest : list image) (ks' : list mat3)
         (masks' : list mask) (h0 w0 : Z),
    let images := map (fun f => Image_open (image_path f)) (frames db) in
    let dbc :=
      if copy_org
      then with_state db (map (relocate_org (abspath image_dir)) (frames db))
                      (colmap_reconstruction db)
      else db in
    let ks := map (fun x => intrinsic_matrix (camera x)) (frames db1) in
    let carved := scene_carving masks ks (map pose (frames db1)) in
    Forall (fun x => is_pinhole x = true) (frames db) ->
    calculate_masks r s images = inl (masks, boxes) ->
    normalize_cameras true 1 dbc = (None, db1) ->
    crop_images images masks ks = (img0 :: rest, ks', masks') ->
    shape img0 = (h0, w0) ->
    (List.length (frames db) <= List.length carved)%nat ->
    (List.length (frames db) <= List.length ks')%nat ->
    List.length masks' = List.length (frames db) ->
    exists fs3,
      calculate_object_mask Image_open abspath mask_dir image_dir r s true copy_org db
      = (inl masks', with_state db1 fs3 (colmap_reconstruction db1)) /\
      List.length fs3 = List.length (frames db) /\
      forall j, (j < List.length (frames db))%nat ->
        exists f3,
          nth_error fs3 j = Some f3 /\
          image_path f3 = numbered_png (abspath image_dir) j /\
          mask_path f3 = Some (numbered_png (abspath mask_dir) j) /\
          nth_error carved j = Some (pose f3) /\
          w (camera f3) = w0 /\ h (camera f3) = h0.
Proof.
  intros mask_dir image_dir r s copy_org db db1 masks boxes img0 rest ks' masks'
         h0 w0 images dbc ks carved Hpin Hrun Hnorm Hcrop Hshape Hcarved Hks Hmasks.
  assert (Hlenc : List.length (frames dbc) = List.length (frames db)).
  { unfold dbc. destruct copy_org; [|reflexivity].
    cbn [frames with_state]. apply length_map. }
  assert (Hpinc : Forall (fun x => is_pinhole x = true) (frames dbc)).
  { unfold dbc. destruct copy_org; [|exact Hpin].
    cbn [frames with_state]. rewrite Forall_map.
    eapply Forall_impl; [|exact Hpin]. intros f Hf. exact Hf. }
  destruct (adjust_stage_runs (abspath image_dir) images masks dbc db1 img0 rest
              ks' masks' h0 w0 Hpinc Hnorm Hcrop Hshape)
    as (fs2 & Hstage & Hlen2 & Hnth2); [fold ks; fold carved; lia | lia |].
  destruct (set_mask_paths_all (abspath mask_dir) masks' 0 fs2)
    as (fs3 & Hset & Hlen3 & Hnth3); [lia|].
  exists fs3. split; [|split].
  - unfold calculate_object_mask. fold images. rewrite Hrun. fold dbc.
    rewrite Hstage, Hnorm. cbn [snd]. fold ks. rewrite Hcrop.
    cbn [frames with_state colmap_reconstruction]. rewrite Hset.
    reflexivity.
  - lia.
  - intros j Hj.
    destruct (nth_error (frames dbc) j) as [f|] eqn:Ef;
      [|apply nth_error_None in Ef; lia].
    destruct (Hnth2 j f Ef) as (f1 & p & k & _ & _ & Hp & _ & Hf2).
    exists (with_mask_path (updated_frame (abspath image_dir) w0 h0 p k j f1)
                           (numbered_png (abspath mask_dir) j)).
    split; [apply (Hnth3 j _ Hf2)|].
    repeat split. exact Hp.
Qed.

End WithCollaborators.


(** ** Instances *)

Import Samples MoreSamples.

Lemma three_cameras_run :
  normalize_cameras true 1 three_cameras
  = (None, snd (normalize_cameras true 1 three_cameras)) /\
  List.length (frames (snd (normalize_cameras true 1 three_cameras))) = 3%nat.
Proof.
  destruct three_cameras_normalized as [Hok _].
  destruct (normalize_cameras true 1 three_cameras) as [r d] eqn:E.
  cbn [fst snd] in *. subst r. split; [reflexivity|].
  destruct (normalize_cameras_frames _ _ _ _ _ E) as (ps & ->).
  now rewrite write_poses_length.
Qed.

Lemma three_cameras_pinhole :
  Forall (fun x => is_pinhole x = true) (frames three_cameras).
Proof. repeat constructor. Qed.

Lemma adjust_stage_updates_every_frame_witness :
  exists fs2,
    @adjust_cameras_stage point_cloud still_scene "/out" three_pictures
       [full_mask 4 4; full_mask 4 4; full_mask 4 4] three_cameras
    = (None,
       with_state (snd (normalize_cameras true 1 three_cameras)) fs2
         (colmap_reconstruction (snd (normalize_cameras true 1 three_cameras)))) /\
    List.length fs2 = 3%nat.
Proof.
  destruct three_cameras_run as [Hnorm Hlen].
  destruct (@adjust_stage_updates_every_frame point_cloud still_scene
              "/out" three_pictures [full_mask 4 4; full_mask 4 4; full_mask 4 4]
              three_cameras (snd (normalize_cameras true 1 three_cameras))
              (4, 4)%nat [(4, 4); (4, 4)]%nat
              (map (fun x => pinhole_matrix (camera x))
                   (frames (snd (normalize_cameras true 1 three_cameras))))
              [full_mask 4 4; full_mask 4 4; full_mask 4 4] 4%Z 4%Z)
    as (fs2 & Hrun & Hlen2 & _).
  - exact three_cameras_pinhole.
  - exact Hnorm.
  - reflexivity.
  - reflexivity.
  - cbv [scene_carving still_scene uniform_scene].
    rewrite length_map, Hlen. simpl. lia.
  - rewrite length_map, Hlen. simpl. lia.
  - exists fs2. split; [exact Hrun | exact Hlen2].
Defined.

(** X24, witness: relative directories, working directory "/work", two
    frames without a reconstruction, [copy_org] on: the call raises and the
    original paths have moved under "/work/out". *)
Lemma calculate_object_mask_needs_reconstruction_witness :
  @calculate_object_mask point_cloud still_scene four_by_four (abspath_in "/work")
     "masks" "out" 2 (1 # 50) true true no_reconstruction
  = (inr AttributeError,
     with_state no_reconstruction
       (map (relocate_org "/work/out") (frames no_reconstruction)) None).
Proof.
  apply (@calculate_object_mask_needs_reconstruction point_cloud still_scene
           four_by_four (abspath_in "/work") "masks" "out" 2 (1 # 50) true
           no_reconstruction
           [full_mask 4 4; full_mask 4 4] [(0, 0, 2, 2)%Z]).
  - reflexivity.
  - discriminate.
  - vm_compute. reflexivity.
Defined.

Lemma calculate_object_mask_no_frames_witness :
  @calculate_object_mask point_cloud still_scene four_by_four (abspath_in "/work")
     "/masks" "/out" 2 (1 # 50) false true no_frames
    = (inl [], no_frames) /\
  @calculate_object_mask point_cloud still_scene four_by_four (abspath_in "/work")
     "/masks" "/out" 2 (1 # 50) true true no_frames
    = (inr IndexError, no_frames).
Proof.
  apply (@calculate_object_mask_no_frames point_cloud still_scene four_by_four
           (abspath_in "/work") "/masks" "/out" 2 (1 # 50) true no_frames).
  reflexivity.
Defined.

(** X26, witness: relative directories in the working directory "/work";
    the first frame ends with its image and its mask numbered 0 under
    "/work/out" and "/work/masks". *)
Lemma calculate_object_mask_with_adjustment_witness :
  exists fs3,
    @calculate_object_mask point_cloud still_scene four_by_four (abspath_in "/work")
       "masks" "out" 2 (1 # 50) true false three_cameras
    = (inl [full_mask 4 4; full_mask 4 4; full_mask 4 4],
       with_state (snd (normalize_cameras true 1 three_cameras)) fs3
         (colmap_reconstruction (snd (normalize_cameras true 1 three_cameras)))) /\
    List.length fs3 = 3%nat /\
    exists f3,
      nth_error fs3 0 = Some f3 /\
      image_path f3 = "/work/out/000000.png"%string /\
      mask_path f3 = Some "/work/masks/000000.png"%string.
Proof.
  destruct three_cameras_run as [Hnorm Hlen].
  destruct (@calculate_object_mask_with_adjustment point_cloud still_scene
              four_by_four (abspath_in "/work") "masks" "out" 2 (1 # 50) false
              three_cameras (snd (normalize_cameras true 1 three_cameras))
              [full_mask 4 4; full_mask 4 4; full_mask 4 4]
              [(0, 0, 2, 2); (0, 0, 2, 2)]%Z
              (4, 4)%nat [(4, 4); (4, 4)]%nat
              (map (fun x => pinhole_matrix (camera x))
                   (frames (snd (normalize_cameras true 1 three_cameras))))
              [full_mask 4 4; full_mask 4 4; full_mask 4 4] 4%Z 4%Z)
    as (fs3 & Hrun & Hlen3 & Hnth).
  - exact three_cameras_pinhole.
  - vm_compute. reflexivity.
  - exact Hnorm.
  - reflexivity.
  - reflexivity.
  - cbv [scene_carving still_scene uniform_scene].
    rewrite length_map, Hlen. simpl. lia.
  - rewrite length_map, Hlen. simpl. lia.
  - reflexivity.
  - exists fs3. split; [exact Hrun|]. split; [exact Hlen3|].
    destruct (Hnth 0%nat) as (f3 & Hf3 & Himg & Hmask & _); [simpl; lia|].
    exists f3. split; [exact Hf3|]. split; [exact Himg | exact Hmask].
Defined.

End WholeCallSpec.
